(** * Mython lexer: a shallow embedding of [lexer.h] / [lexer.cpp]

    The scanner reads characters from a [std::istream] and produces one token
    per call of [Lexer::ReadNextToken].  The embedding keeps the structure of
    the source: a model of the stream operations the code uses ([peek], [get],
    [putback], [getline]), the readers of namespace [util], and the methods of
    class [Lexer] written in state-passing style.

    Conventions.
    - [char] is the signed 8-bit type of the usual x86-64 targets.  A [char]
      is stored as its bit pattern ([ascii]); [char_to_int] is the integral
      promotion used when a [char] is compared with the [int] returned by
      [traits_type::eof()].
    - [uint32_t] and [size_t] fields are [Z] values with the wrap-around
      written out.
    - Character classification is that of the default "C" locale. *)

From Stdlib Require Import ZArith List Bool Ascii String Lia.
From Stdlib Require Import DecimalString DecimalZ.
Import ListNotations.

Local Open Scope Z_scope.

(** ** Characters *)

Definition EOF : Z := -1.

(** [traits_type::to_int_type]: the character as an [unsigned char] value. *)
Definition to_int_type (c : ascii) : Z := Z.of_N (N_of_ascii c).

(** Conversion of an [int] to [char] (keeps the low eight bits). *)
Definition int_to_char (i : Z) : ascii := ascii_of_N (Z.to_N (i mod 256)).

(** Integral promotion of a (signed) [char]. *)
Definition char_to_int (c : ascii) : Z :=
  let n := to_int_type c in if n <? 128 then n else n - 256.

Definition LF : ascii := "010"%char.
Definition TAB : ascii := "009"%char.
Definition SPACE : ascii := " "%char.
Definition HASH : ascii := "#"%char.
Definition BACKSLASH : ascii := "\"%char.
Definition DQUOTE : ascii := "034"%char.
Definition SQUOTE : ascii := "'"%char.
Definition UNDERSCORE : ascii := "_"%char.

(** [line += c] on a [std::string]. *)
Definition push_back (line : string) (c : ascii) : string :=
  (line ++ String c EmptyString)%string.

(** ** The input stream

    [buf] is the text not yet extracted.  [eofbit] and [failbit] are the two
    state bits the code can raise; the lexer never calls [clear], so a stream
    that has stopped being good stays so. *)

Record istream : Type := mk_istream {
  buf : list ascii;
  eofbit : bool;
  failbit : bool
}.

Definition istringstream (text : string) : istream :=
  {| buf := list_ascii_of_string text; eofbit := false; failbit := false |}.

Definition good (s : istream) : bool := negb (eofbit s) && negb (failbit s).

Definition set_eof (s : istream) : istream :=
  {| buf := buf s; eofbit := true; failbit := failbit s |}.
Definition set_fail (s : istream) : istream :=
  {| buf := buf s; eofbit := eofbit s; failbit := true |}.
Definition set_buf (s : istream) (b : list ascii) : istream :=
  {| buf := b; eofbit := eofbit s; failbit := failbit s |}.

(** [int peek()]: the sentry raises [failbit] on a stream that is not good;
    at the end of the data [eofbit] is raised. *)
Definition peek (s : istream) : Z * istream :=
  if good s then
    match buf s with
    | [] => (EOF, set_eof s)
    | c :: _ => (to_int_type c, s)
    end
  else (EOF, set_fail s).

(** [get(char&)]: the character is assigned only on success; a failed
    extraction raises [failbit] (and [eofbit] at the end of the data). *)
Definition get (s : istream) : option ascii * istream :=
  if good s then
    match buf s with
    | [] => (None, set_fail (set_eof s))
    | c :: b => (Some c, set_buf s b)
    end
  else (None, set_fail s).

(** [int get()]. *)
Definition get_int (s : istream) : Z * istream :=
  match get s with
  | (Some c, s') => (to_int_type c, s')
  | (None, s') => (EOF, s')
  end.

(** [putback(c)]: clears [eofbit], then steps back over the character that
    was extracted last.  The lexer only puts back the character it has just
    read, so the step back always succeeds on a good stream. *)
Definition putback (c : ascii) (s : istream) : istream :=
  let s := {| buf := buf s; eofbit := false; failbit := failbit s |} in
  if good s then set_buf s (c :: buf s) else set_fail s.

(** The characters of [b] up to the first line feed, the text after it, and
    whether a line feed was found. *)
Fixpoint split_line (b : list ascii) (s : string) : string * list ascii * bool :=
  match b with
  | [] => (s, [], false)
  | c :: b' => if Ascii.eqb c LF then (s, b', true) else split_line b' (push_back s c)
  end.

(** [std::getline(input, s)]: extracts through the next line feed, which is
    discarded; reaching the end of the data raises [eofbit], and extracting
    nothing at all raises [failbit]. *)
Definition getline (s : istream) : string * istream :=
  if good s then
    match buf s with
    | [] => (EmptyString, set_fail (set_eof s))
    | _ =>
        match split_line (buf s) EmptyString with
        | (line, b, true) => (line, set_buf s b)
        | (line, b, false) => (line, set_eof (set_buf s b))
        end
    end
  else (EmptyString, set_fail s).

(** ** Tokens *)

Module token_type.

Inductive Token : Type :=
| Number (value : Z)
| Id (value : string)
| Char (value : ascii)
| String (value : string)
| Class | Return | If | Else | Def | Newline | Print | Indent | Dedent
| And | Or | Not | Eq | NotEq | LessOrEq | GreaterOrEq
| None | True | False | Eof.

End token_type.

Definition Token : Type := token_type.Token.

(** [operator==] on tokens. *)
Definition Token_eqb (lhs rhs : Token) : bool :=
  match lhs, rhs with
  | token_type.Number a, token_type.Number b => a =? b
  | token_type.Id a, token_type.Id b => String.eqb a b
  | token_type.Char a, token_type.Char b => Ascii.eqb a b
  | token_type.String a, token_type.String b => String.eqb a b
  | token_type.Class, token_type.Class => true
  | token_type.Return, token_type.Return => true
  | token_type.If, token_type.If => true
  | token_type.Else, token_type.Else => true
  | token_type.Def, token_type.Def => true
  | token_type.Newline, token_type.Newline => true
  | token_type.Print, token_type.Print => true
  | token_type.Indent, token_type.Indent => true
  | token_type.Dedent, token_type.Dedent => true
  | token_type.And, token_type.And => true
  | token_type.Or, token_type.Or => true
  | token_type.Not, token_type.Not => true
  | token_type.Eq, token_type.Eq => true
  | token_type.NotEq, token_type.NotEq => true
  | token_type.LessOrEq, token_type.LessOrEq => true
  | token_type.GreaterOrEq, token_type.GreaterOrEq => true
  | token_type.None, token_type.None => true
  | token_type.True, token_type.True => true
  | token_type.False, token_type.False => true
  | token_type.Eof, token_type.Eof => true
  | _, _ => false
  end.

(** ** Results of calls that may throw

    [Throw] is a C++ exception leaving the call.  [Undefined] marks a run
    that reads a [char] that was never assigned (the source declares [char c;]
    and [char next;] and tests them after a failed [get]).  [OutOfFuel] is
    the bound of the recursion of the model; [ReadNextToken_total] shows that
    it is never reached. *)

Inductive exception : Type :=
| runtime_error (what : string)
| out_of_range (what : string).

Inductive outcome (A : Type) : Type :=
| Ok (a : A)
| Throw (e : exception)
| Undefined
| OutOfFuel.

Arguments Ok {A} a.
Arguments Throw {A} e.
Arguments Undefined {A}.
Arguments OutOfFuel {A}.

(** ** Namespace [util] *)

Module util.

(** The static tables of [lexer.h]. *)
Definition KeyWords : list (string * Token) :=
  [ ("class"%string, token_type.Class);
    ("return"%string, token_type.Return);
    ("if"%string, token_type.If);
    ("else"%string, token_type.Else);
    ("def"%string, token_type.Def);
    ("print"%string, token_type.Print);
    ("and"%string, token_type.And);
    ("or"%string, token_type.Or);
    ("not"%string, token_type.Not);
    ("None"%string, token_type.None);
    ("True"%string, token_type.True);
    ("False"%string, token_type.False) ].

Definition DualSymbols : list (string * Token) :=
  [ ("=="%string, token_type.Eq);
    ("!="%string, token_type.NotEq);
    (">="%string, token_type.GreaterOrEq);
    ("<="%string, token_type.LessOrEq) ].

(** [table.count(key) != 0] followed by [table.at(key)]. *)
Fixpoint find (table : list (string * Token)) (key : string) : option Token :=
  match table with
  | [] => None
  | (k, t) :: table' => if String.eqb k key then Some t else find table' key
  end.

Definition in_range (lo hi : ascii) (ch : ascii) : bool :=
  (to_int_type lo <=? to_int_type ch) && (to_int_type ch <=? to_int_type hi).

Definition IsNum (ch : ascii) : bool := in_range "0" "9" ch.

Definition IsAlpha (ch : ascii) : bool := in_range "a" "z" ch || in_range "A" "Z" ch.

Definition IsAlNum (ch : ascii) : bool := IsAlpha ch || IsNum ch.

Definition IsAlNumLL (ch : ascii) : bool := IsAlNum ch || Ascii.eqb ch UNDERSCORE.

(** The [while (input.get(c))] loop of [ReadString].  [c] is the local
    variable of the source: [None] until the first successful [get]. *)
Fixpoint ReadString_loop (fuel : nat) (first : ascii) (c : option ascii)
    (line : string) (input : istream) : outcome (option ascii * string) * istream :=
  match fuel with
  | O => (OutOfFuel, input)
  | S fuel' =>
      match get input with
      | (Some c, input) =>
          if Ascii.eqb c BACKSLASH then
            match get input with
            | (Some next, input) =>
                let line :=
                  if Ascii.eqb next DQUOTE then push_back line DQUOTE
                  else if Ascii.eqb next SQUOTE then push_back line SQUOTE
                  else if Ascii.eqb next "n" then push_back line LF
                  else if Ascii.eqb next "t" then push_back line TAB
                  else line in
                ReadString_loop fuel' first (Some c) line input
            | (None, input) => (Undefined, input)
            end
          else if Ascii.eqb c first then (Ok (Some c, line), input)
          else ReadString_loop fuel' first (Some c) (push_back line c) input
      | (None, input) => (Ok (c, line), input)
      end
  end.

Definition ReadString (input : istream) : outcome string * istream :=
  let (i, input) := get_int input in
  let first := int_to_char i in
  match ReadString_loop (S (List.length (buf input))) first None EmptyString input with
  | (Ok (Some c, line), input) =>
      if negb (Ascii.eqb c first)
      then (Throw (runtime_error ("Failed to parse string : " ++ line)), input)
      else (Ok line, input)
  | (Ok (None, _), input) => (Undefined, input)
  | (Throw e, input) => (Throw e, input)
  | (Undefined, input) => (Undefined, input)
  | (OutOfFuel, input) => (OutOfFuel, input)
  end.

Fixpoint ReadName_loop (fuel : nat) (line : string) (input : istream) : string * istream :=
  match fuel with
  | O => (line, input)
  | S fuel' =>
      match get input with
      | (Some c, input) =>
          if IsAlNumLL c then ReadName_loop fuel' (push_back line c) input
          else (line, putback c input)
      | (None, input) => (line, input)
      end
  end.

Definition ReadName (input : istream) : string * istream :=
  ReadName_loop (S (List.length (buf input))) EmptyString input.

(** [size_t] arithmetic. *)
Definition size_max : Z := 2 ^ 64.

Fixpoint CountSpaces_loop (fuel : nat) (result : Z) (input : istream) : Z * istream :=
  match fuel with
  | O => (result, input)
  | S fuel' =>
      match get input with
      | (Some c, input) =>
          if Ascii.eqb c SPACE then CountSpaces_loop fuel' ((result + 1) mod size_max) input
          else (result, putback c input)
      | (None, input) => (result, input)
      end
  end.

Definition CountSpaces (input : istream) : Z * istream :=
  CountSpaces_loop (S (List.length (buf input))) 0 input.

Definition ReadLine (input : istream) : string * istream := getline input.

Fixpoint ReadNumber_loop (fuel : nat) (num : string) (input : istream) : string * istream :=
  match fuel with
  | O => (num, input)
  | S fuel' =>
      match get input with
      | (Some c, input) =>
          if IsNum c then ReadNumber_loop fuel' (push_back num c) input
          else (num, putback c input)
      | (None, input) => (num, input)
      end
  end.

(** The value of a string of decimal digits. *)
Fixpoint digits_value (acc : Z) (num : string) : Z :=
  match num with
  | EmptyString => acc
  | String c num' => digits_value (10 * acc + (to_int_type c - to_int_type "0")) num'
  end.

Definition INT_MAX : Z := 2 ^ 31 - 1.

(** [std::stoi] on a non-empty string of digits: [std::out_of_range] when the
    value does not fit an [int]. *)
Definition stoi (num : string) : outcome Z :=
  let v := digits_value 0 num in
  if v <=? INT_MAX then Ok v else Throw (out_of_range "stoi").

Definition ReadNumber (input : istream) : outcome Z * istream :=
  let (num, input) := ReadNumber_loop (S (List.length (buf input))) EmptyString input in
  match num with
  | EmptyString => (Ok 0, input)
  | _ => (stoi num, input)
  end.

End util.

(** ** Namespace [parse]: class [Lexer] *)

Module parse.

Definition uint32_max : Z := 2 ^ 32.

Record Lexer : Type := mk_Lexer {
  input_ : istream;
  start_of_line_ : bool;
  current_indent_ : Z;
  line_indent_ : Z;
  current_token_ : Token
}.

Definition with_input (l : Lexer) (i : istream) : Lexer :=
  mk_Lexer i (start_of_line_ l) (current_indent_ l) (line_indent_ l) (current_token_ l).
Definition with_start_of_line (l : Lexer) (b : bool) : Lexer :=
  mk_Lexer (input_ l) b (current_indent_ l) (line_indent_ l) (current_token_ l).
Definition with_current_indent (l : Lexer) (n : Z) : Lexer :=
  mk_Lexer (input_ l) (start_of_line_ l) n (line_indent_ l) (current_token_ l).
Definition with_line_indent (l : Lexer) (n : Z) : Lexer :=
  mk_Lexer (input_ l) (start_of_line_ l) (current_indent_ l) n (current_token_ l).
Definition with_current_token (l : Lexer) (t : Token) : Lexer :=
  mk_Lexer (input_ l) (start_of_line_ l) (current_indent_ l) (line_indent_ l) t.

(** A void method that returns normally or throws, with the object it leaves. *)
Definition completion : Type := outcome unit * Lexer.

Definition NextLine (l : Lexer) : Lexer :=
  let (_, i) := util.ReadLine (input_ l) in
  with_line_indent (with_start_of_line (with_input l i) true) 0.

(** The loop of [ParseComment]. *)
Fixpoint ParseComment_loop (fuel : nat) (input : istream) : istream :=
  match fuel with
  | O => input
  | S fuel' =>
      match get input with
      | (Some c, input) =>
          if Ascii.eqb c LF then putback c input
          else ParseComment_loop fuel' input
      | (None, input) => input
      end
  end.

(** The methods that end in a call of [ReadNextToken] take it as an argument. *)
Definition ParseComment (ReadNextToken : Lexer -> completion) (l : Lexer) : completion :=
  let i := ParseComment_loop (S (List.length (buf (input_ l)))) (input_ l) in
  ReadNextToken (with_input l i).

Definition ParseEOF (l : Lexer) : Lexer :=
  if negb (start_of_line_ l) then
    with_current_token (NextLine l) token_type.Newline
  else if 0 <? current_indent_ l then
    with_current_token
      (with_current_indent l ((current_indent_ l - 1) mod uint32_max))
      token_type.Dedent
  else with_current_token l token_type.Eof.

Definition ParseLineEnd (ReadNextToken : Lexer -> completion) (l : Lexer) : completion :=
  if start_of_line_ l then ReadNextToken (NextLine l)
  else (Ok tt, with_current_token (NextLine l) token_type.Newline).

Definition ParseSpaces (ReadNextToken : Lexer -> completion) (l : Lexer) : completion :=
  let (spaces_count, i) := util.CountSpaces (input_ l) in
  let l := with_input l i in
  let l :=
    if start_of_line_ l then with_line_indent l ((spaces_count / 2) mod uint32_max)
    else l in
  ReadNextToken l.

Definition ParseIndent (l : Lexer) : Lexer :=
  if current_indent_ l <? line_indent_ l then
    with_current_token
      (with_current_indent l ((current_indent_ l + 1) mod uint32_max))
      token_type.Indent
  else if line_indent_ l <? current_indent_ l then
    with_current_token
      (with_current_indent l ((current_indent_ l - 1) mod uint32_max))
      token_type.Dedent
  else l.

Definition ParseName (l : Lexer) : Lexer :=
  let (name, i) := util.ReadName (input_ l) in
  let l := with_input l i in
  match util.find util.KeyWords name with
  | Some t => with_current_token l t
  | None => with_current_token l (token_type.Id name)
  end.

Definition ParseChar (l : Lexer) : Lexer :=
  let (g, i) := get_int (input_ l) in
  let (p, i) := peek i in
  let sym_pair := String (int_to_char g) (String (int_to_char p) EmptyString) in
  match util.find util.DualSymbols sym_pair with
  | Some t =>
      let (_, i) := get_int i in
      with_input (with_current_token l t) i
  | None => with_input (with_current_token l (token_type.Char (int_to_char g))) i
  end.

Definition ParseToken (l : Lexer) : completion :=
  let (p, i) := peek (input_ l) in
  let l := with_input l i in
  let ch := int_to_char p in
  if util.IsNum ch then
    match util.ReadNumber (input_ l) with
    | (Ok n, i) => (Ok tt, with_current_token (with_input l i) (token_type.Number n))
    | (Throw e, i) => (Throw e, with_input l i)
    | (Undefined, i) => (Undefined, with_input l i)
    | (OutOfFuel, i) => (OutOfFuel, with_input l i)
    end
  else if util.IsAlNumLL ch then (Ok tt, ParseName l)
  else if Ascii.eqb ch DQUOTE || Ascii.eqb ch SQUOTE then
    match util.ReadString (input_ l) with
    | (Ok s, i) => (Ok tt, with_current_token (with_input l i) (token_type.String s))
    | (Throw e, i) => (Throw e, with_input l i)
    | (Undefined, i) => (Undefined, with_input l i)
    | (OutOfFuel, i) => (OutOfFuel, with_input l i)
    end
  else (Ok tt, ParseChar l).

(** The body of [ReadNextToken]; [self] stands for the method itself in the
    calls made by [ParseLineEnd], [ParseComment] and [ParseSpaces]. *)
Definition ReadNextToken_body (self : Lexer -> completion) (l : Lexer) : completion :=
  let (p, i) := peek (input_ l) in
  let l := with_input l i in
  let ch := int_to_char p in
  if char_to_int ch =? EOF then (Ok tt, ParseEOF l)
  else if Ascii.eqb ch LF then ParseLineEnd self l
  else if Ascii.eqb ch HASH then ParseComment self l
  else if Ascii.eqb ch SPACE then ParseSpaces self l
  else if start_of_line_ l && negb (current_indent_ l =? line_indent_ l)
  then (Ok tt, ParseIndent l)
  else
    match ParseToken l with
    | (Ok tt, l) => (Ok tt, with_start_of_line l false)
    | r => r
    end.

Fixpoint ReadNextToken_fuel (fuel : nat) (l : Lexer) : completion :=
  match fuel with
  | O => (OutOfFuel, l)
  | S fuel' => ReadNextToken_body (ReadNextToken_fuel fuel') l
  end.

(** Every nested call of [ReadNextToken] follows the extraction of at least
    one character, so the text left to read bounds the depth of the calls. *)
Definition ReadNextToken (l : Lexer) : completion :=
  ReadNextToken_fuel (S (List.length (buf (input_ l)))) l.

(** The object before the body of the constructor runs: the member
    initialisers of the class, and a default-constructed [Token], which holds
    the first alternative of the variant, [Number{0}]. *)
Definition Lexer_members (input : istream) : Lexer :=
  {| input_ := input;
     start_of_line_ := true;
     current_indent_ := 0;
     line_indent_ := 0;
     current_token_ := token_type.Number 0 |}.

(** [Lexer::Lexer(std::istream&)]. *)
Definition Lexer_new (input : istream) : completion :=
  ReadNextToken (Lexer_members input).

Definition CurrentToken (l : Lexer) : Token := current_token_ l.

Definition NextToken (l : Lexer) : outcome Token * Lexer :=
  match ReadNextToken l with
  | (Ok tt, l) => (Ok (current_token_ l), l)
  | (Throw e, l) => (Throw e, l)
  | (Undefined, l) => (Undefined, l)
  | (OutOfFuel, l) => (OutOfFuel, l)
  end.

End parse.

Import parse.

(** ** The token stream seen by a caller

    A caller constructs the lexer (which reads the first token) and then calls
    [NextToken] repeatedly.  [tokens_from n l] lists the tokens of the next
    [n] calls of [ReadNextToken] on [l], stopping early at a call that does
    not return.  [scan_from n l] makes at most [n] calls and stops at the
    first [Eof]. *)

Fixpoint tokens_from (n : nat) (l : Lexer) : list Token :=
  match n with
  | O => []
  | S n' =>
      match ReadNextToken l with
      | (Ok tt, l') => current_token_ l' :: tokens_from n' l'
      | _ => []
      end
  end.

Definition tokens (n : nat) (text : string) : list Token :=
  tokens_from n (Lexer_members (istringstream text)).

Fixpoint scan_from (n : nat) (l : Lexer) : outcome (list Token) :=
  match n with
  | O => OutOfFuel
  | S n' =>
      match ReadNextToken l with
      | (Ok tt, l') =>
          if Token_eqb (current_token_ l') token_type.Eof then Ok [current_token_ l']
          else
            match scan_from n' l' with
            | Ok ts => Ok (current_token_ l' :: ts)
            | r => r
            end
      | (Throw e, _) => Throw e
      | (Undefined, _) => Undefined
      | (OutOfFuel, _) => OutOfFuel
      end
  end.

Definition scan (n : nat) (text : string) : outcome (list Token) :=
  scan_from n (Lexer_members (istringstream text)).

Definition nl : string := String LF EmptyString.
Definition dq : string := String DQUOTE EmptyString.

(** ** Vocabulary of the properties *)

(** A good stream holding [b], and the stream after a failed extraction at
    the end of the data. *)
Definition stream (b : list ascii) : istream := mk_istream b false false.
Definition ended : istream := mk_istream [] true true.

(** What the three skipping loops leave in the stream. *)
Fixpoint skip_spaces (b : list ascii) : list ascii :=
  match b with
  | c :: b' => if Ascii.eqb c SPACE then skip_spaces b' else b
  | [] => []
  end.

Fixpoint skip_to_LF (b : list ascii) : list ascii :=
  match b with
  | c :: b' => if Ascii.eqb c LF then b else skip_to_LF b'
  | [] => []
  end.

Definition stream_after (b : list ascii) : istream :=
  match b with
  | [] => ended
  | _ => stream b
  end.

(** The text the lexer has not read yet bounds the nested calls. *)
Definition remaining (l : Lexer) : nat := List.length (buf (input_ l)).

(** [Newline], [Indent], [Dedent] and [Eof] are the structural tokens. *)
Definition structural (t : Token) : bool :=
  match t with
  | token_type.Newline | token_type.Indent | token_type.Dedent | token_type.Eof => true
  | _ => false
  end.

(** The lexer on which [ParseComment] and [ParseSpaces] call [ReadNextToken]. *)
Definition comment_skipped (l : Lexer) : Lexer :=
  with_input l (ParseComment_loop (S (remaining l)) (input_ l)).

Definition spaces_skipped (l : Lexer) : Lexer :=
  let (spaces_count, i) := util.CountSpaces (input_ l) in
  let l := with_input l i in
  if start_of_line_ l then with_line_indent l ((spaces_count / 2) mod uint32_max)
  else l.

(** A character that starts neither the end of input, a line end, a comment
    nor a run of spaces. *)
Definition significant (c : ascii) : Prop :=
  char_to_int c <> EOF /\ c <> LF /\ c <> HASH /\ c <> SPACE.

(** The two counters hold [uint32_t] values. *)
Definition uint32_fields (l : Lexer) : Prop :=
  0 <= current_indent_ l < uint32_max /\ 0 <= line_indent_ l < uint32_max.

(** What one call of [ReadNextToken] does to [current_indent_], read off the
    token it stored. *)
Definition indent_effect (l : Lexer) (r : completion) : Prop :=
  let l' := snd r in
  uint32_fields l' /\
  match fst r with
  | Ok _ =>
      match current_token_ l' with
      | token_type.Indent => current_indent_ l' = current_indent_ l + 1
      | token_type.Dedent => current_indent_ l' = current_indent_ l - 1
      | token_type.Eof => current_indent_ l' = current_indent_ l /\ current_indent_ l' = 0
      | _ => current_indent_ l' = current_indent_ l
      end
  | _ => current_indent_ l' = current_indent_ l
  end.

(** Counting with the [operator==] of the source. *)
Definition count_token (t : Token) (ts : list Token) : nat :=
  List.length (filter (Token_eqb t) ts).

(** The state in which [ReadNextToken] stores [Eof]: the character ahead
    compares equal to [eof()], the lexer is at the start of a line and no
    indentation is open. *)
Definition at_eof (l : Lexer) : Prop :=
  start_of_line_ l = true
  /\ (0 <? current_indent_ l) = false
  /\ char_to_int (int_to_char (fst (peek (input_ l)))) = EOF.

(** [n] successive calls of [NextToken]: the lexer they leave, or the first
    call that does not return. *)
Fixpoint NextToken_times (n : nat) (l : Lexer) : outcome Lexer :=
  match n with
  | O => Ok l
  | S n' =>
      match NextToken l with
      | (Ok _, l') => NextToken_times n' l'
      | (Throw e, _) => Throw e
      | (Undefined, _) => Undefined
      | (OutOfFuel, _) => OutOfFuel
      end
  end.

(** Text made of line feeds, spaces and comments only: every line is a run
    of spaces, optionally followed by [#] and the rest of the line.
    [in_comment] tells whether the scan is inside a comment. *)
Fixpoint blank_from (in_comment : bool) (b : list ascii) : bool :=
  match b with
  | [] => true
  | c :: b' =>
      if Ascii.eqb c LF then blank_from false b'
      else if in_comment then blank_from true b'
      else if Ascii.eqb c SPACE then blank_from false b'
      else if Ascii.eqb c HASH then blank_from true b'
      else false
  end.

Definition blank_material (text : string) : bool :=
  blank_from false (list_ascii_of_string text).

(** The two-character operators, as the specification lists them. *)
Definition spec_dual (c d : ascii) : option Token :=
  if Ascii.eqb d "=" then
    if Ascii.eqb c "=" then Some token_type.Eq
    else if Ascii.eqb c "!" then Some token_type.NotEq
    else if Ascii.eqb c ">" then Some token_type.GreaterOrEq
    else if Ascii.eqb c "<" then Some token_type.LessOrEq
    else None
  else None.

(** The body of a literal, as the specification describes it: plain
    characters and escapes (a backslash and the character after it). *)
Inductive item : Type :=
| Plain (c : ascii)
| Escape (x : ascii).

Definition encode (it : item) : list ascii :=
  match it with
  | Plain c => [c]
  | Escape x => [BACKSLASH; x]
  end.

(** What an escape stands for: the four escapes of the specification, and
    nothing for any other character. *)
Definition spec_escape (x : ascii) : string :=
  if Ascii.eqb x DQUOTE then String DQUOTE EmptyString
  else if Ascii.eqb x SQUOTE then String SQUOTE EmptyString
  else if Ascii.eqb x "n" then String LF EmptyString
  else if Ascii.eqb x "t" then String TAB EmptyString
  else EmptyString.

Fixpoint spec_value (body : list item) : string :=
  match body with
  | [] => EmptyString
  | Plain c :: body' => String c (spec_value body')
  | Escape x :: body' => (spec_escape x ++ spec_value body')%string
  end.

(** A plain character is neither the backslash nor the closing quote. *)
Definition plain_ok (first : ascii) (it : item) : Prop :=
  match it with
  | Plain c => c <> BACKSLASH /\ c <> first
  | Escape _ => Logic.True
  end.

(** The last character the loop of [ReadString] has read into [c]. *)
Definition last_read (c : option ascii) (body : list item) : option ascii :=
  fold_left
    (fun _ it => Some match it with Plain p => p | Escape _ => BACKSLASH end)
    body c.

Definition no_LF (b : list ascii) : bool :=
  forallb (fun c => negb (Ascii.eqb c LF)) b.

(** A separator line: spaces and/or a comment only (its line feed not
    included). *)
Definition separator_line (sep : list ascii) : bool :=
  no_LF sep && blank_from false sep.

(** The lexer at the start of the line that begins with [rest]. *)
Definition line_start (l : Lexer) (rest : list ascii) : Lexer :=
  mk_Lexer (stream rest) true (current_indent_ l) 0 (current_token_ l).

(** Where a scan of a line stands: in code, or inside the literal opened by
    the quote [q]. *)
Inductive scan_state : Type :=
| in_code
| in_literal (q : ascii).

(** No literal is left open at the end of the line [p].  In code, [#] and
    the character that compares equal to [eof()] give up the rest of the
    line; inside a literal a backslash takes the character after it. *)
Fixpoint literals_closed (st : scan_state) (p : list ascii) : bool :=
  match p with
  | [] => match st with in_code => true | in_literal _ => false end
  | c :: p' =>
      match st with
      | in_code =>
          if Ascii.eqb c HASH || (char_to_int c =? EOF) then true
          else if Ascii.eqb c DQUOTE || Ascii.eqb c SQUOTE
               then literals_closed (in_literal c) p'
               else literals_closed in_code p'
      | in_literal q =>
          if Ascii.eqb c BACKSLASH then
            match p' with
            | [] => false
            | _ :: p'' => literals_closed (in_literal q) p''
            end
          else if Ascii.eqb c q then literals_closed in_code p'
          else literals_closed (in_literal q) p'
      end
  end.

(** How the results [rA] and [rB] of one call of [ReadNextToken] compare
    when the two inputs are a line followed by [X] and the same line followed
    by [Y]: the call stays within the line; or it ends at the start of the
    next line; or it goes on into the next line, from its start. *)
Definition line_related (X Y : list ascii) (rA rB : completion) : Prop :=
  (exists p',
      fst rB = fst rA
      /\ input_ (snd rA) = stream (p' ++ LF :: X)
      /\ snd rB = with_input (snd rA) (stream (p' ++ LF :: Y))
      /\ no_LF p' = true /\ literals_closed in_code p' = true)
  \/ (fst rA = Ok tt /\ fst rB = Ok tt
      /\ input_ (snd rA) = stream X
      /\ snd rB = with_input (snd rA) (stream Y)
      /\ start_of_line_ (snd rA) = true /\ line_indent_ (snd rA) = 0)
  \/ (exists m,
        input_ m = stream X /\ start_of_line_ m = true /\ line_indent_ m = 0
        /\ rA = ReadNextToken m /\ rB = ReadNextToken (with_input m (stream Y))).

(** The texts [X] and [Y] give the same tokens to a lexer that stands at
    the start of a line. *)
Definition same_tokens_from_line_start (X Y : list ascii) : Prop :=
  forall (n : nat) (m : Lexer),
  input_ m = stream X -> start_of_line_ m = true -> line_indent_ m = 0 ->
  tokens_from n m = tokens_from n (with_input m (stream Y)).

(** The lines [lines], each with its line feed, followed by [rest]. *)
Fixpoint join_lines (lines : list (list ascii)) (rest : list ascii) : list ascii :=
  match lines with
  | [] => rest
  | q :: lines' => q ++ LF :: join_lines lines' rest
  end.

(** ** The rest of the interface: comparison, printing, expectations *)

(** The alternatives of the variant [TokenBase], in the order of its
    declaration; [index] is [std::variant::index]. *)
Inductive alternative : Type :=
| T_Number | T_Id | T_Char | T_String
| T_Class | T_Return | T_If | T_Else | T_Def | T_Newline | T_Print | T_Indent
| T_Dedent | T_And | T_Or | T_Not | T_Eq | T_NotEq | T_LessOrEq | T_GreaterOrEq
| T_None | T_True | T_False | T_Eof.

Definition index (t : Token) : alternative :=
  match t with
  | token_type.Number _ => T_Number
  | token_type.Id _ => T_Id
  | token_type.Char _ => T_Char
  | token_type.String _ => T_String
  | token_type.Class => T_Class
  | token_type.Return => T_Return
  | token_type.If => T_If
  | token_type.Else => T_Else
  | token_type.Def => T_Def
  | token_type.Newline => T_Newline
  | token_type.Print => T_Print
  | token_type.Indent => T_Indent
  | token_type.Dedent => T_Dedent
  | token_type.And => T_And
  | token_type.Or => T_Or
  | token_type.Not => T_Not
  | token_type.Eq => T_Eq
  | token_type.NotEq => T_NotEq
  | token_type.LessOrEq => T_LessOrEq
  | token_type.GreaterOrEq => T_GreaterOrEq
  | token_type.None => T_None
  | token_type.True => T_True
  | token_type.False => T_False
  | token_type.Eof => T_Eof
  end.

Definition alternative_eqb (a b : alternative) : bool :=
  match a, b with
  | T_Number, T_Number | T_Id, T_Id | T_Char, T_Char | T_String, T_String
  | T_Class, T_Class | T_Return, T_Return | T_If, T_If | T_Else, T_Else
  | T_Def, T_Def | T_Newline, T_Newline | T_Print, T_Print | T_Indent, T_Indent
  | T_Dedent, T_Dedent | T_And, T_And | T_Or, T_Or | T_Not, T_Not | T_Eq, T_Eq
  | T_NotEq, T_NotEq | T_LessOrEq, T_LessOrEq | T_GreaterOrEq, T_GreaterOrEq
  | T_None, T_None | T_True, T_True | T_False, T_False | T_Eof, T_Eof => true
  | _, _ => false
  end.

(** [Token::Is<T>()]. *)
Definition Is (T : alternative) (t : Token) : bool := alternative_eqb (index t) T.

(** [Token::TryAs<T>()] for the four alternatives that hold a value: the
    value, or [None] for the null pointer.  [Token::As<T>()] is [std::get]:
    the same, with [None] for [std::bad_variant_access]. *)
Definition TryAs_Number (t : Token) : option Z :=
  match t with token_type.Number v => Some v | _ => None end.
Definition TryAs_Id (t : Token) : option string :=
  match t with token_type.Id v => Some v | _ => None end.
Definition TryAs_Char (t : Token) : option ascii :=
  match t with token_type.Char v => Some v | _ => None end.
Definition TryAs_String (t : Token) : option string :=
  match t with token_type.String v => Some v | _ => None end.

Definition As_Number : Token -> option Z := TryAs_Number.
Definition As_Id : Token -> option string := TryAs_Id.
Definition As_Char : Token -> option ascii := TryAs_Char.
Definition As_String : Token -> option string := TryAs_String.

(** [operator==] as the source writes it: the indices first, then the
    values of the alternative [lhs] holds.  [None] stands for an exception
    of [As]. *)
Definition operator_eq (lhs rhs : Token) : option bool :=
  if negb (alternative_eqb (index lhs) (index rhs)) then Some false
  else if Is T_Char lhs then
    match As_Char lhs, As_Char rhs with
    | Some a, Some b => Some (Ascii.eqb a b)
    | _, _ => None
    end
  else if Is T_Number lhs then
    match As_Number lhs, As_Number rhs with
    | Some a, Some b => Some (a =? b)
    | _, _ => None
    end
  else if Is T_String lhs then
    match As_String lhs, As_String rhs with
    | Some a, Some b => Some (String.eqb a b)
    | _, _ => None
    end
  else if Is T_Id lhs then
    match As_Id lhs, As_Id rhs with
    | Some a, Some b => Some (String.eqb a b)
    | _, _ => None
    end
  else Some true.

(** [operator!=]. *)
Definition operator_ne (lhs rhs : Token) : option bool :=
  match operator_eq lhs rhs with
  | Some b => Some (negb b)
  | None => None
  end.

(** [os << int] with the default formatting flags: the decimal digits, with
    a minus sign for a negative value. *)
Definition print_int (v : Z) : string := NilEmpty.string_of_int (Z.to_int v).

(** [operator<<] on an output stream, which is the text written so far: the
    valued alternatives are tried first, then the others, and the last line
    of the function is a fallback. *)
Definition operator_shl (os : string) (rhs : Token) : string :=
  match TryAs_Number rhs with
  | Some v => (os ++ "Number" ++ "{" ++ print_int v ++ "}")%string
  | None =>
  match TryAs_Id rhs with
  | Some v => (os ++ "Id" ++ "{" ++ v ++ "}")%string
  | None =>
  match TryAs_String rhs with
  | Some v => (os ++ "String" ++ "{" ++ v ++ "}")%string
  | None =>
  match TryAs_Char rhs with
  | Some v => (os ++ "Char" ++ "{" ++ String v EmptyString ++ "}")%string
  | None =>
    if Is T_Class rhs then (os ++ "Class")%string
    else if Is T_Return rhs then (os ++ "Return")%string
    else if Is T_If rhs then (os ++ "If")%string
    else if Is T_Else rhs then (os ++ "Else")%string
    else if Is T_Def rhs then (os ++ "Def")%string
    else if Is T_Newline rhs then (os ++ "Newline")%string
    else if Is T_Print rhs then (os ++ "Print")%string
    else if Is T_Indent rhs then (os ++ "Indent")%string
    else if Is T_Dedent rhs then (os ++ "Dedent")%string
    else if Is T_And rhs then (os ++ "And")%string
    else if Is T_Or rhs then (os ++ "Or")%string
    else if Is T_Not rhs then (os ++ "Not")%string
    else if Is T_Eq rhs then (os ++ "Eq")%string
    else if Is T_NotEq rhs then (os ++ "NotEq")%string
    else if Is T_LessOrEq rhs then (os ++ "LessOrEq")%string
    else if Is T_GreaterOrEq rhs then (os ++ "GreaterOrEq")%string
    else if Is T_None rhs then (os ++ "None")%string
    else if Is T_True rhs then (os ++ "True")%string
    else if Is T_False rhs then (os ++ "False")%string
    else if Is T_Eof rhs then (os ++ "Eof")%string
    else (os ++ "Unknown token :(")%string
  end end end end.

(** [LexerError], thrown by the expectation helpers. *)
Inductive LexerError : Type :=
| mk_LexerError (what : string).

(** [Lexer::Expect<T>()]: the current token when it holds [T]. *)
Definition Expect (T : alternative) (l : Lexer) : Token + LexerError :=
  if Is T (current_token_ l) then inl (current_token_ l)
  else inr (mk_LexerError "Not implemented").

(** The template arguments [T] and [value] of [Expect<T>(value)], for the
    four alternatives that have a member [value] and an argument of the type
    of that member. *)
Inductive expected_value : Type :=
| Number_is (value : Z)
| Id_is (value : string)
| Char_is (value : ascii)
| String_is (value : string).

(** [Lexer::Expect<T>(value)]. *)
Definition Expect_value (e : expected_value) (l : Lexer) : unit + LexerError :=
  let holds :=
    match e with
    | Number_is value =>
        Is T_Number (current_token_ l)
        && match As_Number (current_token_ l) with
           | Some v => v =? value
           | None => false
           end
    | Id_is value =>
        Is T_Id (current_token_ l)
        && match As_Id (current_token_ l) with
           | Some v => String.eqb v value
           | None => false
           end
    | Char_is value =>
        Is T_Char (current_token_ l)
        && match As_Char (current_token_ l) with
           | Some v => Ascii.eqb v value
           | None => false
           end
    | String_is value =>
        Is T_String (current_token_ l)
        && match As_String (current_token_ l) with
           | Some v => String.eqb v value
           | None => false
           end
    end in
  if holds then inl tt else inr (mk_LexerError "Not implemented").

(** [Lexer::ExpectNext<T>()] and [Lexer::ExpectNext<T>(value)]: [NextToken],
    then the expectation on the lexer it leaves. *)
Definition ExpectNext (T : alternative) (l : Lexer)
  : outcome (Token + LexerError) * Lexer :=
  match NextToken l with
  | (Ok _, l') => (Ok (Expect T l'), l')
  | (Throw e, l') => (Throw e, l')
  | (Undefined, l') => (Undefined, l')
  | (OutOfFuel, l') => (OutOfFuel, l')
  end.

Definition ExpectNext_value (e : expected_value) (l : Lexer)
  : outcome (unit + LexerError) * Lexer :=
  match NextToken l with
  | (Ok _, l') => (Ok (Expect_value e l'), l')
  | (Throw e', l') => (Throw e', l')
  | (Undefined, l') => (Undefined, l')
  | (OutOfFuel, l') => (OutOfFuel, l')
  end.

(** The token [T{value}] an expectation with a value names. *)
Definition expected_token (e : expected_value) : Token :=
  match e with
  | Number_is v => token_type.Number v
  | Id_is v => token_type.Id v
  | Char_is v => token_type.Char v
  | String_is v => token_type.String v
  end.

(** The longest prefix of [b] whose characters satisfy [f], and the rest. *)
Fixpoint span (f : ascii -> bool) (b : list ascii) : list ascii * list ascii :=
  match b with
  | [] => ([], [])
  | c :: b' =>
      if f c then let (x, y) := span f b' in (c :: x, y)
      else ([], b)
  end.

Definition is_space (c : ascii) : bool := Ascii.eqb c SPACE.

(** Within a line the two indentation counters agree. *)
Definition consistent (l : Lexer) : Prop :=
  start_of_line_ l = false -> current_indent_ l = line_indent_ l.

(** What a call of [ReadNextToken] that returns establishes, given where the
    lexer [l] stood: the flag [start_of_line_] tells whether the stored token
    is structural (it is raised after [Newline], [Indent], [Dedent], [Eof]
    and lowered after any other token); a token that is not structural is
    stored with the two counters equal; from the start of a line no
    [Newline] is stored, and within a line nothing structural but [Newline]. *)
Definition line_discipline (l : Lexer) (r : completion) : Prop :=
  consistent (snd r)
  /\ (fst r = Ok tt ->
      start_of_line_ (snd r) = structural (current_token_ (snd r))
      /\ (structural (current_token_ (snd r)) = false ->
          current_indent_ (snd r) = line_indent_ (snd r))
      /\ (start_of_line_ l = true -> current_token_ (snd r) <> token_type.Newline)
      /\ (start_of_line_ l = false ->
          current_token_ (snd r) = token_type.Newline
          \/ structural (current_token_ (snd r)) = false)).

(** A string without a backslash. *)
Fixpoint backslash_free (s : string) : bool :=
  match s with
  | EmptyString => true
  | String c s' => negb (Ascii.eqb c BACKSLASH) && backslash_free s'
  end.

(** The text between the quotes [q] that stands for the value [v]: the
    quote itself is escaped, every other character stands for itself. *)
Definition encode_literal (q : ascii) (v : string) : list ascii :=
  flat_map (fun c => if Ascii.eqb c q then [BACKSLASH; c] else [c])
    (list_ascii_of_string v).

(** What the lexer stores as a token: a number an [int] holds without a
    sign; an identifier that is a name (name characters, the first one not a
    digit) and not a keyword; a string without a backslash; a character that
    starts none of the other tokens. *)
Definition well_formed (t : Token) : Prop :=
  match t with
  | token_type.Number v => 0 <= v <= util.INT_MAX
  | token_type.Id name =>
      util.find util.KeyWords name = None
      /\ match list_ascii_of_string name with
         | [] => Logic.False
         | c :: r =>
             util.IsAlNumLL c = true /\ util.IsNum c = false
             /\ forallb util.IsAlNumLL r = true
         end
  | token_type.String v => backslash_free v = true
  | token_type.Char c =>
      util.IsNum c = false /\ util.IsAlNumLL c = false
      /\ c <> DQUOTE /\ c <> SQUOTE /\ significant c
  | _ => Logic.True
  end.

(** A measure of the work left to the lexer: three units for each character
    not yet read, two for each [Indent] the line at hand still calls for,
    one for each indentation level open (its [Dedent] is still to come), and
    one for the [Newline] a line under way still owes. *)
Definition eof_ahead (l : Lexer) : bool :=
  char_to_int (int_to_char (fst (peek (input_ l)))) =? EOF.

Definition pending (l : Lexer) : Z :=
  if start_of_line_ l && negb (eof_ahead l)
  then Z.max 0 (line_indent_ l - current_indent_ l)
  else 0.

Definition potential (l : Lexer) : Z :=
  3 * Z.of_nat (remaining l) + 2 * pending l + current_indent_ l
  + (if start_of_line_ l then 0 else 1).

(** The indentation level [ParseSpaces] records for a line that starts with
    [spaces] spaces ([spaces_count / 2]), and the tokens that take the lexer
    from one level to another. *)
Definition line_depth (spaces : nat) : Z := Z.of_nat spaces / 2.

Definition indentation_tokens (from to : Z) : list Token :=
  repeat (if from <? to then token_type.Indent else token_type.Dedent)
    (Z.abs_nat (to - from)).

(** * Properties *)

(** ** The stream operations *)

Lemma int_to_char_to_int_type (c : ascii) : int_to_char (to_int_type c) = c.
Proof.
  unfold int_to_char, to_int_type.
  assert (H : (N_of_ascii c < 256)%N) by apply N_ascii_bounded.
  rewrite Z.mod_small by lia.
  rewrite N2Z.id. apply ascii_N_embedding.
Qed.

Lemma char_to_int_EOF (c : ascii) :
  char_to_int c = EOF <-> c = "255"%char.
Proof.
  split.
  - intros H. rewrite <- (ascii_N_embedding c). unfold char_to_int, to_int_type, EOF in H.
    assert (Hb : (N_of_ascii c < 256)%N) by apply N_ascii_bounded.
    destruct (Z.of_N (N_of_ascii c) <? 128) eqn:E.
    + lia.
    + assert (N_of_ascii c = 255%N) by lia. rewrite H0. reflexivity.
  - intros ->. reflexivity.
Qed.

Lemma good_true (s : istream) :
  good s = true -> s = {| buf := buf s; eofbit := false; failbit := false |}.
Proof.
  destruct s as [b e f]; unfold good; simpl.
  destruct e, f; simpl; congruence.
Qed.

(** [peek] either shows the first character of a good stream, which it
    leaves as it is, or answers [EOF] and leaves a stream that is not good. *)
Lemma peek_spec (s : istream) :
  (exists c b, good s = true /\ buf s = c :: b /\ peek s = (to_int_type c, s))
  \/ (fst (peek s) = EOF /\ good (snd (peek s)) = false /\ buf (snd (peek s)) = buf s
      /\ (good s = true -> buf s = [])).
Proof.
  unfold peek. destruct (good s) eqn:G.
  - destruct (buf s) as [|c b] eqn:B.
    + right. simpl. rewrite B. repeat split; auto.
    + left. exists c, b. auto.
  - right. simpl. repeat split; auto; try congruence.
    unfold good in *. simpl. rewrite andb_false_r. reflexivity.
Qed.

Lemma get_spec (s : istream) :
  (exists c b, good s = true /\ buf s = c :: b /\ get s = (Some c, set_buf s b))
  \/ (fst (get s) = None /\ good (snd (get s)) = false /\ buf (snd (get s)) = buf s
      /\ (good s = true -> buf s = [])).
Proof.
  unfold get. destruct (good s) eqn:G.
  - destruct (buf s) as [|c b] eqn:B.
    + right. simpl. rewrite B. repeat split; auto.
    + left. exists c, b. auto.
  - right. simpl. repeat split; auto; try congruence.
    unfold good in *. simpl. rewrite andb_false_r. reflexivity.
Qed.

Lemma get_good (c : ascii) (b : list ascii) :
  get (mk_istream (c :: b) false false) = (Some c, mk_istream b false false).
Proof. reflexivity. Qed.

Lemma get_end : get (mk_istream [] false false) = (None, mk_istream [] true true).
Proof. reflexivity. Qed.

Lemma putback_good (c : ascii) (b : list ascii) :
  putback c (mk_istream b false false) = mk_istream (c :: b) false false.
Proof. reflexivity. Qed.

Lemma good_stream (s : istream) : good s = true -> s = stream (buf s).
Proof. apply good_true. Qed.

Lemma skip_spaces_length (b : list ascii) :
  (List.length (skip_spaces b) <= List.length b)%nat.
Proof.
  induction b as [|c b IH]; simpl; [lia|].
  destruct (Ascii.eqb c SPACE); simpl; lia.
Qed.

Lemma skip_to_LF_length (b : list ascii) :
  (List.length (skip_to_LF b) <= List.length b)%nat.
Proof.
  induction b as [|c b IH]; simpl; [lia|].
  destruct (Ascii.eqb c LF); simpl; lia.
Qed.

Lemma stream_after_length (b : list ascii) :
  List.length (buf (stream_after b)) = List.length b.
Proof. destruct b; reflexivity. Qed.

Lemma CountSpaces_loop_stream (b : list ascii) :
  forall (n : nat) (acc : Z), (List.length b < n)%nat ->
  snd (util.CountSpaces_loop n acc (stream b)) = stream_after (skip_spaces b).
Proof.
  induction b as [|c b IH]; intros n acc Hn.
  - destruct n; [simpl in Hn; lia|]. reflexivity.
  - destruct n; [simpl in Hn; lia|]. simpl in Hn.
    cbn [util.CountSpaces_loop]. unfold stream. rewrite get_good.
    cbn [skip_spaces]. destruct (Ascii.eqb c SPACE).
    + apply IH. lia.
    + reflexivity.
Qed.

Lemma ParseComment_loop_stream (b : list ascii) :
  forall (n : nat), (List.length b < n)%nat ->
  ParseComment_loop n (stream b) = stream_after (skip_to_LF b).
Proof.
  induction b as [|c b IH]; intros n Hn.
  - destruct n; [simpl in Hn; lia|]. reflexivity.
  - destruct n; [simpl in Hn; lia|]. simpl in Hn.
    cbn [ParseComment_loop]. unfold stream. rewrite get_good.
    cbn [skip_to_LF]. destruct (Ascii.eqb c LF).
    + reflexivity.
    + apply IH. lia.
Qed.

Lemma split_line_length (b : list ascii) :
  forall (s : string),
  (List.length (snd (fst (split_line b s))) <= List.length b)%nat
  /\ (b <> [] -> List.length (snd (fst (split_line b s))) < List.length b)%nat.
Proof.
  induction b as [|c b IH]; intros s; simpl.
  - split; [lia | congruence].
  - destruct (Ascii.eqb c LF); simpl.
    + split; intros; lia.
    + destruct (IH (push_back s c)) as [H1 _]. split; intros; lia.
Qed.

Lemma getline_length (b : list ascii) :
  b <> [] ->
  (List.length (buf (snd (getline (stream b)))) < List.length b)%nat.
Proof.
  intros Hb. unfold getline. simpl.
  destruct b as [|c b]; [congruence|].
  pose proof (split_line_length (c :: b) EmptyString) as [_ H].
  specialize (H Hb).
  destruct (split_line (c :: b) EmptyString) as [[line r] found].
  simpl in H. destruct found; simpl; exact H.
Qed.

Lemma getline_LF (b : list ascii) :
  getline (stream (LF :: b)) = (EmptyString, stream b).
Proof. reflexivity. Qed.

(** ** Termination of [ReadNextToken] *)

Lemma with_input_same (l : Lexer) : with_input l (input_ l) = l.
Proof. destruct l; reflexivity. Qed.

Lemma NextLine_remaining (l : Lexer) :
  good (input_ l) = true -> buf (input_ l) <> [] ->
  (remaining (NextLine l) < remaining l)%nat.
Proof.
  intros G B. unfold NextLine, util.ReadLine, remaining.
  rewrite (good_stream _ G).
  pose proof (getline_length (buf (input_ l)) B) as H.
  destruct (getline (stream (buf (input_ l)))) as [line i]. exact H.
Qed.

Lemma ParseComment_remaining (l : Lexer) (c : ascii) (b : list ascii) :
  good (input_ l) = true -> buf (input_ l) = c :: b -> c <> LF ->
  (remaining (with_input l (ParseComment_loop (S (remaining l)) (input_ l)))
   < remaining l)%nat.
Proof.
  intros G B Hc. unfold remaining. cbn [with_input input_].
  rewrite (good_stream _ G), B. cbn [buf stream].
  rewrite ParseComment_loop_stream by (simpl; lia).
  rewrite stream_after_length. simpl.
  destruct (Ascii.eqb_spec c LF) as [E|E]; [contradiction|].
  pose proof (skip_to_LF_length b). simpl. lia.
Qed.

Lemma CountSpaces_remaining (l : Lexer) (b : list ascii) :
  good (input_ l) = true -> buf (input_ l) = SPACE :: b ->
  (List.length (buf (snd (util.CountSpaces (input_ l)))) < remaining l)%nat.
Proof.
  intros G B. unfold util.CountSpaces, remaining.
  rewrite (good_stream _ G), B. cbn [buf stream].
  rewrite CountSpaces_loop_stream by (simpl; lia).
  rewrite stream_after_length. simpl.
  pose proof (skip_spaces_length b). lia.
Qed.

(** The body only calls [self] on a lexer with less text left to read. *)
Lemma ReadNextToken_body_ext (self1 self2 : Lexer -> completion) (l : Lexer) :
  (forall l', (remaining l' < remaining l)%nat -> self1 l' = self2 l') ->
  ReadNextToken_body self1 l = ReadNextToken_body self2 l.
Proof.
  intros Hself. unfold ReadNextToken_body.
  destruct (peek_spec (input_ l)) as [(c & b & G & B & P) | (P & _)].
  - rewrite P, with_input_same, int_to_char_to_int_type.
    destruct (char_to_int c =? EOF); [reflexivity|].
    destruct (Ascii.eqb_spec c LF) as [->|HLF].
    { unfold ParseLineEnd. destruct (start_of_line_ l); [|reflexivity].
      apply Hself, NextLine_remaining; [assumption | congruence]. }
    destruct (Ascii.eqb_spec c HASH) as [->|HH].
    { unfold ParseComment. apply Hself.
      apply (ParseComment_remaining l HASH b); auto. }
    destruct (Ascii.eqb_spec c SPACE) as [->|HS]; [|reflexivity].
    unfold ParseSpaces.
    pose proof (CountSpaces_remaining l b G B) as Hlen.
    destruct (util.CountSpaces (input_ l)) as [n i]. simpl in Hlen.
    apply Hself. unfold remaining at 1.
    destruct (start_of_line_ (with_input l i)); exact Hlen.
  - destruct (peek (input_ l)) as [p i]. simpl in P. subst p. reflexivity.
Qed.

Lemma ReadNextToken_fuel_enough :
  forall (n m : nat) (l : Lexer),
  (remaining l < n)%nat -> (remaining l < m)%nat ->
  ReadNextToken_fuel n l = ReadNextToken_fuel m l.
Proof.
  induction n as [|n IH]; intros m l Hn Hm; [lia|].
  destruct m as [|m]; [lia|]. simpl.
  apply ReadNextToken_body_ext. intros l' Hl'. apply IH; lia.
Qed.

(** The equation of the method, as the source reads. *)
Lemma ReadNextToken_eq (l : Lexer) :
  ReadNextToken l = ReadNextToken_body ReadNextToken l.
Proof.
  unfold ReadNextToken at 1. simpl.
  apply ReadNextToken_body_ext. intros l' Hl'.
  apply ReadNextToken_fuel_enough; unfold remaining in *; lia.
Qed.

(** The bound of each reading loop is never the reason it stops: any bound
    above the length of the text left gives the same result. *)
Lemma ReadName_loop_fuel :
  forall (n m : nat) (s : istream) (line : string),
  (List.length (buf s) < n)%nat -> (List.length (buf s) < m)%nat ->
  util.ReadName_loop n line s = util.ReadName_loop m line s.
Proof.
  induction n as [|n IH]; intros m s line Hn Hm; [lia|].
  destruct m as [|m]; [lia|]. cbn [util.ReadName_loop].
  destruct (get_spec s) as [(c & b & G & B & E) | (E & _)].
  - rewrite E. destruct (util.IsAlNumLL c); [|reflexivity].
    rewrite B in Hn, Hm. simpl in Hn, Hm. apply IH; simpl; lia.
  - destruct (get s) as [o i]. simpl in E. subst o. reflexivity.
Qed.

Lemma ReadNumber_loop_fuel :
  forall (n m : nat) (s : istream) (num : string),
  (List.length (buf s) < n)%nat -> (List.length (buf s) < m)%nat ->
  util.ReadNumber_loop n num s = util.ReadNumber_loop m num s.
Proof.
  induction n as [|n IH]; intros m s num Hn Hm; [lia|].
  destruct m as [|m]; [lia|]. cbn [util.ReadNumber_loop].
  destruct (get_spec s) as [(c & b & G & B & E) | (E & _)].
  - rewrite E. destruct (util.IsNum c); [|reflexivity].
    rewrite B in Hn, Hm. simpl in Hn, Hm. apply IH; simpl; lia.
  - destruct (get s) as [o i]. simpl in E. subst o. reflexivity.
Qed.

Lemma CountSpaces_loop_fuel :
  forall (n m : nat) (s : istream) (result : Z),
  (List.length (buf s) < n)%nat -> (List.length (buf s) < m)%nat ->
  util.CountSpaces_loop n result s = util.CountSpaces_loop m result s.
Proof.
  induction n as [|n IH]; intros m s result Hn Hm; [lia|].
  destruct m as [|m]; [lia|]. cbn [util.CountSpaces_loop].
  destruct (get_spec s) as [(c & b & G & B & E) | (E & _)].
  - rewrite E. destruct (Ascii.eqb c SPACE); [|reflexivity].
    rewrite B in Hn, Hm. simpl in Hn, Hm. apply IH; simpl; lia.
  - destruct (get s) as [o i]. simpl in E. subst o. reflexivity.
Qed.

Lemma ParseComment_loop_fuel :
  forall (n m : nat) (s : istream),
  (List.length (buf s) < n)%nat -> (List.length (buf s) < m)%nat ->
  ParseComment_loop n s = ParseComment_loop m s.
Proof.
  induction n as [|n IH]; intros m s Hn Hm; [lia|].
  destruct m as [|m]; [lia|]. cbn [ParseComment_loop].
  destruct (get_spec s) as [(c & b & G & B & E) | (E & _)].
  - rewrite E. destruct (Ascii.eqb c LF); [reflexivity|].
    rewrite B in Hn, Hm. simpl in Hn, Hm. apply IH; simpl; lia.
  - destruct (get s) as [o i]. simpl in E. subst o. reflexivity.
Qed.

Lemma ReadString_loop_fuel_enough :
  forall (n m : nat) (s : istream) (first : ascii) (c : option ascii) (line : string),
  (List.length (buf s) < n)%nat -> (List.length (buf s) < m)%nat ->
  util.ReadString_loop n first c line s = util.ReadString_loop m first c line s.
Proof.
  induction n as [|n IH]; intros m s first c line Hn Hm; [lia|].
  destruct m as [|m]; [lia|]. cbn [util.ReadString_loop].
  destruct (get_spec s) as [(c1 & b1 & G1 & B1 & E1) | (E1 & _)].
  - rewrite E1. rewrite B1 in Hn, Hm. simpl in Hn, Hm.
    destruct (Ascii.eqb c1 BACKSLASH).
    + destruct (get_spec (set_buf s b1)) as [(c2 & b2 & G2 & B2 & E2) | (E2 & _)].
      * rewrite E2. simpl in B2. subst b1. simpl in Hn, Hm. apply IH; simpl; lia.
      * destruct (get (set_buf s b1)) as [o i]. simpl in E2. subst o. reflexivity.
    + destruct (Ascii.eqb c1 first); [reflexivity|]. apply IH; simpl; lia.
  - destruct (get s) as [o i]. simpl in E1. subst o. reflexivity.
Qed.

(** ** Tokens of [ParseToken] *)

Lemma find_In (table : list (string * Token)) (key : string) (t : Token) :
  util.find table key = Some t -> In t (map snd table).
Proof.
  induction table as [|[k v] table IH]; simpl; [discriminate|].
  destruct (String.eqb k key); [intros [= ->]; auto | auto].
Qed.

Lemma KeyWords_not_structural (name : string) (t : Token) :
  util.find util.KeyWords name = Some t -> structural t = false.
Proof.
  intros H. apply find_In in H. simpl in H.
  repeat (destruct H as [<-|H]; [reflexivity|]). contradiction.
Qed.

Lemma DualSymbols_not_structural (pair : string) (t : Token) :
  util.find util.DualSymbols pair = Some t -> structural t = false.
Proof.
  intros H. apply find_In in H. simpl in H.
  repeat (destruct H as [<-|H]; [reflexivity|]). contradiction.
Qed.

Lemma ReadString_loop_fuel :
  forall (n : nat) (s : istream) (first : ascii) (c : option ascii) (line : string),
  (List.length (buf s) < n)%nat ->
  fst (util.ReadString_loop n first c line s) <> OutOfFuel.
Proof.
  induction n as [|n IH]; intros s first c line Hn; [lia|].
  cbn [util.ReadString_loop].
  destruct (get_spec s) as [(c1 & b1 & G1 & B1 & E1) | (E1 & _)].
  - rewrite E1. destruct (Ascii.eqb c1 BACKSLASH).
    + destruct (get_spec (set_buf s b1)) as [(c2 & b2 & G2 & B2 & E2) | (E2 & _)].
      * rewrite E2. apply IH. simpl in *. rewrite B1, B2 in Hn. simpl in Hn. lia.
      * destruct (get (set_buf s b1)) as [o i]. simpl in E2. subst o. simpl. discriminate.
    + destruct (Ascii.eqb c1 first); [simpl; discriminate|].
      apply IH. simpl. rewrite B1 in Hn. simpl in Hn. lia.
  - destruct (get s) as [o i]. simpl in E1. subst o. simpl. discriminate.
Qed.

Lemma ReadString_fuel (s : istream) : fst (util.ReadString s) <> OutOfFuel.
Proof.
  unfold util.ReadString. destruct (get_int s) as [i s1].
  pose proof (ReadString_loop_fuel (S (List.length (buf s1))) s1 (int_to_char i)
                None EmptyString (Nat.lt_succ_diag_r _)) as H.
  destruct (util.ReadString_loop _ _ _ _ _) as [[[[c|] line]|e| |] s2];
    simpl in *; try discriminate; try congruence.
  destruct (negb _); simpl; discriminate.
Qed.

Lemma ReadNumber_fuel (s : istream) : fst (util.ReadNumber s) <> OutOfFuel.
Proof.
  unfold util.ReadNumber.
  destruct (util.ReadNumber_loop _ _ _) as [num s1].
  destruct num; simpl; [discriminate|].
  unfold util.stoi. destruct (_ <=? _); discriminate.
Qed.

(** [ParseToken] leaves the indentation fields alone, stores a token that is
    not structural when it returns, and always ends. *)
Lemma ParseToken_spec (l : Lexer) :
  start_of_line_ (snd (ParseToken l)) = start_of_line_ l
  /\ current_indent_ (snd (ParseToken l)) = current_indent_ l
  /\ line_indent_ (snd (ParseToken l)) = line_indent_ l
  /\ fst (ParseToken l) <> OutOfFuel
  /\ (fst (ParseToken l) = Ok tt -> structural (current_token_ (snd (ParseToken l))) = false)
  /\ (fst (ParseToken l) <> Ok tt -> current_token_ (snd (ParseToken l)) = current_token_ l).
Proof.
  unfold ParseToken. destruct (peek (input_ l)) as [p i]. cbn [with_input input_].
  destruct (util.IsNum (int_to_char p)).
  { pose proof (ReadNumber_fuel i) as H.
    destruct (util.ReadNumber i) as [[n|e| |] i']; simpl in *;
      repeat split; try congruence; try discriminate. }
  destruct (util.IsAlNumLL (int_to_char p)).
  { unfold ParseName. cbn [with_input input_].
    destruct (util.ReadName i) as [name i'].
    destruct (util.find util.KeyWords name) as [t|] eqn:F; simpl;
      repeat split; try congruence; try discriminate.
    intros _. eapply KeyWords_not_structural; eassumption. }
  destruct (Ascii.eqb (int_to_char p) DQUOTE || Ascii.eqb (int_to_char p) SQUOTE).
  { pose proof (ReadString_fuel i) as H.
    destruct (util.ReadString i) as [[n|e| |] i']; simpl in *;
      repeat split; try congruence; try discriminate. }
  unfold ParseChar. cbn [with_input input_].
  destruct (get_int i) as [g i1]. destruct (peek i1) as [p2 i2].
  destruct (util.find util.DualSymbols _) as [t|] eqn:F.
  - destruct (get_int i2) as [g3 i3]. simpl.
    repeat split; try congruence; try discriminate.
    intros _. eapply DualSymbols_not_structural; eassumption.
  - simpl. repeat split; try congruence; try discriminate.
Qed.

(** ** An induction principle that follows the dispatch of [ReadNextToken] *)

Lemma ParseSpaces_eq (self : Lexer -> completion) (l : Lexer) :
  ParseSpaces self l = self (spaces_skipped l).
Proof.
  unfold ParseSpaces, spaces_skipped.
  destruct (util.CountSpaces (input_ l)) as [n i]. reflexivity.
Qed.

Lemma spaces_skipped_remaining (l : Lexer) (b : list ascii) :
  good (input_ l) = true -> buf (input_ l) = SPACE :: b ->
  (remaining (spaces_skipped l) < remaining l)%nat.
Proof.
  intros G B. pose proof (CountSpaces_remaining l b G B) as H.
  unfold spaces_skipped. destruct (util.CountSpaces (input_ l)) as [n i].
  simpl in H. destruct (start_of_line_ (with_input l i)); exact H.
Qed.

Section Dispatch.

Variable P : Lexer -> completion -> Prop.

Hypothesis H_eof : forall l,
  char_to_int (int_to_char (fst (peek (input_ l)))) = EOF ->
  P l (Ok tt, ParseEOF (with_input l (snd (peek (input_ l))))).

Hypothesis H_blank_line : forall l b,
  good (input_ l) = true -> buf (input_ l) = LF :: b -> start_of_line_ l = true ->
  P (NextLine l) (ReadNextToken (NextLine l)) ->
  P l (ReadNextToken (NextLine l)).

Hypothesis H_line_end : forall l b,
  good (input_ l) = true -> buf (input_ l) = LF :: b -> start_of_line_ l = false ->
  P l (Ok tt, with_current_token (NextLine l) token_type.Newline).

Hypothesis H_comment : forall l b,
  good (input_ l) = true -> buf (input_ l) = HASH :: b ->
  P (comment_skipped l) (ReadNextToken (comment_skipped l)) ->
  P l (ReadNextToken (comment_skipped l)).

Hypothesis H_spaces : forall l b,
  good (input_ l) = true -> buf (input_ l) = SPACE :: b ->
  P (spaces_skipped l) (ReadNextToken (spaces_skipped l)) ->
  P l (ReadNextToken (spaces_skipped l)).

Hypothesis H_indent : forall l c b,
  good (input_ l) = true -> buf (input_ l) = c :: b -> significant c ->
  start_of_line_ l = true -> current_indent_ l <> line_indent_ l ->
  P l (Ok tt, ParseIndent l).

Hypothesis H_token : forall l c b,
  good (input_ l) = true -> buf (input_ l) = c :: b -> significant c ->
  start_of_line_ l = false \/ current_indent_ l = line_indent_ l ->
  P l (match ParseToken l with
       | (Ok tt, l') => (Ok tt, with_start_of_line l' false)
       | r => r
       end).

Lemma ReadNextToken_ind : forall l, P l (ReadNextToken l).
Proof.
  intros l. remember (remaining l) as n eqn:Hn. revert l Hn.
  induction n as [n IH] using lt_wf_ind. intros l Hn.
  rewrite ReadNextToken_eq. unfold ReadNextToken_body.
  destruct (peek_spec (input_ l)) as [(c & b & G & B & E) | (E & _)].
  - rewrite E, with_input_same, int_to_char_to_int_type.
    destruct (Z.eqb_spec (char_to_int c) EOF) as [HE|HE].
    { specialize (H_eof l). rewrite E in H_eof. cbn [fst snd] in H_eof.
      rewrite int_to_char_to_int_type, with_input_same in H_eof. auto. }
    destruct (Ascii.eqb_spec c LF) as [->|HLF].
    { unfold ParseLineEnd. destruct (start_of_line_ l) eqn:S.
      - apply (H_blank_line l b G B S).
        apply (IH (remaining (NextLine l))); [|reflexivity].
        subst n. apply NextLine_remaining; [assumption | congruence].
      - apply (H_line_end l b G B S). }
    destruct (Ascii.eqb_spec c HASH) as [->|HH].
    { unfold ParseComment. apply (H_comment l b G B).
      apply (IH (remaining (comment_skipped l))); [|reflexivity].
      subst n. apply (ParseComment_remaining l HASH b); auto. }
    destruct (Ascii.eqb_spec c SPACE) as [->|HS].
    { rewrite ParseSpaces_eq. apply (H_spaces l b G B).
      apply (IH (remaining (spaces_skipped l))); [|reflexivity].
      subst n. apply (spaces_skipped_remaining l b G B). }
    assert (Sig : significant c) by (unfold significant; auto).
    destruct (start_of_line_ l) eqn:S; cbn [andb].
    + destruct (Z.eqb_spec (current_indent_ l) (line_indent_ l)) as [Q|Q]; cbn [negb].
      * apply (H_token l c b G B Sig). auto.
      * apply (H_indent l c b G B Sig S Q).
    + apply (H_token l c b G B Sig). auto.
  - specialize (H_eof l). destruct (peek (input_ l)) as [p i].
    cbn [fst snd] in *. subst p. apply H_eof. reflexivity.
Qed.

End Dispatch.

(** [ReadNextToken] always ends. *)
Lemma ReadNextToken_total (l : Lexer) : fst (ReadNextToken l) <> OutOfFuel.
Proof.
  apply (ReadNextToken_ind (fun _ r => fst r <> OutOfFuel)); clear l;
    intros; simpl; try discriminate; try assumption.
  pose proof (ParseToken_spec l) as (_ & _ & _ & Hfuel & _).
  destruct (ParseToken l) as [[[]|e| |] l']; simpl in *; congruence.
Qed.

(** ** Indentation bookkeeping *)

Lemma uint32_max_pos : 0 < uint32_max.
Proof. reflexivity. Qed.

Lemma NextLine_fields (l : Lexer) :
  start_of_line_ (NextLine l) = true /\ line_indent_ (NextLine l) = 0
  /\ current_indent_ (NextLine l) = current_indent_ l
  /\ current_token_ (NextLine l) = current_token_ l.
Proof.
  unfold NextLine. destruct (util.ReadLine (input_ l)) as [s i]. simpl. auto.
Qed.

Lemma spaces_skipped_fields (l : Lexer) :
  start_of_line_ (spaces_skipped l) = start_of_line_ l
  /\ current_indent_ (spaces_skipped l) = current_indent_ l
  /\ current_token_ (spaces_skipped l) = current_token_ l
  /\ (line_indent_ (spaces_skipped l) = line_indent_ l
      \/ 0 <= line_indent_ (spaces_skipped l) < uint32_max).
Proof.
  unfold spaces_skipped. destruct (util.CountSpaces (input_ l)) as [n i].
  cbn [with_input start_of_line_]. destruct (start_of_line_ l) eqn:S; simpl.
  - split; [exact S|]. split; [reflexivity|]. split; [reflexivity|].
    right. apply Z.mod_pos_bound, uint32_max_pos.
  - auto.
Qed.

Lemma ReadNextToken_indent_effect (l : Lexer) :
  uint32_fields l -> indent_effect l (ReadNextToken l).
Proof.
  apply (ReadNextToken_ind (fun l r => uint32_fields l -> indent_effect l r)); clear l.
  - (* end of input *)
    intros l _ [Hc Hl]. unfold indent_effect, uint32_fields, ParseEOF.
    cbn [fst snd with_input start_of_line_ current_indent_].
    destruct (start_of_line_ l); cbn [negb].
    + destruct (Z.ltb_spec 0 (current_indent_ l)); simpl.
      * rewrite Z.mod_small by lia. repeat split; lia.
      * repeat split; lia.
    + pose proof (NextLine_fields (with_input l (snd (peek (input_ l))))) as (_ & L & C & _).
      simpl in *. rewrite L, C. repeat split; lia.
  - (* blank line *)
    intros l b _ _ _ IH F.
    pose proof (NextLine_fields l) as (_ & L & C & _).
    unfold indent_effect in *. rewrite <- C. apply IH.
    unfold uint32_fields in *. rewrite L, C. pose proof uint32_max_pos. lia.
  - (* line end *)
    intros l b _ _ _ [Hc Hl].
    pose proof (NextLine_fields l) as (_ & L & C & _).
    unfold indent_effect, uint32_fields. simpl. rewrite L, C.
    pose proof uint32_max_pos. repeat split; lia.
  - (* comment *)
    intros l b _ _ IH F. apply IH. exact F.
  - (* spaces *)
    intros l b _ _ IH [Hc Hl].
    pose proof (spaces_skipped_fields l) as (_ & C & _ & L).
    unfold indent_effect in *. rewrite <- C. apply IH.
    unfold uint32_fields. rewrite C. split; [assumption|]. destruct L as [->|L]; assumption.
  - (* pending indentation *)
    intros l c b _ _ _ _ Q [Hc Hl]. unfold indent_effect, uint32_fields, ParseIndent.
    cbn [fst snd].
    destruct (Z.ltb_spec (current_indent_ l) (line_indent_ l)); simpl.
    + rewrite Z.mod_small by lia. repeat split; lia.
    + destruct (Z.ltb_spec (line_indent_ l) (current_indent_ l)); simpl; [|lia].
      rewrite Z.mod_small by lia. repeat split; lia.
  - (* a significant token *)
    intros l c b _ _ _ _ [Hc Hl].
    pose proof (ParseToken_spec l) as (_ & C & L & _ & T & _).
    unfold indent_effect, uint32_fields.
    destruct (ParseToken l) as [[[]|e| |] l']; simpl in *; rewrite ?C, ?L;
      try (repeat split; lia).
    specialize (T eq_refl).
    destruct (current_token_ l'); simpl in T; try discriminate; repeat split; lia.
Qed.

Lemma tokens_from_prefix (pre : list Token) :
  forall (n : nat) (l : Lexer) (t : Token) (post : list Token),
  uint32_fields l ->
  tokens_from n l = pre ++ t :: post ->
  exists l1 l2,
    uint32_fields l1
    /\ current_indent_ l1 =
         current_indent_ l + Z.of_nat (count_token token_type.Indent pre)
         - Z.of_nat (count_token token_type.Dedent pre)
    /\ ReadNextToken l1 = (Ok tt, l2) /\ current_token_ l2 = t.
Proof.
  induction pre as [|t0 pre IH]; intros n l t post F H.
  - destruct n; [discriminate|]. simpl in H.
    destruct (ReadNextToken l) as [[[]|e| |] l'] eqn:E; try discriminate.
    injection H as Ht _. exists l, l'. unfold count_token. simpl.
    repeat split; auto; try apply F. lia.
  - destruct n; [discriminate|]. simpl in H.
    pose proof (ReadNextToken_indent_effect l F) as [F' Eff].
    destruct (ReadNextToken l) as [[[]|e| |] l'] eqn:E; try discriminate.
    injection H as Ht H. cbn [fst snd] in *.
    destruct (IH n l' t post F' H) as (l1 & l2 & F1 & C1 & R & T).
    exists l1, l2. repeat split; auto; try apply F1.
    rewrite C1. unfold count_token. subst t0.
    destruct (current_token_ l'); simpl; lia.
Qed.

Lemma Lexer_members_fields (input : istream) : uint32_fields (Lexer_members input).
Proof. unfold uint32_fields; simpl. pose proof uint32_max_pos. lia. Qed.

(** C1. For every input, as many [Indent] as [Dedent] tokens are produced
    before an [Eof] token (the first one in particular); a call that stores
    [Indent] raises [current_indent_] by exactly 1, a call that stores
    [Dedent] lowers it by exactly 1, every other call (one that throws
    included) leaves it as it is; and a call stores [Eof] only when
    [current_indent_] is 0. *)
Theorem indent_dedent_balance :
  (forall (text : string) (n : nat) (pre post : list Token),
      tokens n text = pre ++ token_type.Eof :: post ->
      count_token token_type.Indent pre = count_token token_type.Dedent pre)
  /\
  (forall (l l' : Lexer) (r : outcome unit),
      uint32_fields l ->
      ReadNextToken l = (r, l') ->
      uint32_fields l' /\
      match r with
      | Ok _ =>
          match current_token_ l' with
          | token_type.Indent => current_indent_ l' = current_indent_ l + 1
          | token_type.Dedent => current_indent_ l' = current_indent_ l - 1
          | token_type.Eof =>
              current_indent_ l' = current_indent_ l /\ current_indent_ l' = 0
          | _ => current_indent_ l' = current_indent_ l
          end
      | _ => current_indent_ l' = current_indent_ l
      end).
Proof.
  split.
  - intros text n pre post H.
    destruct (tokens_from_prefix pre n _ _ post (Lexer_members_fields _) H)
      as (l1 & l2 & F1 & C1 & R & T).
    pose proof (ReadNextToken_indent_effect l1 F1) as [_ Eff].
    rewrite R in Eff. cbn [fst snd] in Eff. rewrite T in Eff.
    simpl in C1. lia.
  - intros l l' r F R.
    pose proof (ReadNextToken_indent_effect l F) as Eff.
    rewrite R in Eff. exact Eff.
Qed.

Lemma indent_dedent_balance_witness :
  count_token token_type.Indent
    [token_type.If; token_type.Id "x"; token_type.Char ":"; token_type.Newline;
     token_type.Indent; token_type.Return; token_type.Id "x"; token_type.Newline;
     token_type.Dedent]
  = count_token token_type.Dedent
    [token_type.If; token_type.Id "x"; token_type.Char ":"; token_type.Newline;
     token_type.Indent; token_type.Return; token_type.Id "x"; token_type.Newline;
     token_type.Dedent]
  /\ current_indent_ (snd (ReadNextToken (Lexer_members (istringstream "x")))) = 0.
Proof.
  split.
  - apply (proj1 indent_dedent_balance
             ("if x:" ++ nl ++ "  return x" ++ nl)%string 10%nat _ []).
    vm_compute. reflexivity.
  - destruct (proj2 indent_dedent_balance (Lexer_members (istringstream "x"))
                (snd (ReadNextToken (Lexer_members (istringstream "x"))))
                (fst (ReadNextToken (Lexer_members (istringstream "x"))))) as [_ H].
    + unfold uint32_fields, uint32_max. simpl. lia.
    + vm_compute. reflexivity.
    + vm_compute in H. vm_compute. exact H.
Defined.

(** ** The end of the token stream *)

Lemma peek_again (s : istream) :
  char_to_int (int_to_char (fst (peek s))) = EOF ->
  char_to_int (int_to_char (fst (peek (snd (peek s))))) = EOF.
Proof.
  intros H. destruct (peek_spec s) as [(c & b & G & B & E) | (E & G & _)].
  - rewrite E in *. cbn [snd]. rewrite E. exact H.
  - unfold peek at 1. rewrite G. reflexivity.
Qed.

Lemma ReadNextToken_at_eof (l : Lexer) :
  at_eof l ->
  ReadNextToken l
  = (Ok tt, with_current_token (with_input l (snd (peek (input_ l)))) token_type.Eof)
  /\ at_eof (with_current_token (with_input l (snd (peek (input_ l)))) token_type.Eof).
Proof.
  intros (S & C & E). split.
  - rewrite ReadNextToken_eq. unfold ReadNextToken_body.
    destruct (peek (input_ l)) as [p i]. cbn [fst snd] in *.
    rewrite E. cbn [Z.eqb EOF Pos.eqb]. unfold ParseEOF.
    cbn [with_input start_of_line_ current_indent_]. rewrite S, C. reflexivity.
  - unfold at_eof. cbn [with_current_token with_input start_of_line_ current_indent_ input_].
    auto using peek_again.
Qed.

Lemma Eof_only_at_eof (l : Lexer) :
  fst (ReadNextToken l) = Ok tt ->
  current_token_ (snd (ReadNextToken l)) = token_type.Eof ->
  at_eof (snd (ReadNextToken l)).
Proof.
  apply (ReadNextToken_ind (fun l r =>
           fst r = Ok tt -> current_token_ (snd r) = token_type.Eof -> at_eof (snd r)));
    clear l.
  - intros l E _. unfold ParseEOF. cbn [fst snd with_input start_of_line_ current_indent_].
    destruct (start_of_line_ l) eqn:S; cbn [negb]; [|discriminate].
    destruct (0 <? current_indent_ l) eqn:C; [discriminate|]. intros _.
    unfold at_eof. cbn. auto using peek_again.
  - auto.
  - intros l b _ _ _ _. discriminate.
  - auto.
  - auto.
  - intros l c b _ _ _ _ Q _. unfold ParseIndent. cbn [snd].
    destruct (Z.ltb_spec (current_indent_ l) (line_indent_ l)); [discriminate|].
    destruct (Z.ltb_spec (line_indent_ l) (current_indent_ l)); [discriminate|]. lia.
  - intros l c b _ _ _ _.
    pose proof (ParseToken_spec l) as (_ & _ & _ & _ & T & _).
    destruct (ParseToken l) as [[[]|e| |] l']; cbn [fst snd] in *; try discriminate.
    intros _ Q. cbn in Q. rewrite Q in T. specialize (T eq_refl). discriminate.
Qed.

Lemma at_eof_forever (n : nat) :
  forall l, at_eof l -> current_token_ l = token_type.Eof ->
  (exists l', NextToken_times n l = Ok l' /\ at_eof l' /\ current_token_ l' = token_type.Eof)
  /\ tokens_from n l = repeat token_type.Eof n.
Proof.
  induction n as [|n IH]; intros l A T.
  - split; [exists l; auto | reflexivity].
  - destruct (ReadNextToken_at_eof l A) as [R A'].
    destruct (IH _ A' eq_refl) as [(l' & N & A'' & T') K].
    split.
    + exists l'. cbn [NextToken_times]. unfold NextToken. rewrite R. auto.
    + cbn [tokens_from repeat]. rewrite R. cbn. f_equal. exact K.
Qed.

(** C7. Once a call of [ReadNextToken] (made by the constructor or by
    [NextToken]) has stored [Eof], every later call of [NextToken] returns
    [Eof] and [CurrentToken] stays [Eof], however many calls are made. *)
Theorem Eof_is_terminal :
  forall (l l' : Lexer),
  ReadNextToken l = (Ok tt, l') ->
  CurrentToken l' = token_type.Eof ->
  forall n : nat,
  exists l'',
    NextToken_times n l' = Ok l''
    /\ CurrentToken l'' = token_type.Eof
    /\ fst (NextToken l'') = Ok token_type.Eof.
Proof.
  intros l l' R T n. unfold CurrentToken in *.
  assert (A : at_eof l').
  { pose proof (Eof_only_at_eof l) as H. rewrite R in H. apply H; auto. }
  destruct (at_eof_forever n l' A T) as [(l'' & N & A'' & T'') _].
  exists l''. repeat split; auto.
  unfold NextToken. destruct (ReadNextToken_at_eof l'' A'') as [-> _]. reflexivity.
Qed.

Lemma Eof_is_terminal_witness :
  exists l'',
    NextToken_times 3 (snd (ReadNextToken (Lexer_members (istringstream "x")))) = Ok l''
    /\ CurrentToken l'' = token_type.Eof
    /\ fst (NextToken l'') = Ok token_type.Eof.
Proof.
  destruct (Eof_is_terminal
           (snd (NextToken (snd (ReadNextToken (Lexer_members (istringstream "x"))))))
           (snd (NextToken (snd (NextToken
              (snd (ReadNextToken (Lexer_members (istringstream "x"))))))))
           eq_refl eq_refl 1%nat) as (l'' & H1 & H2 & H3).
  exists l''. repeat split; assumption.
Defined.

(** ** Blank material *)

Lemma blank_skip_spaces (b : list ascii) :
  blank_from false b = true -> blank_from false (skip_spaces b) = true.
Proof.
  induction b as [|c b IH]; simpl; [reflexivity|].
  destruct (Ascii.eqb_spec c SPACE) as [->|HS].
  - simpl. exact IH.
  - intros H. simpl. destruct (Ascii.eqb c LF); [assumption|].
    destruct (Ascii.eqb_spec c SPACE); [contradiction|]. assumption.
Qed.

Lemma blank_skip_to_LF (b : list ascii) :
  blank_from true b = true -> blank_from false (skip_to_LF b) = true.
Proof.
  induction b as [|c b IH]; simpl; [reflexivity|].
  destruct (Ascii.eqb_spec c LF) as [->|HL].
  - simpl. auto.
  - exact IH.
Qed.

Lemma blank_significant (c : ascii) (b : list ascii) :
  significant c -> blank_from false (c :: b) = false.
Proof.
  intros (_ & HL & HH & HS). simpl.
  destruct (Ascii.eqb_spec c LF); [contradiction|].
  destruct (Ascii.eqb_spec c SPACE); [contradiction|].
  destruct (Ascii.eqb_spec c HASH); [contradiction|]. reflexivity.
Qed.

Lemma stream_after_good (b : list ascii) :
  good (stream_after b) = true -> buf (stream_after b) = b.
Proof. destruct b; [discriminate | reflexivity]. Qed.

Lemma comment_skipped_input (l : Lexer) (b : list ascii) :
  good (input_ l) = true -> buf (input_ l) = b ->
  input_ (comment_skipped l) = stream_after (skip_to_LF b).
Proof.
  intros G B. unfold comment_skipped, remaining. cbn [with_input input_].
  rewrite (good_stream _ G), B. cbn [buf stream].
  apply ParseComment_loop_stream. lia.
Qed.

Lemma spaces_skipped_input (l : Lexer) (b : list ascii) :
  good (input_ l) = true -> buf (input_ l) = b ->
  input_ (spaces_skipped l) = stream_after (skip_spaces b).
Proof.
  intros G B.
  pose proof (CountSpaces_loop_stream b (S (List.length b)) 0 (Nat.lt_succ_diag_r _)) as H.
  unfold spaces_skipped, util.CountSpaces.
  rewrite (good_stream _ G), B. cbn [buf stream].
  destruct (util.CountSpaces_loop _ _ _) as [n i]. cbn [snd] in H. subst i.
  cbn [with_input start_of_line_]. destruct (start_of_line_ l); reflexivity.
Qed.

Lemma NextLine_input_LF (l : Lexer) (b : list ascii) :
  good (input_ l) = true -> buf (input_ l) = LF :: b ->
  input_ (NextLine l) = stream b.
Proof.
  intros G B. unfold NextLine, util.ReadLine.
  rewrite (good_stream _ G), B, getline_LF. reflexivity.
Qed.

(** At the start of a line with no indentation open, blank material up to
    the end of the input makes the call store [Eof]. *)
Lemma blank_first_token (l : Lexer) :
  start_of_line_ l = true ->
  (0 <? current_indent_ l) = false ->
  (good (input_ l) = true -> blank_from false (buf (input_ l)) = true) ->
  fst (ReadNextToken l) = Ok tt
  /\ current_token_ (snd (ReadNextToken l)) = token_type.Eof.
Proof.
  apply (ReadNextToken_ind (fun l r =>
           start_of_line_ l = true ->
           (0 <? current_indent_ l) = false ->
           (good (input_ l) = true -> blank_from false (buf (input_ l)) = true) ->
           fst r = Ok tt /\ current_token_ (snd r) = token_type.Eof)); clear l.
  - intros l _ S C _. unfold ParseEOF.
    cbn [with_input start_of_line_ current_indent_]. rewrite S, C. auto.
  - intros l b G B _ IH S C K.
    pose proof (NextLine_fields l) as (S' & _ & C' & _).
    apply IH; [assumption | rewrite C'; assumption |].
    intros _. rewrite (NextLine_input_LF l b G B). specialize (K G).
    rewrite B in K. exact K.
  - intros l b _ _ S S'. congruence.
  - intros l b G B IH S C K. apply IH; [exact S | exact C |].
    rewrite (comment_skipped_input l _ G B). intros G'.
    rewrite (stream_after_good _ G'). specialize (K G). rewrite B in K.
    exact (blank_skip_to_LF _ K).
  - intros l b G B IH S C K.
    pose proof (spaces_skipped_fields l) as (S' & C' & _).
    apply IH; [congruence | congruence |].
    rewrite (spaces_skipped_input l _ G B). intros G'.
    rewrite (stream_after_good _ G'). specialize (K G). rewrite B in K.
    exact (blank_skip_spaces _ K).
  - intros l c b G B Sig _ _ _ _ K. specialize (K G). rewrite B in K.
    rewrite (blank_significant c b Sig) in K. discriminate.
  - intros l c b G B Sig _ _ _ K. specialize (K G). rewrite B in K.
    rewrite (blank_significant c b Sig) in K. discriminate.
Qed.

(** C9. On an input made of blank material only (line feeds, lines of
    spaces, comment lines, the empty input) the constructor returns with
    [Eof] as the current token, and every token of the stream is [Eof]: no
    [Newline], [Indent] or [Dedent] is ever produced. *)
Theorem blank_input_only_Eof :
  forall text : string,
  blank_material text = true ->
  (exists l, Lexer_new (istringstream text) = (Ok tt, l)
             /\ CurrentToken l = token_type.Eof)
  /\ forall n : nat, tokens n text = repeat token_type.Eof n.
Proof.
  intros text B.
  destruct (blank_first_token (Lexer_members (istringstream text))
              eq_refl eq_refl (fun _ => B)) as [R T].
  pose proof (Eof_only_at_eof _ R T) as A.
  unfold Lexer_new, tokens.
  destruct (ReadNextToken (Lexer_members (istringstream text))) as [r l] eqn:E.
  cbn [fst snd] in *. subst r. split.
  - exists l. auto.
  - intros [|n]; [reflexivity|]. cbn [tokens_from repeat]. rewrite E.
    rewrite T. f_equal. apply at_eof_forever; assumption.
Qed.

Lemma blank_input_only_Eof_witness :
  tokens 4 ("  # note" ++ nl ++ nl ++ "   ") = repeat token_type.Eof 4.
Proof.
  apply (blank_input_only_Eof ("  # note" ++ nl ++ nl ++ "   ")).
  vm_compute. reflexivity.
Defined.

(** ** The equations of the dispatch *)

Lemma peek_stream (c : ascii) (b : list ascii) :
  peek (stream (c :: b)) = (to_int_type c, stream (c :: b)).
Proof. reflexivity. Qed.

Lemma ReadNextToken_EOF (l : Lexer) :
  char_to_int (int_to_char (fst (peek (input_ l)))) = EOF ->
  ReadNextToken l = (Ok tt, ParseEOF (with_input l (snd (peek (input_ l))))).
Proof.
  intros E. rewrite ReadNextToken_eq. unfold ReadNextToken_body.
  destruct (peek (input_ l)) as [p i]. cbn [fst snd] in *.
  rewrite E. reflexivity.
Qed.

Lemma ReadNextToken_LF (l : Lexer) (b : list ascii) :
  good (input_ l) = true -> buf (input_ l) = LF :: b ->
  ReadNextToken l = ParseLineEnd ReadNextToken l.
Proof.
  intros G B. rewrite ReadNextToken_eq at 1. unfold ReadNextToken_body.
  rewrite (good_stream _ G), B, peek_stream, <- B, <- (good_stream _ G).
  rewrite with_input_same. reflexivity.
Qed.

Lemma ReadNextToken_HASH (l : Lexer) (b : list ascii) :
  good (input_ l) = true -> buf (input_ l) = HASH :: b ->
  ReadNextToken l = ReadNextToken (comment_skipped l).
Proof.
  intros G B. rewrite ReadNextToken_eq at 1. unfold ReadNextToken_body.
  rewrite (good_stream _ G), B, peek_stream, <- B, <- (good_stream _ G).
  rewrite with_input_same. reflexivity.
Qed.

Lemma ReadNextToken_SPACE (l : Lexer) (b : list ascii) :
  good (input_ l) = true -> buf (input_ l) = SPACE :: b ->
  ReadNextToken l = ReadNextToken (spaces_skipped l).
Proof.
  intros G B. rewrite ReadNextToken_eq at 1. unfold ReadNextToken_body.
  rewrite (good_stream _ G), B, peek_stream, <- B, <- (good_stream _ G).
  rewrite with_input_same.
  transitivity (ParseSpaces ReadNextToken l); [reflexivity | apply ParseSpaces_eq].
Qed.

Lemma ReadNextToken_significant (l : Lexer) (c : ascii) (b : list ascii) :
  good (input_ l) = true -> buf (input_ l) = c :: b -> significant c ->
  ReadNextToken l
  = if start_of_line_ l && negb (current_indent_ l =? line_indent_ l)
    then (Ok tt, ParseIndent l)
    else match ParseToken l with
         | (Ok tt, l') => (Ok tt, with_start_of_line l' false)
         | r => r
         end.
Proof.
  intros G B (HE & HL & HH & HS). rewrite ReadNextToken_eq at 1.
  unfold ReadNextToken_body.
  rewrite (good_stream _ G), B, peek_stream, <- B, <- (good_stream _ G).
  rewrite with_input_same, int_to_char_to_int_type.
  destruct (Z.eqb_spec (char_to_int c) EOF); [contradiction|].
  destruct (Ascii.eqb_spec c LF); [contradiction|].
  destruct (Ascii.eqb_spec c HASH); [contradiction|].
  destruct (Ascii.eqb_spec c SPACE); [contradiction|]. reflexivity.
Qed.

(** ** Operators and punctuation *)

Lemma DualSymbols_spec (c d : ascii) :
  util.find util.DualSymbols (String c (String d EmptyString)) = spec_dual c d.
Proof.
  unfold spec_dual. cbn [util.find util.DualSymbols String.eqb].
  repeat match goal with
         | |- context [Ascii.eqb ?a ?b] => destruct (Ascii.eqb_spec a b); subst
         end; cbn [andb]; try reflexivity; try congruence.
Qed.

Lemma ParseChar_spec (l : Lexer) (c : ascii) (rest : list ascii) :
  good (input_ l) = true -> buf (input_ l) = c :: rest ->
  ParseChar l
  = match rest with
    | d :: rest' =>
        match spec_dual c d with
        | Some t => with_input (with_current_token l t) (stream rest')
        | None => with_input (with_current_token l (token_type.Char c)) (stream rest)
        end
    | [] =>
        with_input (with_current_token l (token_type.Char c)) (mk_istream [] true false)
    end.
Proof.
  intros G B. unfold ParseChar. rewrite (good_stream _ G), B.
  unfold get_int, stream. rewrite get_good. destruct rest as [|d rest'].
  - cbn [peek good eofbit failbit negb andb buf set_eof].
    rewrite int_to_char_to_int_type, DualSymbols_spec. reflexivity.
  - cbn [peek good eofbit failbit negb andb buf].
    rewrite !int_to_char_to_int_type, DualSymbols_spec.
    destruct (spec_dual c d); [|reflexivity].
    rewrite get_good. reflexivity.
Qed.

Lemma ParseToken_operator (l : Lexer) (c : ascii) (rest : list ascii) :
  good (input_ l) = true -> buf (input_ l) = c :: rest ->
  util.IsNum c = false -> util.IsAlNumLL c = false -> c <> DQUOTE -> c <> SQUOTE ->
  ParseToken l = (Ok tt, ParseChar l).
Proof.
  intros G B N A HD HS. unfold ParseToken.
  rewrite (good_stream _ G), B, peek_stream, <- B, <- (good_stream _ G).
  rewrite with_input_same, int_to_char_to_int_type, N, A.
  destruct (Ascii.eqb_spec c DQUOTE); [contradiction|].
  destruct (Ascii.eqb_spec c SQUOTE); [contradiction|]. reflexivity.
Qed.

(** C5. When [ParseToken] meets a character that is no digit, no name
    character and no quote: if it forms [==], [!=], [>=] or [<=] with the
    character after it, both are consumed and the one operator token is
    stored; otherwise only that character is consumed and stored as [Char].
    The input [x == 2] followed by a line feed scans to
    [Id x], [Eq], [Number 2], [Newline], [Eof]. *)
Theorem operator_dispatch :
  (forall (l : Lexer) (c : ascii) (rest : list ascii),
      good (input_ l) = true -> buf (input_ l) = c :: rest ->
      util.IsNum c = false -> util.IsAlNumLL c = false ->
      c <> DQUOTE -> c <> SQUOTE ->
      exists l',
        ParseToken l = (Ok tt, l')
        /\ match rest with
           | d :: rest' =>
               match spec_dual c d with
               | Some t => current_token_ l' = t /\ buf (input_ l') = rest'
               | None => current_token_ l' = token_type.Char c /\ buf (input_ l') = rest
               end
           | [] => current_token_ l' = token_type.Char c /\ buf (input_ l') = rest
           end)
  /\ scan 5 ("x == 2" ++ nl)
     = Ok [token_type.Id "x"; token_type.Eq; token_type.Number 2;
           token_type.Newline; token_type.Eof].
Proof.
  split; [|vm_compute; reflexivity].
  intros l c rest G B N A HD HS. exists (ParseChar l).
  split; [apply (ParseToken_operator l c rest); assumption|].
  rewrite (ParseChar_spec l c rest G B).
  destruct rest as [|d rest']; [split; reflexivity|].
  destruct (spec_dual c d); split; reflexivity.
Qed.

Lemma operator_dispatch_witness :
  exists l',
    ParseToken (Lexer_members (istringstream "<= 1")) = (Ok tt, l')
    /\ current_token_ l' = token_type.LessOrEq
    /\ buf (input_ l') = [" "; "1"]%char.
Proof.
  destruct (proj1 operator_dispatch (Lexer_members (istringstream "<= 1"))
              "<"%char ["="; " "; "1"]%char) as (l' & H1 & H2);
    try reflexivity; try discriminate.
  exists l'. split; [exact H1|]. exact H2.
Defined.

(** ** The end of the input *)

(** At the end of the input, at the start of a line, the open indentation
    levels are closed one [Dedent] per call, and then [Eof] is stored. *)
Lemma closing_dedents (k : nat) :
  forall l : Lexer,
  start_of_line_ l = true ->
  current_indent_ l = Z.of_nat k -> current_indent_ l < uint32_max ->
  char_to_int (int_to_char (fst (peek (input_ l)))) = EOF ->
  tokens_from (S k) l = repeat token_type.Dedent k ++ [token_type.Eof].
Proof.
  induction k as [|k IH]; intros l S C M E.
  - cbn [tokens_from]. rewrite (ReadNextToken_EOF l E). unfold ParseEOF.
    cbn [with_input start_of_line_ current_indent_]. rewrite S, C. reflexivity.
  - cbn [tokens_from]. rewrite (ReadNextToken_EOF l E). unfold ParseEOF.
    cbn [with_input start_of_line_ current_indent_ negb]. rewrite S. cbn [negb].
    destruct (Z.ltb_spec 0 (current_indent_ l)); [|lia].
    cbn [current_token_ with_current_token repeat app]. f_equal.
    apply IH; cbn [with_current_token with_current_indent with_input
                   start_of_line_ current_indent_ input_].
    + exact S.
    + rewrite Z.mod_small by lia. lia.
    + rewrite Z.mod_small by lia. lia.
    + apply peek_again, E.
Qed.

(** C10, as stated, fails when an indentation level is still open: on the
    input [if x:], line feed, two spaces, [=], the lexer reached after the
    constructor and four calls of [NextToken] has produced [Indent] and has
    the one character [=] left; it stores [Char =], and the two tokens after
    it are [Newline] and [Dedent]; [Eof] comes third. *)
Lemma operator_last_with_open_indentation :
  let l := {| input_ := stream ["="%char];
              start_of_line_ := true;
              current_indent_ := 1;
              line_indent_ := 1;
              current_token_ := token_type.Indent |} in
  NextToken_times 4 (snd (Lexer_new (istringstream ("if x:" ++ nl ++ "  =")))) = Ok l
  /\ current_token_ (snd (ReadNextToken l)) = token_type.Char "="
  /\ tokens_from 3 (snd (ReadNextToken l))
     = [token_type.Newline; token_type.Dedent; token_type.Eof]
  /\ tokens_from 2 (snd (ReadNextToken l)) <> [token_type.Newline; token_type.Eof].
Proof.
  cbv zeta. split; [|split; [|split]].
  - vm_compute. reflexivity.
  - vm_compute. reflexivity.
  - vm_compute. reflexivity.
  - vm_compute. discriminate.
Qed.

(** C10, amended. When the operator or punctuation character is the last
    character of the input, the call still stores [Char] of that character
    and leaves nothing unread; the next token is [Newline], then comes one
    [Dedent] for every indentation level still open, and then [Eof].  When
    the character is the whole input no level is open: the tokens are
    [Char =], [Newline], [Eof]. *)
Theorem operator_at_end_of_input :
  (forall (l : Lexer) (c : ascii),
      good (input_ l) = true -> buf (input_ l) = [c] ->
      significant c ->
      util.IsNum c = false -> util.IsAlNumLL c = false ->
      c <> DQUOTE -> c <> SQUOTE ->
      start_of_line_ l = false \/ current_indent_ l = line_indent_ l ->
      0 <= current_indent_ l < uint32_max ->
      exists l1,
        ReadNextToken l = (Ok tt, l1)
        /\ current_token_ l1 = token_type.Char c
        /\ buf (input_ l1) = []
        /\ tokens_from (2 + Z.to_nat (current_indent_ l)) l1
           = token_type.Newline
               :: repeat token_type.Dedent (Z.to_nat (current_indent_ l))
               ++ [token_type.Eof])
  /\ scan 3 "=" = Ok [token_type.Char "="; token_type.Newline; token_type.Eof].
Proof.
  split; [|vm_compute; reflexivity].
  intros l c G B Sig N A HD HS Pend [C0 CM].
  rewrite (ReadNextToken_significant l c [] G B Sig).
  replace (start_of_line_ l && negb (current_indent_ l =? line_indent_ l)) with false.
  2:{ destruct Pend as [->| ->]; [reflexivity|].
      rewrite Z.eqb_refl. symmetry. apply andb_false_r. }
  rewrite (ParseToken_operator l c [] G B N A HD HS), (ParseChar_spec l c [] G B).
  set (l1 := with_start_of_line
               (with_input (with_current_token l (token_type.Char c))
                  (mk_istream [] true false)) false).
  exists l1. split; [reflexivity|]. split; [reflexivity|]. split; [reflexivity|].
  change (2 + Z.to_nat (current_indent_ l))%nat
    with (S (S (Z.to_nat (current_indent_ l)))).
  remember (S (Z.to_nat (current_indent_ l))) as m eqn:Hm.
  cbn [tokens_from]. rewrite (ReadNextToken_EOF l1) by reflexivity.
  set (l1' := with_input l1 (snd (peek (input_ l1)))).
  change (ParseEOF l1') with (with_current_token (NextLine l1') token_type.Newline).
  cbn [current_token_ with_current_token]. f_equal.
  pose proof (NextLine_fields l1') as (S' & _ & C' & _).
  change (current_indent_ l1') with (current_indent_ l) in C'.
  subst m.
  apply closing_dedents; unfold with_current_token;
    cbn [start_of_line_ current_indent_ input_].
  - exact S'.
  - rewrite C', Z2Nat.id; lia.
  - rewrite C'. lia.
  - reflexivity.
Qed.

Lemma operator_at_end_of_input_witness :
  exists l1,
    ReadNextToken (Lexer_members (istringstream ":")) = (Ok tt, l1)
    /\ current_token_ l1 = token_type.Char ":"
    /\ buf (input_ l1) = []
    /\ tokens_from 2 l1 = [token_type.Newline; token_type.Eof].
Proof.
  destruct (proj1 operator_at_end_of_input (Lexer_members (istringstream ":")) ":"%char)
    as (l1 & H1 & H2 & H3 & H4); try reflexivity; try discriminate.
  - unfold significant. repeat split; discriminate.
  - right. reflexivity.
  - unfold uint32_max. simpl. lia.
  - exists l1. repeat split; assumption.
Defined.

(** ** A worked example *)

(** C2. Scanning [if x:], a line feed, two spaces, [return x] and a line
    feed with a newly constructed lexer gives [If], [Id x], [Char :],
    [Newline], [Indent], [Return], [Id x], [Newline], [Dedent], [Eof]. *)
Theorem example_if_return :
  scan 10 ("if x:" ++ nl ++ "  return x" ++ nl)
  = Ok [token_type.If; token_type.Id "x"; token_type.Char ":"; token_type.Newline;
        token_type.Indent; token_type.Return; token_type.Id "x"; token_type.Newline;
        token_type.Dedent; token_type.Eof].
Proof. vm_compute. reflexivity. Qed.

(** ** String literals *)

Lemma append_nil_r (s : string) : (s ++ EmptyString)%string = s.
Proof. induction s as [|c s IH]; simpl; [reflexivity | f_equal; exact IH]. Qed.

Lemma append_assoc (s t u : string) : ((s ++ t) ++ u)%string = (s ++ (t ++ u))%string.
Proof. induction s as [|c s IH]; simpl; [reflexivity | f_equal; exact IH]. Qed.

Lemma ReadString_loop_items (first : ascii) (rest : list ascii) (body : list item) :
  first <> BACKSLASH ->
  Forall (plain_ok first) body ->
  forall (n : nat) (c : option ascii) (line : string),
  (List.length (flat_map encode body ++ first :: rest) < n)%nat ->
  util.ReadString_loop n first c line (stream (flat_map encode body ++ first :: rest))
  = (Ok (Some first, (line ++ spec_value body)%string), stream rest).
Proof.
  intros Hfirst Hbody. induction Hbody as [|it body Hit Hbody IH]; intros n c line Hn.
  - destruct n; [simpl in Hn; lia|].
    cbn [flat_map app util.ReadString_loop]. unfold stream. rewrite get_good.
    destruct (Ascii.eqb_spec first BACKSLASH); [contradiction|].
    rewrite Ascii.eqb_refl. cbn [spec_value]. rewrite append_nil_r. reflexivity.
  - destruct n; [simpl in Hn; lia|].
    destruct it as [p|x]; cbn [flat_map encode app] in *.
    + destruct Hit as [Hp1 Hp2].
      cbn [util.ReadString_loop]. unfold stream at 1. rewrite get_good.
      destruct (Ascii.eqb_spec p BACKSLASH); [contradiction|].
      destruct (Ascii.eqb_spec p first); [contradiction|].
      fold (stream (flat_map encode body ++ first :: rest)).
      rewrite IH by (simpl in Hn; lia).
      unfold push_back. rewrite append_assoc. reflexivity.
    + cbn [util.ReadString_loop]. unfold stream at 1. rewrite !get_good.
      rewrite Ascii.eqb_refl.
      fold (stream (flat_map encode body ++ first :: rest)).
      rewrite IH by (simpl in Hn; lia).
      cbn [spec_value]. unfold spec_escape, push_back.
      destruct (Ascii.eqb x DQUOTE); [rewrite append_assoc; reflexivity|].
      destruct (Ascii.eqb x SQUOTE); [rewrite append_assoc; reflexivity|].
      destruct (Ascii.eqb x "n"); [rewrite append_assoc; reflexivity|].
      destruct (Ascii.eqb x "t"); [rewrite append_assoc; reflexivity|].
      reflexivity.
Qed.

(** C6. Inside a quoted literal, a backslash followed by a double quote, a
    single quote, [n] or [t] yields the double quote, the single quote, a
    line feed or a tab, and a backslash followed by any other character yields
    nothing: [ReadString] on a literal closed by its quote returns the value
    the specification gives to its body and stops after the closing quote.
    The six characters double quote, [a], backslash, [n], [b], double quote
    scan to the [String] token holding [a], line feed, [b]. *)
Theorem string_escapes :
  (forall (first : ascii) (body : list item) (rest : list ascii),
      first = DQUOTE \/ first = SQUOTE ->
      Forall (plain_ok first) body ->
      util.ReadString (stream (first :: flat_map encode body ++ first :: rest))
      = (Ok (spec_value body), stream rest))
  /\ (spec_escape DQUOTE = String DQUOTE EmptyString
      /\ spec_escape SQUOTE = String SQUOTE EmptyString
      /\ spec_escape "n" = String LF EmptyString
      /\ spec_escape "t" = String TAB EmptyString
      /\ forall x, x <> DQUOTE -> x <> SQUOTE -> x <> "n"%char -> x <> "t"%char ->
                   spec_escape x = EmptyString)
  /\ tokens 1 (dq ++ "a\nb" ++ dq) = [token_type.String ("a" ++ nl ++ "b")].
Proof.
  split; [|split; [|vm_compute; reflexivity]].
  - intros first body rest Hq Hbody.
    assert (Hfirst : first <> BACKSLASH) by (destruct Hq; subst; discriminate).
    unfold util.ReadString, get_int, stream. rewrite get_good.
    rewrite int_to_char_to_int_type.
    fold (stream (flat_map encode body ++ first :: rest)).
    rewrite (ReadString_loop_items first rest body Hfirst Hbody) by (simpl; lia).
    rewrite Ascii.eqb_refl. reflexivity.
  - repeat split; try reflexivity.
    intros x H1 H2 H3 H4. unfold spec_escape.
    destruct (Ascii.eqb_spec x DQUOTE); [contradiction|].
    destruct (Ascii.eqb_spec x SQUOTE); [contradiction|].
    destruct (Ascii.eqb_spec x "n"); [contradiction|].
    destruct (Ascii.eqb_spec x "t"); [contradiction|]. reflexivity.
Qed.

Lemma string_escapes_witness :
  util.ReadString (istringstream (dq ++ "a\nb\q" ++ dq))
  = (Ok ("a" ++ nl ++ "b")%string, stream []).
Proof.
  apply (proj1 string_escapes DQUOTE
           [Plain "a"; Escape "n"; Plain "b"; Escape "q"] []).
  - left. reflexivity.
  - repeat constructor; discriminate.
Defined.

(** ** The current token *)

(** C8, as stated, fails: no token is what [CurrentToken] returns on every
    newly constructed lexer.  On the input [x] it returns [Id x], read from
    the input by the constructor (nothing is left to read), and on the input
    [y] it returns [Id y]. *)
Lemma no_sentinel_before_first_advance :
  (exists l,
      Lexer_new (istringstream "x") = (Ok tt, l)
      /\ CurrentToken l = token_type.Id "x"
      /\ buf (input_ l) = [])
  /\ ~ (exists sentinel : Token,
          forall (text : string) (l : Lexer),
          Lexer_new (istringstream text) = (Ok tt, l) -> CurrentToken l = sentinel).
Proof.
  split.
  - eexists. split; [vm_compute; reflexivity|]. split; reflexivity.
  - intros [sentinel H].
    pose proof (H "x"%string _ eq_refl) as Hx.
    pose proof (H "y"%string _ eq_refl) as Hy.
    vm_compute in Hx, Hy. congruence.
Qed.

(** The token left in [current_token_] by an earlier call does not affect a
    call that returns: every path of [ReadNextToken] that returns stores a
    token. *)
Lemma NextLine_current_token (l : Lexer) (t0 : Token) :
  NextLine (with_current_token l t0) = with_current_token (NextLine l) t0.
Proof.
  unfold NextLine. cbn [with_current_token input_].
  destruct (util.ReadLine (input_ l)) as [s i]. reflexivity.
Qed.

Lemma ParseEOF_current_token (l : Lexer) (t0 : Token) :
  ParseEOF (with_current_token l t0) = ParseEOF l.
Proof.
  unfold ParseEOF. rewrite NextLine_current_token.
  cbn [with_current_token start_of_line_ current_indent_].
  destruct (start_of_line_ l); cbn [negb]; [|reflexivity].
  destruct (0 <? current_indent_ l); reflexivity.
Qed.

Lemma spaces_skipped_current_token (l : Lexer) (t0 : Token) :
  spaces_skipped (with_current_token l t0) = with_current_token (spaces_skipped l) t0.
Proof.
  unfold spaces_skipped. cbn [with_current_token input_].
  destruct (util.CountSpaces (input_ l)) as [n i].
  cbn [with_input with_current_token start_of_line_].
  destruct (start_of_line_ l); reflexivity.
Qed.

Lemma ParseToken_current_token (l : Lexer) (t0 : Token) :
  fst (ParseToken l) = Ok tt ->
  ParseToken (with_current_token l t0) = ParseToken l.
Proof.
  unfold ParseToken. cbn [with_current_token input_].
  destruct (peek (input_ l)) as [p i]. cbn [with_input input_].
  destruct (util.IsNum (int_to_char p)).
  { destruct (util.ReadNumber i) as [[n|e| |] i']; cbn [fst]; intros H;
      try discriminate. reflexivity. }
  destruct (util.IsAlNumLL (int_to_char p)).
  { intros _. unfold ParseName. cbn [with_input input_].
    destruct (util.ReadName i) as [name i'].
    destruct (util.find util.KeyWords name); reflexivity. }
  destruct (Ascii.eqb (int_to_char p) DQUOTE || Ascii.eqb (int_to_char p) SQUOTE).
  { destruct (util.ReadString i) as [[n|e| |] i']; cbn [fst]; intros H;
      try discriminate. reflexivity. }
  intros _. unfold ParseChar. cbn [with_input input_].
  destruct (get_int i) as [g i1]. destruct (peek i1) as [p2 i2].
  destruct (util.find util.DualSymbols _); [|reflexivity].
  destruct (get_int i2) as [g3 i3]. reflexivity.
Qed.

Lemma ReadNextToken_current_token (l : Lexer) :
  forall t0 : Token,
  fst (ReadNextToken l) = Ok tt ->
  ReadNextToken (with_current_token l t0) = ReadNextToken l.
Proof.
  apply (ReadNextToken_ind (fun l r =>
           forall t0, fst r = Ok tt -> ReadNextToken (with_current_token l t0) = r));
    clear l.
  - intros l E t0 _. rewrite ReadNextToken_EOF by exact E.
    change (with_input (with_current_token l t0)
              (snd (peek (input_ (with_current_token l t0)))))
      with (with_current_token (with_input l (snd (peek (input_ l)))) t0).
    rewrite ParseEOF_current_token. reflexivity.
  - intros l b G B S IH t0 R.
    rewrite (ReadNextToken_LF (with_current_token l t0) b G B).
    unfold ParseLineEnd. cbn [with_current_token start_of_line_]. rewrite S.
    fold (with_current_token l t0). rewrite NextLine_current_token. apply IH, R.
  - intros l b G B S t0 _.
    rewrite (ReadNextToken_LF (with_current_token l t0) b G B).
    unfold ParseLineEnd. cbn [with_current_token start_of_line_]. rewrite S.
    fold (with_current_token l t0). rewrite NextLine_current_token. reflexivity.
  - intros l b G B IH t0 R.
    rewrite (ReadNextToken_HASH (with_current_token l t0) b G B). apply IH, R.
  - intros l b G B IH t0 R.
    rewrite (ReadNextToken_SPACE (with_current_token l t0) b G B).
    rewrite spaces_skipped_current_token. apply IH, R.
  - intros l c b G B Sig S Q t0 _.
    rewrite (ReadNextToken_significant (with_current_token l t0) c b G B Sig).
    cbn [with_current_token start_of_line_ current_indent_ line_indent_].
    rewrite S. destruct (Z.eqb_spec (current_indent_ l) (line_indent_ l)) as [|_];
      [contradiction|].
    cbn [andb negb]. f_equal. unfold ParseIndent.
    cbn [with_current_token start_of_line_ current_indent_ line_indent_].
    destruct (Z.ltb_spec (current_indent_ l) (line_indent_ l)); [reflexivity|].
    destruct (Z.ltb_spec (line_indent_ l) (current_indent_ l)); [reflexivity|]. lia.
  - intros l c b G B Sig Pend t0 R.
    rewrite (ReadNextToken_significant (with_current_token l t0) c b G B Sig).
    replace (start_of_line_ (with_current_token l t0)
             && negb (current_indent_ (with_current_token l t0)
                      =? line_indent_ (with_current_token l t0))) with false.
    2:{ cbn [with_current_token start_of_line_ current_indent_ line_indent_].
        destruct Pend as [->| ->]; [reflexivity|].
        rewrite Z.eqb_refl. symmetry. apply andb_false_r. }
    rewrite ParseToken_current_token; [reflexivity|].
    destruct (ParseToken l) as [[[]|e| |] l']; cbn [fst] in *; congruence.
Qed.

(** C8, amended. There is no sentinel: the constructor makes the first
    advance itself.  It returns exactly when [NextToken] returns on the object
    as the member initialisers leave it, with the same lexer, so that before
    the first call of [NextToken] [CurrentToken] is already the first token
    read from the input; the default-constructed token the members start with
    never shows, whatever it is.  After any advance, [CurrentToken] is the
    token that advance returned.  ([CurrentToken] is a [const] method: a
    function of the lexer, which it cannot change.) *)
Theorem CurrentToken_is_last_token :
  (forall (input : istream) (l : Lexer),
      Lexer_new input = (Ok tt, l) <->
      NextToken (Lexer_members input) = (Ok (CurrentToken l), l))
  /\ (forall (input : istream) (l : Lexer) (t0 : Token),
         Lexer_new input = (Ok tt, l) ->
         ReadNextToken (with_current_token (Lexer_members input) t0) = (Ok tt, l))
  /\ (forall (l l' : Lexer) (t : Token),
         NextToken l = (Ok t, l') -> CurrentToken l' = t).
Proof.
  split; [|split].
  - intros input l. unfold Lexer_new, NextToken, CurrentToken.
    destruct (ReadNextToken (Lexer_members input)) as [[[]|e| |] l0]; split; intros H;
      try discriminate; injection H as H; subst; reflexivity.
  - intros input l t0 H. unfold Lexer_new in H.
    rewrite ReadNextToken_current_token; [exact H | rewrite H; reflexivity].
  - intros l l' t. unfold NextToken, CurrentToken.
    destruct (ReadNextToken l) as [[[]|e| |] l0]; intros H; try discriminate.
    injection H as H1 H2. subst. reflexivity.
Qed.

Lemma CurrentToken_is_last_token_witness :
  CurrentToken (snd (NextToken (Lexer_members (istringstream "x = 1"))))
  = token_type.Id "x".
Proof.
  apply (proj2 (proj2 CurrentToken_is_last_token)
           (Lexer_members (istringstream "x = 1"))).
  vm_compute. reflexivity.
Defined.

(** ** Literals that are not closed *)

Lemma ReadString_loop_open (first : ascii) (body : list item) :
  Forall (plain_ok first) body ->
  forall (n : nat) (c : option ascii) (line : string),
  (List.length (flat_map encode body) < n)%nat ->
  util.ReadString_loop n first c line (stream (flat_map encode body))
  = (Ok (last_read c body, (line ++ spec_value body)%string), ended).
Proof.
  intros Hbody. induction Hbody as [|it body Hit Hbody IH]; intros n c line Hn.
  - destruct n; [simpl in Hn; lia|]. cbn. rewrite append_nil_r. reflexivity.
  - destruct n; [simpl in Hn; lia|].
    destruct it as [p|x]; cbn [flat_map encode app] in *.
    + destruct Hit as [Hp1 Hp2].
      cbn [util.ReadString_loop]. unfold stream at 1. rewrite get_good.
      destruct (Ascii.eqb_spec p BACKSLASH); [contradiction|].
      destruct (Ascii.eqb_spec p first); [contradiction|].
      fold (stream (flat_map encode body)).
      rewrite IH by (simpl in Hn; lia).
      unfold push_back. rewrite append_assoc. reflexivity.
    + cbn [util.ReadString_loop]. unfold stream at 1. rewrite !get_good.
      rewrite Ascii.eqb_refl.
      fold (stream (flat_map encode body)).
      rewrite IH by (simpl in Hn; lia).
      cbn [spec_value last_read fold_left]. unfold spec_escape, push_back.
      destruct (Ascii.eqb x DQUOTE); [rewrite append_assoc; reflexivity|].
      destruct (Ascii.eqb x SQUOTE); [rewrite append_assoc; reflexivity|].
      destruct (Ascii.eqb x "n"); [rewrite append_assoc; reflexivity|].
      destruct (Ascii.eqb x "t"); [rewrite append_assoc; reflexivity|].
      reflexivity.
Qed.

Lemma last_read_not_first (first : ascii) (body : list item) :
  first <> BACKSLASH -> Forall (plain_ok first) body ->
  forall c : option ascii,
  (c = None /\ body = [] /\ last_read c body = None)
  \/ (exists c0, last_read c body = Some c0 /\ (c0 <> first \/ (body = [] /\ c = Some c0))).
Proof.
  intros Hfirst Hbody. induction Hbody as [|it body Hit Hbody IH]; intros c.
  - destruct c as [c0|]; [right; exists c0; auto | left; auto].
  - right. cbn [last_read fold_left].
    destruct (IH (Some match it with Plain p => p | Escape _ => BACKSLASH end))
      as [(H & _) | (c0 & H1 & H2)]; [discriminate|].
    exists c0. split; [exact H1|]. left.
    destruct H2 as [H2 | [_ H2]]; [exact H2|].
    injection H2 as <-. destruct it as [p|x]; [apply Hit | auto].
Qed.

(** A literal whose closing quote does not come before the end of the input
    is refused with [runtime_error] (the error the specification calls
    [MalformedLiteral]), with the text read so far in the message. *)
Lemma ReadString_unterminated (first : ascii) (body : list item) :
  first = DQUOTE \/ first = SQUOTE ->
  Forall (plain_ok first) body -> body <> [] ->
  util.ReadString (stream (first :: flat_map encode body))
  = (Throw (runtime_error ("Failed to parse string : " ++ spec_value body)), ended).
Proof.
  intros Hq Hbody Hne.
  assert (Hfirst : first <> BACKSLASH) by (destruct Hq; subst; discriminate).
  unfold util.ReadString, get_int, stream. rewrite get_good.
  rewrite int_to_char_to_int_type. fold (stream (flat_map encode body)).
  rewrite (ReadString_loop_open first body Hbody) by (simpl; lia).
  destruct (last_read_not_first first body Hfirst Hbody None)
    as [(_ & H & _) | (c0 & H1 & [H2 | [H2 _]])]; try contradiction.
  rewrite H1. destruct (Ascii.eqb_spec c0 first); [contradiction|]. reflexivity.
Qed.

(** C3. The reader refuses a literal that is still open at the end of the
    input: the double quote followed by [abc] gives the error and no token.
    It does not refuse a literal that is still open at the end of the line:
    the line feed becomes part of the value, and double quote, [a], line
    feed, [b], double quote scans to a [String] token. *)
Theorem ReadString_runs_past_line_end :
  (util.ReadString (istringstream (dq ++ "abc"))
   = (Throw (runtime_error "Failed to parse string : abc"), ended)
   /\ tokens 1 (dq ++ "abc") = [])
  /\ util.ReadString (istringstream (dq ++ "a" ++ nl ++ "b" ++ dq))
     = (Ok ("a" ++ nl ++ "b")%string, stream [])
  /\ scan 3 (dq ++ "a" ++ nl ++ "b" ++ dq)
     = Ok [token_type.String ("a" ++ nl ++ "b"); token_type.Newline; token_type.Eof].
Proof.
  split; [split|split].
  - apply (ReadString_unterminated DQUOTE [Plain "a"; Plain "b"; Plain "c"]%char).
    + left; reflexivity.
    + repeat constructor; discriminate.
    + discriminate.
  - vm_compute. reflexivity.
  - vm_compute. reflexivity.
  - vm_compute. reflexivity.
Qed.

(** ** Separator lines *)

Lemma skip_to_LF_app (body rest : list ascii) :
  no_LF body = true -> skip_to_LF (body ++ LF :: rest) = LF :: rest.
Proof.
  induction body as [|c body IH]; intros H; [reflexivity|].
  cbn [no_LF forallb] in H. apply andb_prop in H as [Hc H].
  cbn [app skip_to_LF]. destruct (Ascii.eqb c LF); [discriminate|]. apply IH, H.
Qed.

Lemma skip_spaces_app (sep rest : list ascii) :
  skip_spaces (sep ++ LF :: rest) = skip_spaces sep ++ LF :: rest.
Proof.
  induction sep as [|c sep IH]; [reflexivity|].
  cbn [app skip_spaces]. destruct (Ascii.eqb c SPACE); [exact IH | reflexivity].
Qed.

Lemma separator_skip_spaces (sep : list ascii) :
  separator_line sep = true ->
  skip_spaces sep = [] \/ exists body, skip_spaces sep = HASH :: body /\ no_LF body = true.
Proof.
  unfold separator_line. induction sep as [|c sep IH]; intros H; [left; reflexivity|].
  apply andb_prop in H as [H1 H2]. cbn [no_LF forallb] in H1.
  apply andb_prop in H1 as [Hc H1]. cbn [blank_from] in H2.
  destruct (Ascii.eqb c LF); [discriminate|]. cbn [skip_spaces].
  destruct (Ascii.eqb c SPACE).
  - apply IH. unfold no_LF. rewrite H1, H2. reflexivity.
  - destruct (Ascii.eqb_spec c HASH) as [->|]; [|discriminate].
    right. exists sep. auto.
Qed.

Lemma skip_LF_line (l : Lexer) (rest : list ascii) :
  good (input_ l) = true -> buf (input_ l) = LF :: rest -> start_of_line_ l = true ->
  ReadNextToken l = ReadNextToken (line_start l rest).
Proof.
  intros G B S. rewrite (ReadNextToken_LF l rest G B). unfold ParseLineEnd.
  rewrite S. f_equal. unfold NextLine, util.ReadLine.
  rewrite (good_stream _ G), B, getline_LF. reflexivity.
Qed.

Lemma skip_comment_line (l : Lexer) (body rest : list ascii) :
  good (input_ l) = true -> buf (input_ l) = HASH :: body ++ LF :: rest ->
  no_LF body = true -> start_of_line_ l = true ->
  ReadNextToken l = ReadNextToken (line_start l rest).
Proof.
  intros G B N S. rewrite (ReadNextToken_HASH l _ G B).
  assert (I : input_ (comment_skipped l) = stream (LF :: rest)).
  { rewrite (comment_skipped_input l _ G B). cbn [skip_to_LF].
    change (Ascii.eqb HASH LF) with false. cbn iota.
    rewrite (skip_to_LF_app body rest N). reflexivity. }
  rewrite (skip_LF_line (comment_skipped l) rest); [reflexivity | | | exact S];
    rewrite I; reflexivity.
Qed.

(** At the start of a line, a separator line and its line feed are skipped
    within the call: the call behaves as on the line that follows. *)
Lemma separator_line_skipped (l : Lexer) (sep rest : list ascii) :
  good (input_ l) = true -> buf (input_ l) = sep ++ LF :: rest ->
  separator_line sep = true -> start_of_line_ l = true ->
  ReadNextToken l = ReadNextToken (line_start l rest).
Proof.
  intros G B Sep S.
  destruct sep as [|c sep']; [apply skip_LF_line; assumption|].
  destruct (Ascii.eqb_spec c SPACE) as [->|HS].
  - rewrite (ReadNextToken_SPACE l _ G B).
    pose proof (spaces_skipped_fields l) as (S' & C' & T' & _).
    assert (I : input_ (spaces_skipped l)
                = stream (skip_spaces (SPACE :: sep') ++ LF :: rest)).
    { rewrite (spaces_skipped_input l _ G B).
      change ((SPACE :: sep') ++ LF :: rest) with (SPACE :: sep' ++ LF :: rest).
      cbn [skip_spaces]. change (Ascii.eqb SPACE SPACE) with true. cbn iota.
      rewrite skip_spaces_app. destruct (skip_spaces sep'); reflexivity. }
    replace (line_start l rest) with (line_start (spaces_skipped l) rest)
      by (unfold line_start; rewrite C', T'; reflexivity).
    destruct (separator_skip_spaces _ Sep) as [E | (body & E & N)]; rewrite E in I.
    + apply skip_LF_line; [rewrite I; reflexivity | rewrite I; reflexivity | congruence].
    + apply (skip_comment_line _ body);
        [rewrite I; reflexivity | rewrite I; reflexivity | exact N | congruence].
  - unfold separator_line in Sep. apply andb_prop in Sep as [N K].
    cbn [no_LF forallb] in N. apply andb_prop in N as [Hc N]. cbn [blank_from] in K.
    destruct (Ascii.eqb c LF); [discriminate|].
    destruct (Ascii.eqb_spec c SPACE); [contradiction|].
    destruct (Ascii.eqb_spec c HASH) as [->|]; [|discriminate].
    apply (skip_comment_line l sep'); assumption.
Qed.

Lemma line_start_same (l : Lexer) (rest : list ascii) :
  start_of_line_ l = true -> line_indent_ l = 0 ->
  line_start l rest = with_input l (stream rest).
Proof. destruct l; simpl; intros -> ->; reflexivity. Qed.

(** ** Lines in which no literal is left open *)

Lemma split_line_no_LF (p X : list ascii) :
  no_LF p = true ->
  forall s : string, exists s', split_line (p ++ LF :: X) s = (s', X, true).
Proof.
  induction p as [|c p IH]; intros H s.
  - exists s. reflexivity.
  - cbn [no_LF forallb] in H. apply andb_prop in H as [Hc H].
    cbn [app split_line]. destruct (Ascii.eqb c LF); [discriminate|].
    apply IH, H.
Qed.

Lemma NextLine_no_LF (l : Lexer) (p X : list ascii) :
  input_ l = stream (p ++ LF :: X) -> no_LF p = true ->
  NextLine l = line_start l X.
Proof.
  intros I H. unfold NextLine, util.ReadLine, getline. rewrite I.
  cbn [good stream eofbit failbit negb andb buf].
  destruct (split_line_no_LF p X H EmptyString) as [s' E]. rewrite E.
  destruct (p ++ LF :: X) eqn:D; [destruct p; discriminate|]. reflexivity.
Qed.

(** A character of a line that is neither a quote, nor [#], nor the
    character that compares equal to [eof()]. *)
Lemma literals_closed_plain (c : ascii) (p : list ascii) :
  c <> HASH -> char_to_int c <> EOF -> c <> DQUOTE -> c <> SQUOTE ->
  literals_closed in_code (c :: p) = literals_closed in_code p.
Proof.
  intros H1 H2 H3 H4. cbn [literals_closed].
  destruct (Ascii.eqb_spec c HASH); [contradiction|].
  destruct (Z.eqb_spec (char_to_int c) EOF); [contradiction|].
  destruct (Ascii.eqb_spec c DQUOTE); [contradiction|].
  destruct (Ascii.eqb_spec c SQUOTE); [contradiction|]. reflexivity.
Qed.

Lemma IsAlNumLL_plain (c : ascii) :
  util.IsAlNumLL c = true ->
  c <> HASH /\ char_to_int c <> EOF /\ c <> DQUOTE /\ c <> SQUOTE /\ c <> LF.
Proof.
  intros H. repeat split; try (intros ->; discriminate H).
  intros E. apply char_to_int_EOF in E. subst c. discriminate H.
Qed.

Lemma IsNum_IsAlNumLL (c : ascii) : util.IsNum c = true -> util.IsAlNumLL c = true.
Proof.
  intros H. unfold util.IsAlNumLL, util.IsAlNum. rewrite H.
  rewrite orb_true_r. reflexivity.
Qed.

Lemma ReadNumber_loop_local (p : list ascii) :
  no_LF p = true ->
  forall num : string,
  exists num' p',
    (forall (X : list ascii) (n : nat),
        (List.length (p ++ LF :: X) < n)%nat ->
        util.ReadNumber_loop n num (stream (p ++ LF :: X))
        = (num', stream (p' ++ LF :: X)))
    /\ no_LF p' = true
    /\ (literals_closed in_code p = true -> literals_closed in_code p' = true).
Proof.
  induction p as [|c p IH]; intros H num.
  - exists num, []. split; [|auto]. intros X n Hn.
    destruct n; [simpl in Hn; lia|]. reflexivity.
  - pose proof H as H'. cbn [no_LF forallb] in H'. apply andb_prop in H' as [Hc Hp].
    destruct (util.IsNum c) eqn:N.
    + destruct (IH Hp (push_back num c)) as (num' & p' & E & N' & K).
      exists num', p'. split; [|split; [exact N'|]].
      * intros X n Hn. destruct n; [simpl in Hn; lia|].
        cbn [app util.ReadNumber_loop]. unfold stream at 1. rewrite get_good, N.
        apply E. simpl in Hn. lia.
      * intros L. apply K.
        destruct (IsAlNumLL_plain c (IsNum_IsAlNumLL c N)) as (A1 & A2 & A3 & A4 & _).
        rewrite literals_closed_plain in L; assumption.
    + exists num, (c :: p). split; [|auto]. intros X n Hn.
      destruct n; [simpl in Hn; lia|].
      cbn [app util.ReadNumber_loop]. unfold stream at 1. rewrite get_good, N.
      reflexivity.
Qed.

Lemma ReadName_loop_local (p : list ascii) :
  no_LF p = true ->
  forall line : string,
  exists line' p',
    (forall (X : list ascii) (n : nat),
        (List.length (p ++ LF :: X) < n)%nat ->
        util.ReadName_loop n line (stream (p ++ LF :: X))
        = (line', stream (p' ++ LF :: X)))
    /\ no_LF p' = true
    /\ (literals_closed in_code p = true -> literals_closed in_code p' = true).
Proof.
  induction p as [|c p IH]; intros H line.
  - exists line, []. split; [|auto]. intros X n Hn.
    destruct n; [simpl in Hn; lia|]. reflexivity.
  - pose proof H as H'. cbn [no_LF forallb] in H'. apply andb_prop in H' as [Hc Hp].
    destruct (util.IsAlNumLL c) eqn:N.
    + destruct (IH Hp (push_back line c)) as (line' & p' & E & N' & K).
      exists line', p'. split; [|split; [exact N'|]].
      * intros X n Hn. destruct n; [simpl in Hn; lia|].
        cbn [app util.ReadName_loop]. unfold stream at 1. rewrite get_good, N.
        apply E. simpl in Hn. lia.
      * intros L. apply K.
        destruct (IsAlNumLL_plain c N) as (A1 & A2 & A3 & A4 & _).
        rewrite literals_closed_plain in L; assumption.
    + exists line, (c :: p). split; [|auto]. intros X n Hn.
      destruct n; [simpl in Hn; lia|].
      cbn [app util.ReadName_loop]. unfold stream at 1. rewrite get_good, N.
      reflexivity.
Qed.

Lemma ReadString_loop_local (q : ascii) :
  q <> BACKSLASH ->
  forall (k : nat) (p : list ascii),
  (List.length p <= k)%nat ->
  no_LF p = true -> literals_closed (in_literal q) p = true ->
  forall (c : option ascii) (line : string),
  exists line' p',
    (forall (X : list ascii) (n : nat),
        (List.length (p ++ LF :: X) < n)%nat ->
        util.ReadString_loop n q c line (stream (p ++ LF :: X))
        = (Ok (Some q, line'), stream (p' ++ LF :: X)))
    /\ no_LF p' = true
    /\ literals_closed in_code p' = true.
Proof.
  intros Hq. induction k as [|k IH]; intros p Hk N L c line.
  - destruct p; [discriminate L | simpl in Hk; lia].
  - destruct p as [|a p1]; [discriminate L|].
    cbn [no_LF forallb] in N. apply andb_prop in N as [_ N1]. fold (no_LF p1) in N1.
    cbn [literals_closed] in L. simpl in Hk.
    destruct (Ascii.eqb_spec a BACKSLASH) as [->|Ha].
    + destruct p1 as [|x p2]; [discriminate L|].
      cbn [no_LF forallb] in N1. apply andb_prop in N1 as [_ N2]. fold (no_LF p2) in N2.
      simpl in Hk.
      destruct (IH p2 ltac:(lia) N2 L (Some BACKSLASH)
                  (if Ascii.eqb x DQUOTE then push_back line DQUOTE
                   else if Ascii.eqb x SQUOTE then push_back line SQUOTE
                   else if Ascii.eqb x "n" then push_back line LF
                   else if Ascii.eqb x "t" then push_back line TAB
                   else line)) as (line' & p' & E & N' & L').
      exists line', p'. split; [|auto]. intros X n Hn.
      destruct n; [simpl in Hn; lia|].
      cbn [app util.ReadString_loop]. unfold stream at 1. rewrite !get_good.
      rewrite Ascii.eqb_refl. apply E. simpl in Hn. lia.
    + destruct (Ascii.eqb_spec a q) as [->|Haq].
      * exists line, p1. split; [|auto]. intros X n Hn.
        destruct n; [simpl in Hn; lia|].
        cbn [app util.ReadString_loop]. unfold stream at 1. rewrite get_good.
        destruct (Ascii.eqb_spec q BACKSLASH); [contradiction|].
        rewrite Ascii.eqb_refl. reflexivity.
      * destruct (IH p1 ltac:(lia) N1 L (Some a) (push_back line a))
          as (line' & p' & E & N' & L').
        exists line', p'. split; [|auto]. intros X n Hn.
        destruct n; [simpl in Hn; lia|].
        cbn [app util.ReadString_loop]. unfold stream at 1. rewrite get_good.
        destruct (Ascii.eqb_spec a BACKSLASH); [contradiction|].
        destruct (Ascii.eqb_spec a q); [contradiction|].
        apply E. simpl in Hn. lia.
Qed.

Lemma spec_dual_second (c d : ascii) (t : Token) :
  spec_dual c d = Some t -> d = "="%char.
Proof.
  unfold spec_dual. destruct (Ascii.eqb_spec d "="); [auto | discriminate].
Qed.

(** [ParseToken] within a line in which no literal is left open: the
    outcome, the token and the part of the line left do not depend on the
    text [X] after the line feed. *)
Lemma ParseToken_local (l : Lexer) (c : ascii) (p1 : list ascii) :
  significant c ->
  no_LF (c :: p1) = true -> literals_closed in_code (c :: p1) = true ->
  exists (o : outcome unit) (tok : Token) (p' : list ascii),
    (forall X : list ascii,
        ParseToken (with_input l (stream (c :: p1 ++ LF :: X)))
        = (o, mk_Lexer (stream (p' ++ LF :: X)) (start_of_line_ l)
                (current_indent_ l) (line_indent_ l) tok))
    /\ no_LF p' = true
    /\ literals_closed in_code p' = true.
Proof.
  intros (S1 & S2 & S3 & S4) N L.
  pose proof N as N'. cbn [no_LF forallb] in N'. apply andb_prop in N' as [_ N1].
  fold (no_LF p1) in N1.
  destruct (util.IsNum c) eqn:EN.
  { destruct (ReadNumber_loop_local (c :: p1) N EmptyString) as (num & p' & E & N2 & K).
    specialize (K L).
    exists (match num with EmptyString => Ok tt | _ =>
              match util.stoi num with Ok _ => Ok tt | Throw e => Throw e
                                  | Undefined => Undefined | OutOfFuel => OutOfFuel end
            end),
           (match num with EmptyString => token_type.Number 0 | _ =>
              match util.stoi num with Ok n => token_type.Number n
                                  | _ => current_token_ l end
            end), p'.
    split; [|auto]. intros X. unfold ParseToken. cbn [with_input input_].
    rewrite peek_stream, int_to_char_to_int_type, EN. cbn [with_input input_].
    unfold util.ReadNumber. cbn [buf stream].
    change (c :: p1 ++ LF :: X) with ((c :: p1) ++ LF :: X).
    rewrite E by lia.
    destruct num as [|a num]; [reflexivity|].
    destruct (util.stoi (String a num)); reflexivity. }
  destruct (util.IsAlNumLL c) eqn:EA.
  { destruct (ReadName_loop_local (c :: p1) N EmptyString) as (name & p' & E & N2 & K).
    specialize (K L).
    exists (Ok tt),
           (match util.find util.KeyWords name with
            | Some t => t | None => token_type.Id name end), p'.
    split; [|auto]. intros X. unfold ParseToken. cbn [with_input input_].
    rewrite peek_stream, int_to_char_to_int_type, EN, EA.
    unfold ParseName, util.ReadName. cbn [with_input input_ buf stream].
    change (c :: p1 ++ LF :: X) with ((c :: p1) ++ LF :: X).
    rewrite E by lia.
    destruct (util.find util.KeyWords name); reflexivity. }
  destruct (Ascii.eqb c DQUOTE || Ascii.eqb c SQUOTE) eqn:EQ.
  { assert (Hq : c <> BACKSLASH).
    { apply orb_prop in EQ as [EQ|EQ]; apply Ascii.eqb_eq in EQ; subst; discriminate. }
    assert (L1 : literals_closed (in_literal c) p1 = true).
    { cbn [literals_closed] in L.
      destruct (Ascii.eqb_spec c HASH); [contradiction|].
      destruct (Z.eqb_spec (char_to_int c) EOF); [contradiction|].
      cbn [orb] in L. rewrite EQ in L. exact L. }
    destruct (ReadString_loop_local c Hq (List.length p1) p1 (le_n _) N1 L1
                None EmptyString) as (line' & p' & E & N2 & L2).
    exists (Ok tt), (token_type.String line'), p'.
    split; [|auto]. intros X. unfold ParseToken. cbn [with_input input_].
    rewrite peek_stream, int_to_char_to_int_type, EN, EA, EQ.
    unfold util.ReadString, get_int. unfold stream at 1. rewrite get_good.
    rewrite int_to_char_to_int_type. cbn [buf].
    fold (stream (p1 ++ LF :: X)). rewrite E by lia.
    rewrite Ascii.eqb_refl. reflexivity. }
  apply orb_false_elim in EQ as [EQ1 EQ2].
  apply Ascii.eqb_neq in EQ1, EQ2.
  rewrite literals_closed_plain in L by assumption.
  destruct p1 as [|d p2].
  - exists (Ok tt), (token_type.Char c), []. split; [|auto]. intros X.
    rewrite (ParseToken_operator _ c (LF :: X)) by (auto; reflexivity).
    rewrite (ParseChar_spec _ c (LF :: X)) by reflexivity.
    replace (spec_dual c LF) with (@None Token); [reflexivity|].
    unfold spec_dual. reflexivity.
  - destruct (spec_dual c d) as [t|] eqn:D.
    + exists (Ok tt), t, p2.
      pose proof (spec_dual_second c d t D) as ->.
      cbn [no_LF forallb] in N1. apply andb_prop in N1 as [_ N2].
      rewrite literals_closed_plain in L by discriminate.
      split; [|auto]. intros X.
      rewrite (ParseToken_operator _ c (("="%char :: p2) ++ LF :: X)) by (auto; reflexivity).
      rewrite (ParseChar_spec _ c (("="%char :: p2) ++ LF :: X)) by reflexivity.
      cbn [app]. rewrite D. reflexivity.
    + exists (Ok tt), (token_type.Char c), (d :: p2). split; [|auto]. intros X.
      rewrite (ParseToken_operator _ c ((d :: p2) ++ LF :: X)) by (auto; reflexivity).
      rewrite (ParseChar_spec _ c ((d :: p2) ++ LF :: X)) by reflexivity.
      cbn [app]. rewrite D. reflexivity.
Qed.

Lemma head_of_line (p X : list ascii) (c : ascii) (b : list ascii) :
  no_LF p = true -> p ++ LF :: X = c :: b ->
  (c = LF /\ p = [] /\ b = X)
  \/ (c <> LF /\ exists p1, p = c :: p1 /\ b = p1 ++ LF :: X /\ no_LF p1 = true).
Proof.
  intros N E. destruct p as [|a p1].
  - injection E as <- <-. left. auto.
  - injection E as -> <-. right.
    cbn [no_LF forallb] in N. apply andb_prop in N as [Hc N].
    split; [|exists p1; auto].
    intros ->. discriminate Hc.
Qed.

Lemma CountSpaces_loop_local (p : list ascii) :
  no_LF p = true ->
  forall acc : Z,
  exists acc',
    forall (X : list ascii) (n : nat),
    (List.length (p ++ LF :: X) < n)%nat ->
    util.CountSpaces_loop n acc (stream (p ++ LF :: X))
    = (acc', stream (skip_spaces p ++ LF :: X)).
Proof.
  induction p as [|c p IH]; intros H acc.
  - exists acc. intros X n Hn. destruct n; [simpl in Hn; lia|]. reflexivity.
  - cbn [no_LF forallb] in H. apply andb_prop in H as [Hc Hp].
    destruct (Ascii.eqb c SPACE) eqn:S.
    + destruct (IH Hp ((acc + 1) mod util.size_max)) as (acc' & E).
      exists acc'. intros X n Hn. destruct n; [simpl in Hn; lia|].
      cbn [app util.CountSpaces_loop skip_spaces]. unfold stream at 1.
      rewrite get_good, S. apply E. simpl in Hn. lia.
    + exists acc. intros X n Hn. destruct n; [simpl in Hn; lia|].
      cbn [app util.CountSpaces_loop skip_spaces]. unfold stream at 1.
      rewrite get_good, S. reflexivity.
Qed.

Lemma spaces_skipped_local (l : Lexer) (p : list ascii) :
  no_LF p = true ->
  exists v : Z,
    forall X : list ascii,
    spaces_skipped (with_input l (stream (p ++ LF :: X)))
    = mk_Lexer (stream (skip_spaces p ++ LF :: X)) (start_of_line_ l)
        (current_indent_ l) v (current_token_ l).
Proof.
  intros N. destruct (CountSpaces_loop_local p N 0) as (acc' & E).
  exists (if start_of_line_ l then (acc' / 2) mod uint32_max else line_indent_ l).
  intros X. unfold spaces_skipped, util.CountSpaces. cbn [with_input input_ buf stream].
  rewrite E by lia. destruct l as [i s c0 n0 t]. cbn [with_input start_of_line_].
  destruct s; reflexivity.
Qed.

Lemma skip_spaces_closed (p : list ascii) :
  no_LF p = true -> literals_closed in_code p = true ->
  no_LF (skip_spaces p) = true /\ literals_closed in_code (skip_spaces p) = true.
Proof.
  induction p as [|c p IH]; intros N L; [auto|].
  cbn [skip_spaces]. destruct (Ascii.eqb_spec c SPACE) as [->|]; [|auto].
  cbn [no_LF forallb] in N. apply andb_prop in N as [_ N].
  rewrite literals_closed_plain in L by discriminate. auto.
Qed.

Lemma ParseIndent_with_input (l : Lexer) (i : istream) :
  ParseIndent (with_input l i) = with_input (ParseIndent l) i.
Proof.
  unfold ParseIndent. cbn [with_input current_indent_ line_indent_].
  destruct (current_indent_ l <? line_indent_ l); [reflexivity|].
  destruct (line_indent_ l <? current_indent_ l); reflexivity.
Qed.

Lemma ParseIndent_input (l : Lexer) : input_ (ParseIndent l) = input_ l.
Proof.
  unfold ParseIndent.
  destruct (current_indent_ l <? line_indent_ l); [reflexivity|].
  destruct (line_indent_ l <? current_indent_ l); reflexivity.
Qed.

(** One call of [ReadNextToken] within a line in which no literal is left
    open, on two inputs that differ after the line feed of that line only. *)
Lemma ReadNextToken_local (l : Lexer) :
  forall p X Y : list ascii,
  input_ l = stream (p ++ LF :: X) ->
  no_LF p = true -> literals_closed in_code p = true ->
  line_related X Y (ReadNextToken l)
    (ReadNextToken (with_input l (stream (p ++ LF :: Y)))).
Proof.
  apply (ReadNextToken_ind (fun l r =>
           forall p X Y,
           input_ l = stream (p ++ LF :: X) ->
           no_LF p = true -> literals_closed in_code p = true ->
           line_related X Y r (ReadNextToken (with_input l (stream (p ++ LF :: Y))))));
    clear l.
  - (* the character ahead compares equal to eof() *)
    intros l E p X Y I N L.
    destruct p as [|h p1]; [rewrite I in E; discriminate E|].
    assert (E' : char_to_int (int_to_char (fst (peek (input_
                   (with_input l (stream ((h :: p1) ++ LF :: Y))))))) = EOF).
    { rewrite I in E. exact E. }
    rewrite (ReadNextToken_EOF _ E').
    replace (with_input l (snd (peek (input_ l)))) with l.
    2:{ rewrite I. cbn [app peek_stream]. rewrite peek_stream. cbn [snd].
        change (stream (h :: p1 ++ LF :: X)) with (stream ((h :: p1) ++ LF :: X)).
        rewrite <- I. symmetry. apply with_input_same. }
    replace (with_input (with_input l (stream ((h :: p1) ++ LF :: Y)))
               (snd (peek (input_ (with_input l (stream ((h :: p1) ++ LF :: Y)))))))
      with (with_input l (stream ((h :: p1) ++ LF :: Y))) by reflexivity.
    set (p := h :: p1) in *.
    unfold ParseEOF. cbn [with_input start_of_line_ current_indent_].
    destruct (start_of_line_ l) eqn:S; cbn [negb].
    + left. exists p. destruct (0 <? current_indent_ l); cbn; auto 6.
    + right. left.
      rewrite (NextLine_no_LF l p X I N).
      rewrite (NextLine_no_LF (with_input l (stream (p ++ LF :: Y))) p Y eq_refl N).
      cbn. auto 7.
  - (* a blank line *)
    intros l b G B S _ p X Y I N L.
    rewrite I in B. cbn [buf stream] in B.
    destruct (head_of_line p X LF b N B) as [(_ & -> & ->) | (H & _)]; [|congruence].
    right. right. exists (line_start l X).
    rewrite (NextLine_no_LF l [] X I N).
    rewrite (ReadNextToken_LF (with_input l (stream ([] ++ LF :: Y))) Y eq_refl eq_refl).
    unfold ParseLineEnd. cbn [with_input start_of_line_]. rewrite S.
    rewrite (NextLine_no_LF (with_input l (stream ([] ++ LF :: Y))) [] Y eq_refl N).
    cbn. auto.
  - (* the end of a line *)
    intros l b G B S p X Y I N L.
    rewrite I in B. cbn [buf stream] in B.
    destruct (head_of_line p X LF b N B) as [(_ & -> & ->) | (H & _)]; [|congruence].
    right. left.
    rewrite (NextLine_no_LF l [] X I N).
    rewrite (ReadNextToken_LF (with_input l (stream ([] ++ LF :: Y))) Y eq_refl eq_refl).
    unfold ParseLineEnd. cbn [with_input start_of_line_]. rewrite S.
    rewrite (NextLine_no_LF (with_input l (stream ([] ++ LF :: Y))) [] Y eq_refl N).
    cbn. auto 7.
  - (* a comment *)
    intros l b G B IH p X Y I N L.
    rewrite I in B. cbn [buf stream] in B.
    destruct (head_of_line p X HASH b N B) as [(H & _) | (_ & p1 & -> & -> & N1)];
      [discriminate H|].
    assert (IA : input_ (comment_skipped l) = stream ([] ++ LF :: X)).
    { rewrite (comment_skipped_input l (HASH :: p1 ++ LF :: X) G);
        [|rewrite I; reflexivity].
      cbn [skip_to_LF]. change (Ascii.eqb HASH LF) with false. cbn iota.
      rewrite (skip_to_LF_app p1 X N1). reflexivity. }
    rewrite (ReadNextToken_HASH (with_input l (stream ((HASH :: p1) ++ LF :: Y)))
               (p1 ++ LF :: Y) eq_refl eq_refl).
    replace (comment_skipped (with_input l (stream ((HASH :: p1) ++ LF :: Y))))
      with (with_input (comment_skipped l) (stream ([] ++ LF :: Y))).
    + apply IH; auto.
    + unfold comment_skipped at 2. unfold remaining.
      cbn [with_input input_ buf stream].
      rewrite ParseComment_loop_stream by lia.
      cbn [app skip_to_LF]. change (Ascii.eqb HASH LF) with false. cbn iota.
      rewrite (skip_to_LF_app p1 Y N1). reflexivity.
  - (* spaces *)
    intros l b G B IH p X Y I N L.
    rewrite I in B. cbn [buf stream] in B.
    destruct (head_of_line p X SPACE b N B) as [(H & _) | (_ & p1 & -> & -> & N1)];
      [discriminate H|].
    destruct (spaces_skipped_local l (SPACE :: p1) N) as (v & E).
    destruct (skip_spaces_closed (SPACE :: p1) N L) as [N' L'].
    assert (EA : spaces_skipped l
                 = mk_Lexer (stream (skip_spaces (SPACE :: p1) ++ LF :: X))
                     (start_of_line_ l) (current_indent_ l) v (current_token_ l)).
    { rewrite <- (E X). f_equal. rewrite <- I. symmetry. apply with_input_same. }
    rewrite (ReadNextToken_SPACE (with_input l (stream ((SPACE :: p1) ++ LF :: Y)))
               (p1 ++ LF :: Y) eq_refl eq_refl).
    rewrite (E Y). rewrite EA in IH |- *.
    exact (IH (skip_spaces (SPACE :: p1)) X Y eq_refl N' L').
  - (* pending indentation *)
    intros l c b G B Sig S Q p X Y I N L.
    rewrite I in B. cbn [buf stream] in B.
    destruct (head_of_line p X c b N B) as [(H & _) | (_ & p1 & -> & -> & N1)];
      [destruct Sig as (_ & H' & _); contradiction|].
    rewrite (ReadNextToken_significant
               (with_input l (stream ((c :: p1) ++ LF :: Y))) c (p1 ++ LF :: Y)
               eq_refl eq_refl Sig).
    cbn [with_input start_of_line_ current_indent_ line_indent_]. rewrite S.
    destruct (Z.eqb_spec (current_indent_ l) (line_indent_ l)); [contradiction|].
    cbn [andb negb]. left. exists (c :: p1). cbn [fst snd].
    fold (with_input l (stream ((c :: p1) ++ LF :: Y))).
    rewrite ParseIndent_with_input, ParseIndent_input. auto 6.
  - (* a significant token *)
    intros l c b G B Sig Pend p X Y I N L.
    rewrite I in B. cbn [buf stream] in B.
    destruct (head_of_line p X c b N B) as [(H & _) | (_ & p1 & -> & -> & N1)];
      [destruct Sig as (_ & H' & _); contradiction|].
    destruct (ParseToken_local l c p1 Sig N L) as (o & tok & p' & E & N' & L').
    rewrite (ReadNextToken_significant
               (with_input l (stream ((c :: p1) ++ LF :: Y))) c (p1 ++ LF :: Y)
               eq_refl eq_refl Sig).
    replace (start_of_line_ (with_input l (stream ((c :: p1) ++ LF :: Y)))
             && negb (current_indent_ (with_input l (stream ((c :: p1) ++ LF :: Y)))
                      =? line_indent_ (with_input l (stream ((c :: p1) ++ LF :: Y)))))
      with false.
    2:{ cbn [with_input start_of_line_ current_indent_ line_indent_].
        destruct Pend as [->| ->]; [reflexivity|].
        rewrite Z.eqb_refl. symmetry. apply andb_false_r. }
    rewrite <- (with_input_same l) at 1. rewrite I.
    change ((c :: p1) ++ LF :: X) with (c :: p1 ++ LF :: X).
    change ((c :: p1) ++ LF :: Y) with (c :: p1 ++ LF :: Y).
    rewrite !E. left. exists p'.
    destruct o as [[]|e| |]; cbn; auto 6.
Qed.

Lemma tokens_local (X Y : list ascii) :
  same_tokens_from_line_start X Y ->
  forall (n : nat) (l : Lexer) (p : list ascii),
  input_ l = stream (p ++ LF :: X) ->
  no_LF p = true -> literals_closed in_code p = true ->
  tokens_from n l = tokens_from n (with_input l (stream (p ++ LF :: Y))).
Proof.
  intros Hxy. induction n as [|n IH]; intros l p I N L; [reflexivity|].
  cbn [tokens_from].
  destruct (ReadNextToken_local l p X Y I N L)
    as [(p' & F & IA & SB & N' & L')
       | [(FA & FB & IA & SB & S & LI) | (m & IM & SM & LM & RA & RB)]].
  - destruct (ReadNextToken l) as [oA lA'].
    destruct (ReadNextToken (with_input l (stream (p ++ LF :: Y)))) as [oB lB'].
    cbn [fst snd] in *. subst oB lB'.
    destruct oA as [[]|e| |]; try reflexivity.
    cbn [with_input current_token_]. f_equal. apply (IH lA' p' IA N' L').
  - destruct (ReadNextToken l) as [oA lA'].
    destruct (ReadNextToken (with_input l (stream (p ++ LF :: Y)))) as [oB lB'].
    cbn [fst snd] in *. subst oA oB lB'.
    cbn [with_input current_token_]. f_equal. apply (Hxy n lA' IA S LI).
  - rewrite RA, RB. exact (Hxy (S n) m IM SM LM).
Qed.

Lemma same_tokens_separator (sep rest : list ascii) :
  separator_line sep = true ->
  same_tokens_from_line_start (sep ++ LF :: rest) rest.
Proof.
  intros Sep n m I S L.
  assert (R : ReadNextToken m = ReadNextToken (with_input m (stream rest))).
  { rewrite (separator_line_skipped m sep rest); [| rewrite I; reflexivity
                                                   | rewrite I; reflexivity
                                                   | exact Sep | exact S].
    rewrite (line_start_same m rest S L). reflexivity. }
  destruct n; [reflexivity|]. cbn [tokens_from]. rewrite R. reflexivity.
Qed.

Lemma same_tokens_lines (lines : list (list ascii)) (X Y : list ascii) :
  Forall (fun q => no_LF q = true /\ literals_closed in_code q = true) lines ->
  same_tokens_from_line_start X Y ->
  same_tokens_from_line_start (join_lines lines X) (join_lines lines Y).
Proof.
  intros H Hxy. induction H as [|q lines [N L] _ IH]; [exact Hxy|].
  intros n m I _ _. cbn [join_lines] in *.
  exact (tokens_local _ _ IH n m q I N L).
Qed.

(** C4. A separator line (spaces and/or a comment) put between two lines
    changes no token, whatever the lines before it and the text after it,
    as long as no line before it leaves a literal open; and where the lexer
    stands at the start of a line, the call that meets a separator line
    returns what it returns without it.  Inside a literal left open on the
    line before, which [ReadString] reads across line ends, this fails:
    between the lines double quote [a] and [b] double quote, a separator line
    of one space changes the [String] token. *)
Theorem separator_line_invariance :
  (forall (lines : list (list ascii)) (sep rest : list ascii) (n : nat),
      Forall (fun q => no_LF q = true /\ literals_closed in_code q = true) lines ->
      separator_line sep = true ->
      tokens_from n (Lexer_members (stream (join_lines lines (sep ++ LF :: rest))))
      = tokens_from n (Lexer_members (stream (join_lines lines rest))))
  /\ (forall (l : Lexer) (sep rest : list ascii),
         good (input_ l) = true -> buf (input_ l) = sep ++ LF :: rest ->
         separator_line sep = true ->
         start_of_line_ l = true -> line_indent_ l = 0 ->
         ReadNextToken l = ReadNextToken (with_input l (stream rest)))
  /\ scan 3 (dq ++ "a" ++ nl ++ "b" ++ dq)
     = Ok [token_type.String ("a" ++ nl ++ "b"); token_type.Newline; token_type.Eof]
  /\ scan 3 (dq ++ "a" ++ nl ++ " " ++ nl ++ "b" ++ dq)
     = Ok [token_type.String ("a" ++ nl ++ " " ++ nl ++ "b"); token_type.Newline;
           token_type.Eof].
Proof.
  split; [|split; [|split; vm_compute; reflexivity]].
  - intros lines sep rest n H Sep.
    exact (same_tokens_lines lines _ _ H (same_tokens_separator sep rest Sep)
             n (Lexer_members (stream (join_lines lines (sep ++ LF :: rest))))
             eq_refl eq_refl eq_refl).
  - intros l sep rest G B Sep S L.
    rewrite (separator_line_skipped l sep rest G B Sep S).
    rewrite (line_start_same l rest S L). reflexivity.
Qed.

Lemma separator_line_invariance_witness :
  tokens 6 ("x = 1" ++ nl ++ "  # note" ++ nl ++ "y") = tokens 6 ("x = 1" ++ nl ++ "y").
Proof.
  apply (proj1 separator_line_invariance
           [list_ascii_of_string "x = 1"] (list_ascii_of_string "  # note")
           ["y"%char] 6%nat).
  - repeat constructor.
  - reflexivity.
Defined.

(** * Further properties of the code *)

(** ** Comparison and printing of tokens *)

(** X1. [operator==] never meets the exception of [As], and holds exactly when
    the two tokens are the same alternative with the same value;
    [operator!=] is its negation. *)
Theorem operator_eq_reflects_equality :
  forall lhs rhs : Token,
  exists r : bool,
    operator_eq lhs rhs = Some r
    /\ (r = true <-> lhs = rhs)
    /\ operator_ne lhs rhs = Some (negb r).
Proof.
  intros lhs rhs. unfold operator_ne.
  destruct lhs as [a|a|a|a| | | | | | | | | | | | | | | | | | | | ];
    destruct rhs as [b|b|b|b| | | | | | | | | | | | | | | | | | | | ];
    cbn;
    try (exists false; repeat split; try reflexivity; discriminate);
    try (exists true; repeat split; reflexivity).
  - exists (a =? b). repeat split; try reflexivity.
    + intros H. apply Z.eqb_eq in H. congruence.
    + intros [= ->]. apply Z.eqb_refl.
  - exists (String.eqb a b). repeat split; try reflexivity.
    + intros H. apply String.eqb_eq in H. congruence.
    + intros [= ->]. apply String.eqb_refl.
  - exists (Ascii.eqb a b). repeat split; try reflexivity.
    + intros H. apply Ascii.eqb_eq in H. congruence.
    + intros [= ->]. apply Ascii.eqb_refl.
  - exists (String.eqb a b). repeat split; try reflexivity.
    + intros H. apply String.eqb_eq in H. congruence.
    + intros [= ->]. apply String.eqb_refl.
Qed.

Lemma append_cancel_l (os x y : string) :
  (os ++ x)%string = (os ++ y)%string -> x = y.
Proof.
  induction os as [|c os IH]; simpl; [auto|]. intros [= H]. auto.
Qed.

Lemma append_brace_cancel (x y : string) :
  (x ++ "}")%string = (y ++ "}")%string -> x = y.
Proof.
  revert y. induction x as [|c x IH]; intros [|d y]; simpl; intros H.
  - reflexivity.
  - injection H as _ H. destruct y; discriminate H.
  - injection H as _ H. destruct x; discriminate H.
  - injection H as -> H. f_equal. auto.
Qed.

Lemma print_int_inj (v w : Z) : print_int v = print_int w -> v = w.
Proof.
  unfold print_int. intros H. apply DecimalZ.to_int_inj.
  pose proof (NilEmpty.isi (Z.to_int v)) as Hv.
  rewrite H, NilEmpty.isi in Hv. congruence.
Qed.

Lemma operator_shl_appends (os : string) (t : Token) :
  operator_shl os t = (os ++ operator_shl EmptyString t)%string.
Proof. destruct t; reflexivity. Qed.

(** X2. [operator<<] never writes its fallback text, and two different tokens
    are never written as the same text: the output tells the token. *)
Theorem operator_shl_injective :
  (forall (os : string) (t : Token),
      operator_shl os t <> (os ++ "Unknown token :(")%string)
  /\ (forall (os : string) (a b : Token),
         operator_shl os a = operator_shl os b -> a = b).
Proof.
  split.
  - intros os t H. rewrite operator_shl_appends in H.
    apply append_cancel_l in H. revert H.
    destruct t; cbn; discriminate.
  - intros os a b H. rewrite (operator_shl_appends os a), (operator_shl_appends os b) in H.
    apply append_cancel_l in H. revert H.
    destruct a as [x|x|x|x| | | | | | | | | | | | | | | | | | | | ];
      destruct b as [y|y|y|y| | | | | | | | | | | | | | | | | | | | ];
      cbn; try discriminate; try reflexivity; intros [= H].
    + apply append_brace_cancel, print_int_inj in H. congruence.
    + apply append_brace_cancel in H. congruence.
    + congruence.
    + apply append_brace_cancel in H. congruence.
Qed.

Lemma operator_shl_injective_witness :
  token_type.Char "="%char = token_type.Char "="%char.
Proof.
  apply (proj2 operator_shl_injective "token: "%string). reflexivity.
Defined.

(** ** Expectations *)

(** X3. [Expect<T>()] returns the current token exactly when it holds [T], and
    [Expect<T>(value)] passes exactly when [operator==] finds the current
    token equal to [T{value}]; in every other case both throw the
    [LexerError] with the text [Not implemented]. *)
Theorem Expect_agrees_with_operator_eq :
  (forall (T : alternative) (l : Lexer),
      (index (CurrentToken l) = T -> Expect T l = inl (CurrentToken l))
      /\ (index (CurrentToken l) <> T
          -> Expect T l = inr (mk_LexerError "Not implemented")))
  /\ (forall (e : expected_value) (l : Lexer),
         (operator_eq (CurrentToken l) (expected_token e) = Some true
          -> Expect_value e l = inl tt)
         /\ (operator_eq (CurrentToken l) (expected_token e) <> Some true
             -> Expect_value e l = inr (mk_LexerError "Not implemented"))).
Proof.
  split.
  - intros T l. unfold Expect, Is, CurrentToken. split.
    + intros <-. destruct (current_token_ l); reflexivity.
    + intros H. destruct (current_token_ l); destruct T; cbn in *;
        try reflexivity; congruence.
  - intros e l. unfold Expect_value, CurrentToken.
    destruct e as [v|v|v|v]; destruct (current_token_ l) as
        [a|a|a|a| | | | | | | | | | | | | | | | | | | | ]; cbn;
      (split; [intros H | intros H]); try discriminate; try reflexivity;
      try congruence.
    + injection H as ->. reflexivity.
    + destruct (a =? v); [congruence | reflexivity].
    + injection H as ->. reflexivity.
    + destruct (String.eqb a v); [congruence | reflexivity].
    + injection H as ->. reflexivity.
    + destruct (Ascii.eqb a v); [congruence | reflexivity].
    + injection H as ->. reflexivity.
    + destruct (String.eqb a v); [congruence | reflexivity].
Qed.

Lemma Expect_agrees_with_operator_eq_witness :
  Expect_value (Id_is "x") (snd (Lexer_new (istringstream "x = 1"))) = inl tt
  /\ Expect T_Eof (snd (Lexer_new (istringstream "x = 1")))
     = inr (mk_LexerError "Not implemented").
Proof.
  split.
  - apply (proj2 Expect_agrees_with_operator_eq). reflexivity.
  - apply (proj1 Expect_agrees_with_operator_eq). discriminate.
Defined.

(** X4. Once a call has stored [Eof], [ExpectNext<Eof>()] passes every time,
    and [ExpectNext<T>()] for any other [T] throws [LexerError] every time:
    the lexer stays at the end however many expectations are tried. *)
Theorem ExpectNext_at_the_end :
  forall (l l' : Lexer),
  ReadNextToken l = (Ok tt, l') ->
  CurrentToken l' = token_type.Eof ->
  forall (n : nat) (T : alternative),
  exists l'',
    NextToken_times n l' = Ok l''
    /\ fst (ExpectNext T l'')
       = Ok (if alternative_eqb T_Eof T then inl token_type.Eof
             else inr (mk_LexerError "Not implemented")).
Proof.
  intros l l' R T n A. unfold CurrentToken in T.
  assert (E : at_eof l').
  { pose proof (Eof_only_at_eof l) as H. rewrite R in H. apply H; auto. }
  destruct (at_eof_forever n l' E T) as [(l'' & N & E'' & T'') _].
  exists l''. split; [exact N|].
  unfold ExpectNext, NextToken. destruct (ReadNextToken_at_eof l'' E'') as [-> _].
  cbn [fst]. unfold Expect, Is. cbn. reflexivity.
Qed.

Lemma ExpectNext_at_the_end_witness :
  exists l'',
    NextToken_times 2 (snd (Lexer_new (istringstream "# end"))) = Ok l''
    /\ fst (ExpectNext T_Newline l'') = Ok (inr (mk_LexerError "Not implemented")).
Proof.
  destruct (ExpectNext_at_the_end (Lexer_members (istringstream "# end"))
              (snd (Lexer_new (istringstream "# end"))) eq_refl eq_refl 2%nat T_Newline)
    as (l'' & H1 & H2).
  exists l''. split; [exact H1 | exact H2].
Defined.

(** ** The readers of namespace [util] *)

Lemma span_spec (f : ascii -> bool) (b : list ascii) :
  fst (span f b) ++ snd (span f b) = b
  /\ forallb f (fst (span f b)) = true
  /\ match snd (span f b) with
     | [] => Logic.True
     | c :: _ => f c = false
     end.
Proof.
  induction b as [|c b (IH1 & IH2 & IH3)]; cbn [span]; [cbn; auto|].
  destruct (f c) eqn:F.
  - destruct (span f b) as [x y]. cbn [fst snd app forallb] in *.
    rewrite F, IH1, IH2. auto.
  - cbn. auto.
Qed.

Lemma span_app (f : ascii -> bool) (x rest : list ascii) :
  forallb f x = true ->
  match rest with [] => Logic.True | c :: _ => f c = false end ->
  span f (x ++ rest) = (x, rest).
Proof.
  intros Hx Hrest. induction x as [|c x IH]; cbn [app span].
  - destruct rest as [|c r]; [reflexivity|]. cbn [span]. rewrite Hrest. reflexivity.
  - cbn [forallb] in Hx. apply andb_prop in Hx as [Hc Hx].
    rewrite Hc, (IH Hx). reflexivity.
Qed.

Lemma push_back_append (line : string) (c : ascii) (s : string) :
  (push_back line c ++ s)%string = (line ++ String c s)%string.
Proof. unfold push_back. rewrite append_assoc. reflexivity. Qed.

Lemma ReadName_loop_span (b : list ascii) :
  forall (n : nat) (line : string), (List.length b < n)%nat ->
  util.ReadName_loop n line (stream b)
  = ((line ++ string_of_list_ascii (fst (span util.IsAlNumLL b)))%string,
     stream_after (snd (span util.IsAlNumLL b))).
Proof.
  induction b as [|c b IH]; intros n line Hn.
  - destruct n; [simpl in Hn; lia|]. cbn. rewrite append_nil_r. reflexivity.
  - destruct n; [simpl in Hn; lia|].
    cbn [util.ReadName_loop span]. unfold stream at 1. rewrite get_good.
    destruct (util.IsAlNumLL c).
    + fold (stream b). rewrite IH by (simpl in Hn; lia).
      destruct (span util.IsAlNumLL b) as [x y]. cbn [fst snd string_of_list_ascii].
      rewrite push_back_append. reflexivity.
    + cbn. rewrite append_nil_r. reflexivity.
Qed.

Lemma ReadNumber_loop_span (b : list ascii) :
  forall (n : nat) (num : string), (List.length b < n)%nat ->
  util.ReadNumber_loop n num (stream b)
  = ((num ++ string_of_list_ascii (fst (span util.IsNum b)))%string,
     stream_after (snd (span util.IsNum b))).
Proof.
  induction b as [|c b IH]; intros n num Hn.
  - destruct n; [simpl in Hn; lia|]. cbn. rewrite append_nil_r. reflexivity.
  - destruct n; [simpl in Hn; lia|].
    cbn [util.ReadNumber_loop span]. unfold stream at 1. rewrite get_good.
    destruct (util.IsNum c).
    + fold (stream b). rewrite IH by (simpl in Hn; lia).
      destruct (span util.IsNum b) as [x y]. cbn [fst snd string_of_list_ascii].
      rewrite push_back_append. reflexivity.
    + cbn. rewrite append_nil_r. reflexivity.
Qed.

Lemma CountSpaces_loop_span (b : list ascii) :
  forall (n : nat) (acc : Z), (List.length b < n)%nat ->
  0 <= acc < util.size_max ->
  util.CountSpaces_loop n acc (stream b)
  = ((acc + Z.of_nat (List.length (fst (span is_space b)))) mod util.size_max,
     stream_after (snd (span is_space b))).
Proof.
  induction b as [|c b IH]; intros n acc Hn Hacc.
  - destruct n; [simpl in Hn; lia|]. cbn [util.CountSpaces_loop span fst snd List.length].
    unfold stream. rewrite get_end. rewrite Z.add_0_r, Z.mod_small by lia. reflexivity.
  - destruct n; [simpl in Hn; lia|].
    cbn [util.CountSpaces_loop span]. unfold stream at 1. rewrite get_good.
    unfold is_space at 1 3. destruct (Ascii.eqb c SPACE).
    + fold (stream b). rewrite IH.
      * destruct (span is_space b) as [x y]. cbn [fst snd List.length].
        f_equal. rewrite Zplus_mod_idemp_l. f_equal. lia.
      * simpl in Hn. lia.
      * apply Z.mod_pos_bound. reflexivity.
    + cbn [fst snd List.length]. rewrite putback_good, Z.add_0_r, Z.mod_small by lia.
      reflexivity.
Qed.

Lemma string_of_list_ascii_nil (x : list ascii) :
  string_of_list_ascii x = EmptyString -> x = [].
Proof. destruct x; [reflexivity | discriminate]. Qed.

(** X5. [ReadName] takes the longest run of name characters at the front of the
    input and nothing more: the name and the text left make up the input,
    and the text left does not start with a name character. *)
Theorem ReadName_reads_maximal_name :
  forall b : list ascii,
  exists name rest : list ascii,
    util.ReadName (stream b) = (string_of_list_ascii name, stream_after rest)
    /\ b = name ++ rest
    /\ forallb util.IsAlNumLL name = true
    /\ match rest with
       | [] => Logic.True
       | c :: _ => util.IsAlNumLL c = false
       end.
Proof.
  intros b. exists (fst (span util.IsAlNumLL b)), (snd (span util.IsAlNumLL b)).
  destruct (span_spec util.IsAlNumLL b) as (H1 & H2 & H3).
  unfold util.ReadName. cbn [buf stream].
  rewrite ReadName_loop_span by lia. auto.
Qed.

(** X6. [CountSpaces] counts the spaces at the front of the input (in [size_t]
    arithmetic) and extracts exactly those. *)
Theorem CountSpaces_counts_leading_spaces :
  forall b : list ascii,
  exists (k : nat) (rest : list ascii),
    util.CountSpaces (stream b) = (Z.of_nat k mod util.size_max, stream_after rest)
    /\ b = repeat SPACE k ++ rest
    /\ match rest with
       | [] => Logic.True
       | c :: _ => c <> SPACE
       end.
Proof.
  intros b. exists (List.length (fst (span is_space b))), (snd (span is_space b)).
  destruct (span_spec is_space b) as (H1 & H2 & H3).
  unfold util.CountSpaces. cbn [buf stream].
  rewrite CountSpaces_loop_span by (first [lia | split; [lia | reflexivity]]).
  split; [reflexivity|]. split.
  - rewrite <- H1 at 1. f_equal.
    clear H1 H3. induction (fst (span is_space b)) as [|c x IH]; [reflexivity|].
    cbn [forallb] in H2. apply andb_prop in H2 as [Hc Hx].
    apply Ascii.eqb_eq in Hc. subst c. cbn. f_equal. auto.
  - destruct (snd (span is_space b)) as [|c r]; [exact I|].
    intros ->. discriminate H3.
Qed.

Lemma IsNum_digit (c : ascii) :
  util.IsNum c = true -> 0 <= to_int_type c - to_int_type "0" <= 9.
Proof.
  unfold util.IsNum, util.in_range. intros H. apply andb_prop in H as [H1 H2].
  apply Z.leb_le in H1, H2. change (to_int_type "9") with (to_int_type "0" + 9) in H2.
  lia.
Qed.

Lemma digits_value_nonneg (ds : list ascii) :
  forallb util.IsNum ds = true ->
  forall acc : Z, 0 <= acc -> 0 <= util.digits_value acc (string_of_list_ascii ds).
Proof.
  induction ds as [|c ds IH]; intros H acc Hacc; [exact Hacc|].
  cbn [forallb] in H. apply andb_prop in H as [Hc H].
  cbn [string_of_list_ascii util.digits_value]. apply IH; [exact H|].
  pose proof (IsNum_digit c Hc). lia.
Qed.

(** X7. [ReadNumber] takes the longest run of digits at the front of the input.
    With no digit there it returns 0 and extracts nothing; otherwise it
    returns the decimal value of the run, or throws [std::out_of_range] when
    that value exceeds [INT_MAX].  A value it returns is never negative. *)
Theorem ReadNumber_reads_maximal_digits :
  forall b : list ascii,
  exists digits rest : list ascii,
    b = digits ++ rest
    /\ forallb util.IsNum digits = true
    /\ match rest with
       | [] => Logic.True
       | c :: _ => util.IsNum c = false
       end
    /\ util.ReadNumber (stream b)
       = (match digits with
          | [] => Ok 0
          | _ =>
              if util.digits_value 0 (string_of_list_ascii digits) <=? util.INT_MAX
              then Ok (util.digits_value 0 (string_of_list_ascii digits))
              else Throw (out_of_range "stoi")
          end, stream_after rest)
    /\ forall v : Z, fst (util.ReadNumber (stream b)) = Ok v -> 0 <= v <= util.INT_MAX.
Proof.
  intros b. exists (fst (span util.IsNum b)), (snd (span util.IsNum b)).
  destruct (span_spec util.IsNum b) as (H1 & H2 & H3).
  assert (E : util.ReadNumber (stream b)
              = (match fst (span util.IsNum b) with
                 | [] => Ok 0
                 | _ =>
                     if util.digits_value 0
                          (string_of_list_ascii (fst (span util.IsNum b)))
                        <=? util.INT_MAX
                     then Ok (util.digits_value 0
                                (string_of_list_ascii (fst (span util.IsNum b))))
                     else Throw (out_of_range "stoi")
                 end, stream_after (snd (span util.IsNum b)))).
  { unfold util.ReadNumber. cbn [buf stream].
    rewrite ReadNumber_loop_span by lia. cbn [append].
    destruct (fst (span util.IsNum b)) as [|d ds]; reflexivity. }
  split; [symmetry; exact H1|]. split; [exact H2|]. split; [exact H3|].
  split; [exact E|].
  intros v H. rewrite E in H. cbn [fst] in H.
  destruct (fst (span util.IsNum b)) as [|d ds] eqn:D.
  - injection H as <-. unfold util.INT_MAX. lia.
  - destruct (Z.leb_spec (util.digits_value 0 (string_of_list_ascii (d :: ds)))
                util.INT_MAX); [|discriminate].
    injection H as <-. split; [|assumption].
    apply (digits_value_nonneg (d :: ds) H2 0). lia.
Qed.

Lemma ReadNumber_reads_maximal_digits_witness :
  0 <= 12 <= util.INT_MAX.
Proof.
  destruct (ReadNumber_reads_maximal_digits (list_ascii_of_string "12 + x"))
    as (digits & rest & _ & _ & _ & _ & H).
  apply (H 12). reflexivity.
Defined.

Lemma string_of_uint_digits (d : Decimal.uint) :
  forallb util.IsNum (list_ascii_of_string (NilEmpty.string_of_uint d)) = true.
Proof. induction d; cbn [NilEmpty.string_of_uint list_ascii_of_string forallb]; auto. Qed.

Lemma digits_value_of_uint_acc (d : Decimal.uint) :
  forall acc : positive,
  util.digits_value (Z.pos acc) (NilEmpty.string_of_uint d)
  = Z.pos (Pos.of_uint_acc d acc).
Proof.
  induction d; intros acc; cbn [NilEmpty.string_of_uint util.digits_value Pos.of_uint_acc];
    [reflexivity | ..];
    rewrite <- IHd; f_equal;
    match goal with
    | |- context [to_int_type ?c - to_int_type ?z] =>
        let v := eval vm_compute in (to_int_type c - to_int_type z) in
        change (to_int_type c - to_int_type z) with v
    end; lia.
Qed.

Lemma digits_value_of_uint (d : Decimal.uint) :
  util.digits_value 0 (NilEmpty.string_of_uint d) = Z.of_N (Pos.of_uint d).
Proof.
  induction d; cbn [NilEmpty.string_of_uint util.digits_value Pos.of_uint];
    [reflexivity | exact IHd | ..];
    match goal with
    | |- context [10 * 0 + (to_int_type ?c - to_int_type ?z)] =>
        let v := eval vm_compute in (10 * 0 + (to_int_type c - to_int_type z)) in
        change (10 * 0 + (to_int_type c - to_int_type z)) with v
    end; apply digits_value_of_uint_acc.
Qed.

Lemma digits_value_print_int (v : Z) :
  0 <= v -> util.digits_value 0 (print_int v) = v.
Proof.
  intros Hv. unfold print_int.
  pose proof (DecimalZ.of_to v) as H.
  destruct (Z.to_int v) as [d|d] eqn:E.
  - cbn [NilEmpty.string_of_int]. rewrite digits_value_of_uint. exact H.
  - destruct v; try discriminate E. lia.
Qed.

Lemma print_int_digits (v : Z) :
  0 <= v -> forallb util.IsNum (list_ascii_of_string (print_int v)) = true.
Proof.
  intros Hv. unfold print_int. destruct (Z.to_int v) as [d|d] eqn:E.
  - apply string_of_uint_digits.
  - destruct v; try discriminate E. lia.
Qed.

(** X8. [ReadNumber] reads back the decimal text that [operator<<] writes for
    the value of a [Number] token: for every value an [int] token can hold
    without a sign, followed by anything that is not a digit, the reader
    returns that value and stops right after its digits. *)
Theorem ReadNumber_reads_back_decimal :
  forall (v : Z) (rest : list ascii),
  0 <= v <= util.INT_MAX ->
  match rest with
  | [] => Logic.True
  | c :: _ => util.IsNum c = false
  end ->
  util.ReadNumber (stream (list_ascii_of_string (print_int v) ++ rest))
  = (Ok v, stream_after rest).
Proof.
  intros v rest [Hv0 Hv] Hrest.
  unfold util.ReadNumber. cbn [buf stream].
  rewrite ReadNumber_loop_span by lia.
  rewrite (span_app util.IsNum _ rest (print_int_digits v Hv0) Hrest).
  cbn [fst snd append]. rewrite string_of_list_ascii_of_string.
  pose proof (digits_value_print_int v Hv0) as D.
  destruct (print_int v) as [|c s] eqn:P.
  - cbn in D. subst v. reflexivity.
  - unfold util.stoi. rewrite D.
    destruct (Z.leb_spec v util.INT_MAX); [reflexivity | lia].
Qed.

Lemma ReadNumber_reads_back_decimal_witness :
  util.ReadNumber (istringstream "2147483647 + 1")
  = (Ok 2147483647, stream (list_ascii_of_string " + 1")).
Proof.
  apply (ReadNumber_reads_back_decimal 2147483647 (list_ascii_of_string " + 1")).
  - unfold util.INT_MAX. lia.
  - reflexivity.
Defined.

(** X9. On a stream that is not good the readers extract nothing: [ReadName]
    returns the empty name, [ReadNumber] returns 0 and [CountSpaces] returns
    0, each leaving the text as it is with [failbit] raised. *)
Theorem readers_on_a_stream_that_is_not_good :
  forall s : istream,
  good s = false ->
  util.ReadName s = (EmptyString, set_fail s)
  /\ util.ReadNumber s = (Ok 0, set_fail s)
  /\ util.CountSpaces s = (0, set_fail s).
Proof.
  intros s G.
  unfold util.ReadName, util.ReadNumber, util.CountSpaces.
  cbn [util.ReadName_loop util.ReadNumber_loop util.CountSpaces_loop].
  unfold get. rewrite G. auto.
Qed.

Lemma readers_on_a_stream_that_is_not_good_witness :
  util.ReadNumber (snd (util.ReadName (istringstream "x")))
  = (Ok 0, mk_istream [] true true).
Proof.
  apply (readers_on_a_stream_that_is_not_good (snd (util.ReadName (istringstream "x")))).
  reflexivity.
Defined.

(** ** The order of the tokens *)

Lemma ReadNextToken_line_discipline (l : Lexer) :
  consistent l -> line_discipline l (ReadNextToken l).
Proof.
  apply (ReadNextToken_ind (fun l r => consistent l -> line_discipline l r)); clear l.
  - (* end of input *)
    intros l _ K. unfold line_discipline, consistent, ParseEOF.
    cbn [fst snd with_input start_of_line_ current_indent_].
    destruct (start_of_line_ l) eqn:S; cbn [negb].
    + destruct (0 <? current_indent_ l); cbn; rewrite S;
        repeat split; try congruence; discriminate.
    + pose proof (NextLine_fields (with_input l (snd (peek (input_ l)))))
        as (S' & _ & _ & _).
      cbn [with_current_token start_of_line_ current_indent_ line_indent_ current_token_
           structural].
      rewrite S'. repeat split; try congruence; try discriminate. auto.
  - (* a blank line *)
    intros l b _ _ S IH K.
    pose proof (NextLine_fields l) as (S' & _ & _ & _).
    destruct IH as (K' & IH); [unfold consistent; congruence|].
    split; [exact K'|]. intros R. destruct (IH R) as (H1 & H2 & H3 & _).
    repeat split; auto. congruence.
  - (* the end of a line *)
    intros l b _ _ S K.
    pose proof (NextLine_fields l) as (S' & _ & _ & _).
    unfold line_discipline, consistent.
    cbn [fst snd with_current_token start_of_line_ current_indent_ line_indent_
         current_token_ structural].
    rewrite S'. repeat split; try congruence; try discriminate. auto.
  - (* a comment *)
    intros l b _ _ IH K. apply IH. exact K.
  - (* spaces *)
    intros l b _ _ IH K.
    pose proof (spaces_skipped_fields l) as (S' & C' & _ & _).
    assert (K' : consistent (spaces_skipped l)).
    { unfold consistent. rewrite S', C'. intros S.
      assert (L' : line_indent_ (spaces_skipped l) = line_indent_ l).
      { unfold spaces_skipped. destruct (util.CountSpaces (input_ l)) as [n i].
        cbn [with_input start_of_line_]. rewrite S. reflexivity. }
      rewrite L'. exact (K S). }
    destruct (IH K') as (K'' & IH'). split; [exact K''|].
    rewrite S' in IH'. exact IH'.
  - (* pending indentation *)
    intros l c b _ _ _ S Q K. unfold line_discipline, consistent, ParseIndent.
    cbn [fst snd].
    destruct (Z.ltb_spec (current_indent_ l) (line_indent_ l)).
    + cbn. rewrite S. repeat split; try congruence; discriminate.
    + destruct (Z.ltb_spec (line_indent_ l) (current_indent_ l)); [|lia].
      cbn. rewrite S. repeat split; try congruence; discriminate.
  - (* a significant token *)
    intros l c b _ _ _ Pend K.
    pose proof (ParseToken_spec l) as (S & C & L & _ & T & _).
    assert (Q : current_indent_ l = line_indent_ l) by (destruct Pend; auto).
    unfold line_discipline, consistent.
    destruct (ParseToken l) as [[[]|e| |] l']; cbn [fst snd] in *;
      try (split; [rewrite S, C, L; exact K | discriminate]).
    specialize (T eq_refl).
    cbn [with_start_of_line start_of_line_ current_indent_ line_indent_ current_token_].
    rewrite T, C, L. repeat split; auto.
    intros _ E. rewrite E in T. discriminate T.
Qed.

(** X10. The lexer keeps its line discipline.  From a lexer whose counters agree
    within a line (as on construction), a call that returns leaves such a
    lexer; it raises [start_of_line_] exactly when the token it stores is
    [Newline], [Indent], [Dedent] or [Eof]; it stores any other token only
    with [current_indent_] equal to [line_indent_]; it stores [Newline] only
    when it started within a line, and [Indent], [Dedent] or [Eof] only when
    it started at the start of a line. *)
Theorem line_discipline_kept :
  (forall input : istream, consistent (Lexer_members input))
  /\ (forall (l l' : Lexer),
         consistent l ->
         ReadNextToken l = (Ok tt, l') ->
         consistent l'
         /\ start_of_line_ l' = structural (current_token_ l')
         /\ (structural (current_token_ l') = false ->
             current_indent_ l' = line_indent_ l')
         /\ (current_token_ l' = token_type.Newline -> start_of_line_ l = false)
         /\ (current_token_ l' = token_type.Indent
             \/ current_token_ l' = token_type.Dedent
             \/ current_token_ l' = token_type.Eof -> start_of_line_ l = true)).
Proof.
  split; [intros input; unfold consistent; discriminate|].
  intros l l' K R.
  pose proof (ReadNextToken_line_discipline l K) as (K' & H).
  rewrite R in K', H. cbn [fst snd] in *.
  destruct (H eq_refl) as (H1 & H2 & H3 & H4).
  repeat split; auto.
  - intros E. destruct (start_of_line_ l); [|reflexivity].
    exfalso. apply H3; auto.
  - intros E. destruct (start_of_line_ l); [reflexivity|].
    destruct (H4 eq_refl) as [N|N]; destruct E as [E|[E|E]]; rewrite E in N;
      discriminate.
Qed.

Lemma line_discipline_kept_witness :
  current_indent_ (snd (ReadNextToken (Lexer_members (istringstream "x"))))
  = line_indent_ (snd (ReadNextToken (Lexer_members (istringstream "x")))).
Proof.
  destruct (proj2 line_discipline_kept (Lexer_members (istringstream "x"))
              (snd (ReadNextToken (Lexer_members (istringstream "x")))))
    as (_ & _ & H & _).
  - unfold consistent. discriminate.
  - reflexivity.
  - apply H. reflexivity.
Defined.

Section TokenStream.

Variable Inv : Lexer -> Prop.

Hypothesis Inv_kept :
  forall l l' : Lexer, Inv l -> ReadNextToken l = (Ok tt, l') -> Inv l'.

(** A token of the stream comes from a call on a lexer that satisfies the
    invariant, and the tokens after it are the stream of the lexer left. *)
Lemma tokens_from_split (pre : list Token) :
  forall (n : nat) (l : Lexer) (t : Token) (post : list Token),
  Inv l ->
  tokens_from n l = pre ++ t :: post ->
  exists (l1 l2 : Lexer) (m : nat),
    Inv l1 /\ ReadNextToken l1 = (Ok tt, l2) /\ current_token_ l2 = t
    /\ tokens_from m l2 = post.
Proof.
  induction pre as [|t0 pre IH]; intros n l t post I H.
  - destruct n; [discriminate|]. cbn [tokens_from app] in H.
    destruct (ReadNextToken l) as [[[]|e| |] l'] eqn:E; try discriminate.
    injection H as Ht Hp. exists l, l', n. auto.
  - destruct n; [discriminate|]. cbn [tokens_from app] in H.
    destruct (ReadNextToken l) as [[[]|e| |] l'] eqn:E; try discriminate.
    injection H as Ht H. apply (IH n l' t post (Inv_kept l l' I E) H).
Qed.

End TokenStream.

Lemma consistent_kept (l l' : Lexer) :
  consistent l -> ReadNextToken l = (Ok tt, l') -> consistent l'.
Proof.
  intros K R. pose proof (ReadNextToken_line_discipline l K) as (K' & _).
  rewrite R in K'. exact K'.
Qed.

(** X11. In the token stream of any input, the first token is never [Newline];
    [Newline] only follows a token that is not structural (so never another
    [Newline], an [Indent] or a [Dedent]); and [Indent], [Dedent] and [Eof]
    only follow a structural token, never a token of the line itself. *)
Theorem token_order :
  forall (text : string) (n : nat),
  (forall (t : Token) (post : list Token),
      tokens n text = t :: post -> t <> token_type.Newline)
  /\ (forall (pre : list Token) (t1 t2 : Token) (post : list Token),
         tokens n text = pre ++ t1 :: t2 :: post ->
         (t2 = token_type.Newline -> structural t1 = false)
         /\ (t2 = token_type.Indent \/ t2 = token_type.Dedent \/ t2 = token_type.Eof
             -> structural t1 = true)).
Proof.
  intros text n.
  assert (K0 : consistent (Lexer_members (istringstream text)))
    by (unfold consistent; discriminate).
  split.
  - intros t post H. unfold tokens in H. destruct n; [discriminate|].
    cbn [tokens_from] in H.
    pose proof (ReadNextToken_line_discipline _ K0) as (_ & D).
    destruct (ReadNextToken (Lexer_members (istringstream text)))
      as [[[]|e| |] l'] eqn:E; try discriminate.
    injection H as <- _. destruct (D eq_refl) as (_ & _ & D3 & _).
    apply D3. reflexivity.
  - intros pre t1 t2 post H.
    destruct (tokens_from_split consistent consistent_kept pre n _ t1 (t2 :: post) K0 H)
      as (l1 & l2 & m & K1 & R1 & T1 & H2).
    pose proof (ReadNextToken_line_discipline l1 K1) as (K2 & D1).
    rewrite R1 in K2, D1. cbn [fst snd] in *.
    destruct (D1 eq_refl) as (S2 & _). rewrite T1 in S2.
    destruct m; [discriminate|]. cbn [tokens_from] in H2.
    pose proof (ReadNextToken_line_discipline l2 K2) as (_ & D2).
    destruct (ReadNextToken l2) as [[[]|e| |] l3] eqn:R2; try discriminate.
    injection H2 as T2 _. cbn [fst snd] in D2.
    destruct (D2 eq_refl) as (_ & _ & D3 & D4). rewrite T2 in D3, D4.
    split.
    + intros ->. destruct (structural t1); [|reflexivity].
      exfalso. apply D3; auto.
    + intros E. destruct (structural t1); [reflexivity|].
      destruct (D4 S2) as [N|N]; destruct E as [E|[E|E]]; rewrite E in N;
        discriminate N.
Qed.

Lemma token_order_witness :
  structural (token_type.Id "x") = false.
Proof.
  apply (proj2 (token_order ("x" ++ nl ++ "y") 4%nat) []
           (token_type.Id "x") token_type.Newline
           [token_type.Id "y"; token_type.Newline]); reflexivity.
Defined.

(** ** Calls that do not return *)

(** X12. A call of [ReadNextToken] that throws leaves [current_token_] as it was:
    after a failed [NextToken], [CurrentToken] is still the last token that
    was produced. *)
Theorem failed_call_keeps_current_token :
  forall (l l' : Lexer) (o : outcome unit),
  ReadNextToken l = (o, l') -> o <> Ok tt ->
  CurrentToken l' = CurrentToken l.
Proof.
  intros l l' o R. unfold CurrentToken.
  change l' with (snd (o, l')). change o with (fst (o, l')) at 1. rewrite <- R.
  clear R o l'.
  apply (ReadNextToken_ind (fun l r =>
           fst r <> Ok tt -> current_token_ (snd r) = current_token_ l)); clear l.
  - intros l _ H. cbn in H. congruence.
  - intros l b _ _ _ IH H. rewrite (IH H). apply NextLine_fields.
  - intros l b _ _ _ H. cbn in H. congruence.
  - intros l b _ _ IH H. rewrite (IH H). reflexivity.
  - intros l b _ _ IH H. rewrite (IH H). apply spaces_skipped_fields.
  - intros l c b _ _ _ _ _ H. cbn in H. congruence.
  - intros l c b _ _ _ _ H.
    pose proof (ParseToken_spec l) as (_ & _ & _ & _ & _ & T).
    destruct (ParseToken l) as [[[]|e| |] l']; cbn [fst snd] in *;
      try congruence; apply T; discriminate.
Qed.

Lemma failed_call_keeps_current_token_witness :
  CurrentToken (snd (ReadNextToken (snd (Lexer_new (istringstream ("x " ++ dq ++ "a"))))))
  = token_type.Id "x".
Proof.
  apply (failed_call_keeps_current_token
           (snd (Lexer_new (istringstream ("x " ++ dq ++ "a"))))
           _ (Throw (runtime_error "Failed to parse string : a"))).
  - reflexivity.
  - discriminate.
Defined.

(** ** Comments and spaces *)

Lemma skip_to_LF_no_LF (body : list ascii) :
  no_LF body = true -> skip_to_LF body = [].
Proof.
  induction body as [|c body IH]; intros H; [reflexivity|].
  cbn [no_LF forallb] in H. apply andb_prop in H as [Hc H].
  cbn [skip_to_LF]. destruct (Ascii.eqb c LF); [discriminate|]. apply IH, H.
Qed.

(** X13. A comment is invisible wherever a token may start: with [#] ahead, the
    call returns what it returns on the input without the comment, that is
    from the line feed that ends the comment, or, when the comment runs to
    the end of the input, from the exhausted stream. *)
Theorem comment_is_skipped :
  forall (l : Lexer) (body : list ascii),
  good (input_ l) = true -> no_LF body = true ->
  (forall rest : list ascii,
      buf (input_ l) = HASH :: body ++ LF :: rest ->
      ReadNextToken l = ReadNextToken (with_input l (stream (LF :: rest))))
  /\ (buf (input_ l) = HASH :: body ->
      ReadNextToken l = ReadNextToken (with_input l ended)).
Proof.
  intros l body G N. split.
  - intros rest B. rewrite (ReadNextToken_HASH l _ G B). f_equal.
    unfold comment_skipped. f_equal. fold (comment_skipped l).
    change (ParseComment_loop (S (remaining l)) (input_ l))
      with (input_ (comment_skipped l)).
    rewrite (comment_skipped_input l _ G B). cbn [skip_to_LF].
    change (Ascii.eqb HASH LF) with false. cbn iota.
    rewrite (skip_to_LF_app body rest N). reflexivity.
  - intros B. rewrite (ReadNextToken_HASH l _ G B). f_equal.
    unfold comment_skipped. f_equal. fold (comment_skipped l).
    change (ParseComment_loop (S (remaining l)) (input_ l))
      with (input_ (comment_skipped l)).
    rewrite (comment_skipped_input l _ G B). cbn [skip_to_LF].
    change (Ascii.eqb HASH LF) with false. cbn iota.
    rewrite (skip_to_LF_no_LF body N). reflexivity.
Qed.

Lemma comment_is_skipped_witness :
  ReadNextToken (snd (Lexer_new (istringstream ("x # note" ++ nl ++ "y"))))
  = ReadNextToken
      (with_input (snd (Lexer_new (istringstream ("x # note" ++ nl ++ "y"))))
         (stream (list_ascii_of_string (nl ++ "y")))).
Proof.
  rewrite ReadNextToken_SPACE with (b := list_ascii_of_string ("# note" ++ nl ++ "y"));
    [|reflexivity|reflexivity].
  apply (proj1 (comment_is_skipped
                  (spaces_skipped (snd (Lexer_new (istringstream ("x # note" ++ nl ++ "y")))))
                  (list_ascii_of_string " note") eq_refl eq_refl)).
  reflexivity.
Defined.

Lemma skip_spaces_repeat (k : nat) (c : ascii) (r : list ascii) :
  c <> SPACE -> skip_spaces (repeat SPACE k ++ c :: r) = c :: r.
Proof.
  intros Hc. induction k as [|k IH]; cbn [repeat app skip_spaces].
  - destruct (Ascii.eqb_spec c SPACE); [contradiction | reflexivity].
  - exact IH.
Qed.

(** X14. Within a line, spaces between tokens do not matter: with one or more
    spaces ahead and a further character after them, the call returns what
    it returns on the input without those spaces. *)
Theorem spaces_within_a_line_are_skipped :
  forall (l : Lexer) (k : nat) (c : ascii) (r : list ascii),
  good (input_ l) = true ->
  buf (input_ l) = repeat SPACE (S k) ++ c :: r ->
  c <> SPACE ->
  start_of_line_ l = false ->
  ReadNextToken l = ReadNextToken (with_input l (stream (c :: r))).
Proof.
  intros l k c r G B Hc Hs.
  rewrite (ReadNextToken_SPACE l (repeat SPACE k ++ c :: r) G B). f_equal.
  pose proof (spaces_skipped_input l _ G B) as I.
  rewrite (skip_spaces_repeat (S k) c r Hc) in I. cbn [stream_after] in I.
  rewrite <- I. unfold spaces_skipped.
  destruct (util.CountSpaces (input_ l)) as [n i].
  cbn [with_input start_of_line_ input_]. rewrite Hs. reflexivity.
Qed.

Lemma spaces_within_a_line_are_skipped_witness :
  ReadNextToken (snd (Lexer_new (istringstream "x   = 1")))
  = ReadNextToken
      (with_input (snd (Lexer_new (istringstream "x   = 1")))
         (stream (list_ascii_of_string "= 1"))).
Proof.
  apply (spaces_within_a_line_are_skipped
           (snd (Lexer_new (istringstream "x   = 1"))) 2 "="%char
           (list_ascii_of_string " 1")); try reflexivity.
  discriminate.
Defined.

(** ** The values of string literals *)

Lemma backslash_free_push_back (line : string) (c : ascii) :
  backslash_free (push_back line c)
  = backslash_free line && negb (Ascii.eqb c BACKSLASH).
Proof.
  unfold push_back. induction line as [|a line IH]; cbn [append backslash_free].
  - rewrite andb_true_r. reflexivity.
  - rewrite IH, andb_assoc. reflexivity.
Qed.

Lemma ReadString_loop_backslash_free :
  forall (n : nat) (s : istream) (first : ascii) (c : option ascii) (line : string)
         (c' : option ascii) (line' : string) (s' : istream),
  backslash_free line = true ->
  util.ReadString_loop n first c line s = (Ok (c', line'), s') ->
  backslash_free line' = true.
Proof.
  induction n as [|n IH]; intros s first c line c' line' s' F H; [discriminate H|].
  cbn [util.ReadString_loop] in H.
  destruct (get s) as [[c1|] s1]; [|injection H as _ <- _; exact F].
  destruct (Ascii.eqb_spec c1 BACKSLASH) as [->|N1].
  - destruct (get s1) as [[next|] s2]; [|discriminate H].
    apply IH in H; [exact H|].
    destruct (Ascii.eqb next DQUOTE);
      [rewrite backslash_free_push_back, F; reflexivity|].
    destruct (Ascii.eqb next SQUOTE);
      [rewrite backslash_free_push_back, F; reflexivity|].
    destruct (Ascii.eqb next "n");
      [rewrite backslash_free_push_back, F; reflexivity|].
    destruct (Ascii.eqb next "t");
      [rewrite backslash_free_push_back, F; reflexivity|].
    exact F.
  - destruct (Ascii.eqb c1 first); [injection H as _ <- _; exact F|].
    apply IH in H; [exact H|].
    rewrite backslash_free_push_back, F.
    destruct (Ascii.eqb_spec c1 BACKSLASH); [contradiction | reflexivity].
Qed.

Lemma ReadString_backslash_free (s s' : istream) (v : string) :
  util.ReadString s = (Ok v, s') -> backslash_free v = true.
Proof.
  unfold util.ReadString. destruct (get_int s) as [i s1].
  destruct (util.ReadString_loop _ _ _ _ _) as [[[[c|] line]|e| |] s2] eqn:E;
    try discriminate.
  destruct (negb _); [discriminate|]. intros [= <- _].
  exact (ReadString_loop_backslash_free _ _ _ _ EmptyString _ _ _ eq_refl E).
Qed.

Lemma encode_literal_items (q : ascii) (v : string) :
  q = DQUOTE \/ q = SQUOTE ->
  backslash_free v = true ->
  let body := map (fun c => if Ascii.eqb c q then Escape c else Plain c)
                (list_ascii_of_string v) in
  flat_map encode body = encode_literal q v
  /\ Forall (plain_ok q) body
  /\ spec_value body = v.
Proof.
  intros Hq. unfold encode_literal.
  induction v as [|c v IH]; intros F; cbn [list_ascii_of_string map flat_map].
  - repeat split. constructor.
  - cbn [backslash_free] in F. apply andb_prop in F as [Fc F].
    destruct (IH F) as (H1 & H2 & H3).
    destruct (Ascii.eqb_spec c q) as [->|Hc]; cbn [encode app spec_value plain_ok].
    + rewrite H1, H3. repeat split.
      * constructor; [exact I | exact H2].
      * destruct Hq as [-> | ->]; reflexivity.
    + rewrite H1, H3. repeat split. constructor; [|exact H2].
      split; [|exact Hc]. intros ->. discriminate Fc.
Qed.

(** X15. The values of [String] tokens are exactly the strings without a
    backslash.  [ReadString] never returns a value that contains one; and
    every string without a backslash is the value of a literal, the one that
    escapes its own quote and writes every other character as it is. *)
Theorem string_values_are_backslash_free :
  (forall (s s' : istream) (v : string),
      util.ReadString s = (Ok v, s') -> backslash_free v = true)
  /\ (forall (q : ascii) (v : string) (rest : list ascii),
         q = DQUOTE \/ q = SQUOTE ->
         backslash_free v = true ->
         util.ReadString (stream (q :: encode_literal q v ++ q :: rest))
         = (Ok v, stream rest)).
Proof.
  split; [exact ReadString_backslash_free|].
  intros q v rest Hq F.
  destruct (encode_literal_items q v Hq F) as (H1 & H2 & H3).
  assert (Hfirst : q <> BACKSLASH) by (destruct Hq; subst; discriminate).
  unfold util.ReadString, get_int, stream. rewrite get_good.
  rewrite int_to_char_to_int_type. rewrite <- H1.
  match goal with
  | |- context [flat_map encode ?b] =>
      fold (stream (flat_map encode b ++ q :: rest));
      rewrite (ReadString_loop_items q rest b Hfirst H2) by (simpl; lia)
  end.
  rewrite Ascii.eqb_refl, H3. reflexivity.
Qed.

Lemma string_values_are_backslash_free_witness :
  util.ReadString (istringstream (dq ++ "say \" ++ dq ++ "hi\" ++ dq ++ dq))
  = (Ok ("say " ++ dq ++ "hi" ++ dq)%string, stream []).
Proof.
  apply (proj2 string_values_are_backslash_free DQUOTE
           ("say " ++ dq ++ "hi" ++ dq)%string []).
  - left. reflexivity.
  - reflexivity.
Defined.

(** ** The tokens the lexer stores *)

Lemma ReadNumber_range (b : list ascii) (v : Z) (s' : istream) :
  util.ReadNumber (stream b) = (Ok v, s') -> 0 <= v <= util.INT_MAX.
Proof.
  unfold util.ReadNumber. cbn [buf stream].
  rewrite ReadNumber_loop_span by lia. cbn [append].
  destruct (span_spec util.IsNum b) as (_ & H2 & _).
  destruct (fst (span util.IsNum b)) as [|d ds] eqn:D.
  - intros [= <- _]. unfold util.INT_MAX. lia.
  - unfold util.stoi. cbn [string_of_list_ascii].
    change (String d (string_of_list_ascii ds)) with (string_of_list_ascii (d :: ds)).
    destruct (Z.leb_spec (util.digits_value 0 (string_of_list_ascii (d :: ds)))
                util.INT_MAX); [|discriminate].
    intros [= <- _]. split; [|assumption].
    apply (digits_value_nonneg (d :: ds) H2 0). lia.
Qed.

Lemma KeyWords_well_formed (name : string) (t : Token) :
  util.find util.KeyWords name = Some t -> well_formed t.
Proof.
  intros H. apply find_In in H. simpl in H.
  repeat (destruct H as [<-|H]; [exact I|]). contradiction.
Qed.

Lemma DualSymbols_well_formed (pair : string) (t : Token) :
  util.find util.DualSymbols pair = Some t -> well_formed t.
Proof.
  intros H. apply find_In in H. simpl in H.
  repeat (destruct H as [<-|H]; [exact I|]). contradiction.
Qed.

Lemma ParseToken_well_formed (l : Lexer) (c : ascii) (b : list ascii) :
  good (input_ l) = true -> buf (input_ l) = c :: b -> significant c ->
  fst (ParseToken l) = Ok tt ->
  well_formed (current_token_ (snd (ParseToken l))).
Proof.
  intros G B Sig. unfold ParseToken.
  rewrite (good_stream _ G), B, peek_stream. cbn [with_input input_].
  rewrite int_to_char_to_int_type.
  destruct (util.IsNum c) eqn:EN.
  { destruct (util.ReadNumber (stream (c :: b))) as [[v|e| |] i] eqn:R;
      cbn [fst snd]; try discriminate.
    intros _. exact (ReadNumber_range _ _ _ R). }
  destruct (util.IsAlNumLL c) eqn:EA.
  { intros _. unfold ParseName, util.ReadName. cbn [with_input input_ buf stream snd].
    rewrite ReadName_loop_span by lia. cbn [append span]. rewrite EA.
    destruct (span_spec util.IsAlNumLL b) as (_ & H2 & _).
    destruct (span util.IsAlNumLL b) as [x y]. cbn [fst snd] in *.
    destruct (util.find util.KeyWords (string_of_list_ascii (c :: x))) as [t|] eqn:F.
    - exact (KeyWords_well_formed _ _ F).
    - cbn [with_current_token current_token_ well_formed].
      split; [exact F|]. rewrite list_ascii_of_string_of_list_ascii. auto. }
  destruct (Ascii.eqb c DQUOTE || Ascii.eqb c SQUOTE) eqn:EQ.
  { destruct (util.ReadString (stream (c :: b))) as [[v|e| |] i] eqn:R;
      cbn [fst snd]; try discriminate.
    intros _. exact (ReadString_backslash_free _ _ _ R). }
  intros _. apply orb_false_elim in EQ as [EQ1 EQ2].
  apply Ascii.eqb_neq in EQ1, EQ2. cbn [snd].
  unfold ParseChar. cbn [with_input input_]. unfold get_int, stream at 1.
  rewrite get_good. rewrite int_to_char_to_int_type.
  destruct (peek {| buf := b; eofbit := false; failbit := false |}) as [p i].
  destruct (util.find util.DualSymbols _) as [t|] eqn:F.
  - destruct (match get i with | (Some c0, s') => (to_int_type c0, s')
                               | (None, s') => (EOF, s') end) as [g3 i3].
    exact (DualSymbols_well_formed _ _ F).
  - cbn. auto.
Qed.

(** X16. Every token the lexer stores is well formed: a [Number] lies between 0
    and [INT_MAX]; an [Id] is a non-empty name that does not start with a
    digit and is none of the twelve keywords (a keyword always gives its own
    token); a [String] holds no backslash; a [Char] is none of the characters
    that start another kind of token. *)
Theorem stored_tokens_are_well_formed :
  forall (l l' : Lexer),
  ReadNextToken l = (Ok tt, l') -> well_formed (current_token_ l').
Proof.
  intros l l' R. change l' with (snd (Ok tt, l')). rewrite <- R.
  assert (H : fst (ReadNextToken l) = Ok tt) by (rewrite R; reflexivity).
  clear R l'. revert H.
  apply (ReadNextToken_ind (fun l r =>
           fst r = Ok tt -> well_formed (current_token_ (snd r)))); clear l.
  - intros l _ _. unfold ParseEOF. cbn [snd with_input start_of_line_ current_indent_].
    destruct (start_of_line_ l); cbn [negb]; [|exact I].
    destruct (0 <? current_indent_ l); exact I.
  - auto.
  - intros; exact I.
  - auto.
  - auto.
  - intros l c b _ _ _ _ Q _. unfold ParseIndent. cbn [snd].
    destruct (Z.ltb_spec (current_indent_ l) (line_indent_ l)); [exact I|].
    destruct (Z.ltb_spec (line_indent_ l) (current_indent_ l)); [exact I|]. lia.
  - intros l c b G B Sig _ H.
    pose proof (ParseToken_well_formed l c b G B Sig) as W.
    destruct (ParseToken l) as [[[]|e| |] l']; cbn [fst snd] in *; try discriminate.
    exact (W eq_refl).
Qed.

Lemma stored_tokens_are_well_formed_witness :
  well_formed (token_type.Id "classes").
Proof.
  apply (stored_tokens_are_well_formed (Lexer_members (istringstream "classes = 1"))
           (snd (ReadNextToken (Lexer_members (istringstream "classes = 1"))))).
  reflexivity.
Defined.

(** ** Scanning ends *)

Lemma peek_buf (s : istream) : buf (snd (peek s)) = buf s.
Proof.
  destruct (peek_spec s) as [(c & b & _ & _ & E) | (_ & _ & E & _)];
    [rewrite E; reflexivity | exact E].
Qed.

Lemma pending_bounds (l : Lexer) :
  0 <= pending l <= Z.max 0 (line_indent_ l - current_indent_ l).
Proof. unfold pending. destruct (_ && _); lia. Qed.

Lemma getline_remaining (s : istream) :
  (List.length (buf (snd (getline s))) <= List.length (buf s))%nat.
Proof.
  unfold getline. destruct (good s); [|cbn; lia].
  destruct (buf s) as [|c b] eqn:B; [cbn; rewrite B; cbn; lia|].
  pose proof (split_line_length (c :: b) EmptyString) as [H _].
  destruct (split_line (c :: b) EmptyString) as [[line r] found].
  cbn [fst snd] in H. destruct found; cbn; exact H.
Qed.

Lemma NextLine_remaining_le (l : Lexer) :
  (remaining (NextLine l) <= remaining l)%nat.
Proof.
  unfold NextLine, util.ReadLine, remaining.
  pose proof (getline_remaining (input_ l)) as H.
  destruct (getline (input_ l)) as [s i]. exact H.
Qed.

Lemma NextLine_potential (l : Lexer) :
  0 <= current_indent_ l ->
  potential (NextLine l)
  = 3 * Z.of_nat (remaining (NextLine l)) + current_indent_ l.
Proof.
  intros C. pose proof (NextLine_fields l) as (S' & L' & C' & _).
  pose proof (pending_bounds (NextLine l)) as P.
  unfold potential. rewrite S', C' in *. rewrite L' in P. lia.
Qed.

Lemma spaces_skipped_potential (l : Lexer) (b : list ascii) :
  good (input_ l) = true -> buf (input_ l) = SPACE :: b ->
  uint32_fields l ->
  potential (spaces_skipped l) < potential l /\ uint32_fields (spaces_skipped l).
Proof.
  intros G B [Hc Hl].
  pose proof (pending_bounds l) as Pl.
  pose proof (pending_bounds (spaces_skipped l)) as Ps.
  pose proof (spaces_skipped_fields l) as (S' & C' & _ & _).
  assert (K : exists k : nat,
             Z.of_nat (remaining l) = Z.of_nat k + Z.of_nat (remaining (spaces_skipped l))
             /\ (1 <= k)%nat
             /\ 0 <= line_indent_ (spaces_skipped l) < uint32_max
             /\ (start_of_line_ l = true ->
                 line_indent_ (spaces_skipped l) <= Z.of_nat k / 2)
             /\ (start_of_line_ l = false ->
                 line_indent_ (spaces_skipped l) = line_indent_ l)).
  { destruct (span_spec is_space (SPACE :: b)) as (H1 & _ & _).
    exists (List.length (fst (span is_space (SPACE :: b)))).
    unfold spaces_skipped, util.CountSpaces, remaining.
    rewrite (good_stream _ G), B. cbn [buf stream].
    rewrite CountSpaces_loop_span by (first [lia | split; [lia | reflexivity]]).
    cbn [with_input start_of_line_ input_].
    assert (E : List.length (SPACE :: b)
                = (List.length (fst (span is_space (SPACE :: b)))
                   + List.length (snd (span is_space (SPACE :: b))))%nat).
    { rewrite <- H1 at 1. apply length_app. }
    set (k := List.length (fst (span is_space (SPACE :: b)))) in *.
    assert (Hk : (1 <= k)%nat) by (subst k; cbn; destruct (span is_space b); cbn; lia).
    assert (Hr : List.length (buf (stream_after (snd (span is_space (SPACE :: b)))))
                 = List.length (snd (span is_space (SPACE :: b))))
      by apply stream_after_length.
    destruct (start_of_line_ l) eqn:S;
      cbn [with_line_indent with_input input_ line_indent_]; rewrite Hr;
      (split; [lia|]); (split; [exact Hk|]).
    - split; [apply Z.mod_pos_bound; reflexivity|]. split; [|discriminate].
      intros _. rewrite Z.add_0_l.
      assert (0 <= Z.of_nat k mod util.size_max <= Z.of_nat k).
      { split; [apply Z.mod_pos_bound; reflexivity|].
        apply Z.mod_le; [lia | reflexivity]. }
      assert (0 <= (Z.of_nat k mod util.size_max) / 2 <= Z.of_nat k / 2).
      { split; [apply Z.div_pos; lia | apply Z.div_le_mono; lia]. }
      etransitivity; [apply Z.mod_le; [lia | reflexivity] | lia].
    - split; [exact Hl|]. split; [discriminate | reflexivity]. }
  destruct K as (k & E & Hk & Lr & L1 & L2).
  split; [|unfold uint32_fields; rewrite C'; auto].
  assert (Z.of_nat k / 2 <= Z.of_nat k) by (apply Z.div_le_upper_bound; lia).
  unfold potential. unfold pending in Ps, Pl |- *. rewrite S', C' in Ps |- *.
  destruct (start_of_line_ l); [specialize (L1 eq_refl) | specialize (L2 eq_refl)];
    cbn [andb] in *.
  - destruct (negb (eof_ahead (spaces_skipped l))), (negb (eof_ahead l)); lia.
  - lia.
Qed.

Lemma ReadString_loop_remaining :
  forall (n : nat) (s : istream) (first : ascii) (c : option ascii) (line : string),
  (List.length (buf (snd (util.ReadString_loop n first c line s)))
   <= List.length (buf s))%nat.
Proof.
  induction n as [|n IH]; intros s first c line; [cbn; lia|].
  cbn [util.ReadString_loop].
  destruct (get_spec s) as [(c1 & b1 & G1 & B1 & E1) | (E1 & _ & B1 & _)].
  - rewrite E1, B1. destruct (Ascii.eqb c1 BACKSLASH).
    + destruct (get_spec (set_buf s b1)) as [(c2 & b2 & G2 & B2 & E2) | (E2 & _ & B2 & _)].
      * rewrite E2. cbn [buf set_buf] in B2.
        etransitivity; [apply IH|]. cbn [buf set_buf]. subst b1. cbn. lia.
      * destruct (get (set_buf s b1)) as [o i]. cbn [fst snd] in *. subst o.
        cbn [snd]. rewrite B2. cbn. lia.
    + destruct (Ascii.eqb c1 first); [cbn; lia|].
      etransitivity; [apply IH|]. cbn. lia.
  - destruct (get s) as [o i]. cbn [fst snd] in *. subst o. cbn [snd]. rewrite B1. lia.
Qed.

Lemma span_snd_length (f : ascii -> bool) (b : list ascii) :
  (List.length (snd (span f b)) <= List.length b)%nat.
Proof.
  destruct (span_spec f b) as (H & _). rewrite <- H at 2. rewrite length_app. lia.
Qed.

(** A token of [ParseToken] takes at least one character. *)
Lemma ParseToken_consumes (l : Lexer) (c : ascii) (b : list ascii) :
  good (input_ l) = true -> buf (input_ l) = c :: b ->
  (remaining (snd (ParseToken l)) <= List.length b)%nat.
Proof.
  intros G B. unfold ParseToken, remaining.
  rewrite (good_stream _ G), B, peek_stream. cbn [with_input input_].
  rewrite int_to_char_to_int_type.
  destruct (util.IsNum c) eqn:EN.
  { assert (H : (List.length (buf (snd (util.ReadNumber (stream (c :: b)))))
                 <= List.length b)%nat).
    { unfold util.ReadNumber. cbn [buf stream].
      rewrite ReadNumber_loop_span by lia. cbn [span]. rewrite EN.
      pose proof (span_snd_length util.IsNum b).
      destruct (span util.IsNum b) as [x y]. cbn [fst snd append] in *.
      cbn [string_of_list_ascii snd]. rewrite stream_after_length. exact H. }
    destruct (util.ReadNumber (stream (c :: b))) as [[v|e| |] i]; exact H. }
  destruct (util.IsAlNumLL c) eqn:EA.
  { unfold ParseName, util.ReadName. cbn [with_input input_ buf stream snd].
    rewrite ReadName_loop_span by lia. cbn [span]. rewrite EA.
    pose proof (span_snd_length util.IsAlNumLL b).
    destruct (span util.IsAlNumLL b) as [x y]. cbn [fst snd] in *.
    destruct (util.find util.KeyWords _); cbn [with_current_token with_input input_];
      rewrite stream_after_length; exact H. }
  destruct (Ascii.eqb c DQUOTE || Ascii.eqb c SQUOTE).
  { assert (H : (List.length (buf (snd (util.ReadString (stream (c :: b)))))
                 <= List.length b)%nat).
    { unfold util.ReadString, get_int, stream. rewrite get_good.
      pose proof (ReadString_loop_remaining
                    (S (List.length (buf {| buf := b; eofbit := false; failbit := false |})))
                    {| buf := b; eofbit := false; failbit := false |}
                    (int_to_char (to_int_type c)) None EmptyString) as H.
      destruct (util.ReadString_loop _ _ _ _ _) as [[[[c'|] line]|e| |] s2];
        cbn [snd buf] in *; try exact H.
      destruct (negb _); exact H. }
    destruct (util.ReadString (stream (c :: b))) as [[v|e| |] i]; exact H. }
  cbn [snd]. rewrite (ParseChar_spec (with_input l (stream (c :: b))) c b eq_refl eq_refl).
  destruct b as [|d b']; [cbn; lia|].
  destruct (spec_dual c d); cbn; lia.
Qed.

Lemma Token_eqb_Eof (t : Token) :
  Token_eqb t token_type.Eof = false -> t <> token_type.Eof.
Proof. intros H ->. discriminate H. Qed.

Lemma eof_ahead_significant (l : Lexer) (c : ascii) (b : list ascii) :
  good (input_ l) = true -> buf (input_ l) = c :: b -> significant c ->
  eof_ahead l = false.
Proof.
  intros G B (H & _). unfold eof_ahead.
  rewrite (good_stream _ G), B, peek_stream. cbn [fst].
  rewrite int_to_char_to_int_type. apply Z.eqb_neq, H.
Qed.

(** Every call that stores a token other than [Eof] lowers the measure. *)
Lemma ReadNextToken_potential (l : Lexer) :
  uint32_fields l ->
  fst (ReadNextToken l) = Ok tt ->
  current_token_ (snd (ReadNextToken l)) <> token_type.Eof ->
  potential (snd (ReadNextToken l)) < potential l.
Proof.
  apply (ReadNextToken_ind (fun l r =>
           uint32_fields l -> fst r = Ok tt ->
           current_token_ (snd r) <> token_type.Eof ->
           potential (snd r) < potential l)); clear l.
  - (* end of input *)
    intros l E [Hc Hl] _.
    set (l0 := with_input l (snd (peek (input_ l)))).
    assert (R0 : remaining l0 = remaining l)
      by (unfold remaining, l0; cbn [with_input input_]; rewrite peek_buf; reflexivity).
    assert (Pl : pending l = 0).
    { unfold pending, eof_ahead. rewrite E. change (EOF =? EOF) with true.
      cbn [negb]. rewrite andb_false_r. reflexivity. }
    assert (E0 : eof_ahead l0 = true).
    { unfold eof_ahead, l0. cbn [with_input input_]. rewrite (peek_again _ E).
      reflexivity. }
    unfold ParseEOF. change (start_of_line_ l0) with (start_of_line_ l).
    change (current_indent_ l0) with (current_indent_ l). cbn [snd].
    destruct (start_of_line_ l) eqn:S; cbn [negb].
    + destruct (Z.ltb_spec 0 (current_indent_ l));
        [|intros H'; exfalso; apply H'; reflexivity].
      intros _.
      set (l1 := with_current_token
                   (with_current_indent l0 ((current_indent_ l - 1) mod uint32_max))
                   token_type.Dedent).
      assert (P1 : pending l1 = 0).
      { unfold pending. change (eof_ahead l1) with (eof_ahead l0). rewrite E0.
        cbn [negb]. rewrite andb_false_r. reflexivity. }
      unfold potential. rewrite P1, Pl.
      change (remaining l1) with (remaining l0).
      change (current_indent_ l1) with ((current_indent_ l - 1) mod uint32_max).
      change (start_of_line_ l1) with (start_of_line_ l).
      rewrite R0, S, Z.mod_small by lia. lia.
    + intros _.
      pose proof (NextLine_potential l0 (proj1 Hc)) as P.
      pose proof (NextLine_remaining_le l0) as R.
      assert (Q : potential (with_current_token (NextLine l0) token_type.Newline)
                  = potential (NextLine l0)) by reflexivity.
      rewrite Q, P. unfold potential. rewrite Pl, S.
      change (current_indent_ l0) with (current_indent_ l). lia.
  - (* a blank line *)
    intros l b G B S IH [Hc Hl] R T.
    pose proof (NextLine_fields l) as (S' & L' & C' & _).
    assert (F : uint32_fields (NextLine l)).
    { unfold uint32_fields. rewrite C', L'. pose proof uint32_max_pos. lia. }
    specialize (IH F R T).
    pose proof (NextLine_potential l (proj1 Hc)) as P.
    pose proof (NextLine_remaining l G ltac:(congruence)) as Rm.
    pose proof (pending_bounds l). unfold potential at 2. rewrite S. lia.
  - (* the end of a line *)
    intros l b G B S [Hc Hl] _ _. cbn [snd].
    pose proof (NextLine_potential l (proj1 Hc)) as P.
    pose proof (NextLine_remaining l G ltac:(congruence)) as Rm.
    pose proof (pending_bounds l).
    assert (Q : potential (with_current_token (NextLine l) token_type.Newline)
                = potential (NextLine l)) by reflexivity.
    rewrite Q, P. unfold potential. rewrite S. lia.
  - (* a comment *)
    intros l b G B IH F R T. specialize (IH F R T).
    pose proof (ParseComment_remaining l HASH b G B ltac:(discriminate)) as Rm.
    fold (comment_skipped l) in Rm.
    pose proof (pending_bounds (comment_skipped l)) as Pc.
    assert (Q : pending (comment_skipped l) <= pending l).
    { unfold pending. change (start_of_line_ (comment_skipped l)) with (start_of_line_ l).
      change (line_indent_ (comment_skipped l)) with (line_indent_ l).
      change (current_indent_ (comment_skipped l)) with (current_indent_ l).
      assert (E : eof_ahead l = false).
      { unfold eof_ahead. rewrite (good_stream _ G), B. reflexivity. }
      rewrite E. destruct (start_of_line_ l); cbn [andb negb]; [|lia].
      destruct (eof_ahead (comment_skipped l)); cbn [negb]; lia. }
    unfold potential in *.
    change (start_of_line_ (comment_skipped l)) with (start_of_line_ l) in *.
    change (current_indent_ (comment_skipped l)) with (current_indent_ l) in *.
    lia.
  - (* spaces *)
    intros l b G B IH F R T.
    destruct (spaces_skipped_potential l b G B F) as [P F'].
    specialize (IH F' R T). lia.
  - (* pending indentation *)
    intros l c b G B Sig S Q [Hc Hl] _ _.
    pose proof (eof_ahead_significant l c b G B Sig) as E.
    unfold ParseIndent. cbn [snd].
    destruct (Z.ltb_spec (current_indent_ l) (line_indent_ l)).
    + unfold potential, pending, eof_ahead in *.
      cbn [with_current_token with_current_indent start_of_line_ current_indent_
           line_indent_ input_ remaining].
      unfold remaining. cbn [with_current_token with_current_indent input_].
      rewrite E, S. cbn [andb negb]. rewrite Z.mod_small by lia. lia.
    + destruct (Z.ltb_spec (line_indent_ l) (current_indent_ l)); [|lia].
      unfold potential, pending, eof_ahead in *.
      cbn [with_current_token with_current_indent start_of_line_ current_indent_
           line_indent_ input_ remaining].
      unfold remaining. cbn [with_current_token with_current_indent input_].
      rewrite E, S. cbn [andb negb]. rewrite Z.mod_small by lia. lia.
  - (* a significant token *)
    intros l c b G B Sig Pend [Hc Hl] R _.
    pose proof (ParseToken_consumes l c b G B) as Rm.
    pose proof (ParseToken_spec l) as (_ & C & _).
    pose proof (pending_bounds l).
    destruct (ParseToken l) as [[[]|e| |] l']; cbn [fst snd] in *; try discriminate.
    assert (P' : potential (with_start_of_line l' false)
                 = 3 * Z.of_nat (remaining l') + current_indent_ l' + 1)
      by (unfold potential, pending, remaining;
          cbn [with_start_of_line start_of_line_ current_indent_ input_ andb]; lia).
    assert (Rl : remaining l = S (List.length b)) by (unfold remaining; rewrite B; reflexivity).
    rewrite P'. unfold potential. rewrite Rl, C.
    destruct (start_of_line_ l); lia.
Qed.

Lemma potential_nonneg (l : Lexer) : uint32_fields l -> 0 <= potential l.
Proof.
  intros [Hc Hl]. pose proof (pending_bounds l). unfold potential.
  destruct (start_of_line_ l); lia.
Qed.

Lemma scan_from_ends (n : nat) :
  forall l, uint32_fields l -> potential l < Z.of_nat n ->
            scan_from n l <> OutOfFuel.
Proof.
  induction n as [|n IH]; intros l F P.
  - pose proof (potential_nonneg l F). lia.
  - cbn [scan_from].
    pose proof (ReadNextToken_total l) as T.
    pose proof (ReadNextToken_indent_effect l F) as [F' _].
    pose proof (ReadNextToken_potential l F) as D.
    destruct (ReadNextToken l) as [[[]|e| |] l']; cbn [fst snd] in *;
      try discriminate; [|congruence].
    destruct (Token_eqb (current_token_ l') token_type.Eof) eqn:E; [discriminate|].
    specialize (D eq_refl (Token_eqb_Eof _ E)).
    specialize (IH l' F' ltac:(lia)).
    destruct (scan_from n l'); try discriminate. congruence.
Qed.

Lemma scan_from_length (n : nat) :
  forall l ts, uint32_fields l -> scan_from n l = Ok ts ->
               Z.of_nat (List.length ts) <= potential l + 1.
Proof.
  induction n as [|n IH]; intros l ts F; [discriminate|].
  cbn [scan_from].
  pose proof (ReadNextToken_indent_effect l F) as [F' _].
  pose proof (ReadNextToken_potential l F) as D.
  destruct (ReadNextToken l) as [[[]|e| |] l']; cbn [fst snd] in *;
    try discriminate.
  destruct (Token_eqb (current_token_ l') token_type.Eof) eqn:E.
  - intros [= <-]. pose proof (potential_nonneg l F). cbn [List.length]. lia.
  - specialize (D eq_refl (Token_eqb_Eof _ E)).
    destruct (scan_from n l') as [ts'| | |] eqn:Sc; try discriminate.
    intros [= <-]. specialize (IH l' ts' F' Sc).
    cbn [List.length]. lia.
Qed.

Lemma potential_of_text (text : string) :
  potential (Lexer_members (istringstream text)) = 3 * Z.of_nat (String.length text)
  /\ uint32_fields (Lexer_members (istringstream text)).
Proof.
  split.
  - unfold potential, pending, remaining.
    cbn [Lexer_members istringstream input_ buf start_of_line_ current_indent_
         line_indent_].
    rewrite Z.sub_diag. change (Z.max 0 0) with 0.
    assert (L : List.length (list_ascii_of_string text) = String.length text).
    { induction text as [|c t IHt]; cbn; congruence. }
    rewrite L. destruct (_ && _); lia.
  - unfold uint32_fields. cbn. split; split; try lia; reflexivity.
Qed.

(** X17. Scanning a text ends.  With one call of [NextToken] more than
    three times the number of characters of the text, the token stream has
    reached [Eof], or a call has thrown or has read an uninitialised
    variable; and a complete token stream, [Eof] included, never has more
    than that many tokens. *)
Theorem scanning_ends :
  forall text : string,
  ((exists ts, scan (S (3 * String.length text)) text = Ok ts)
   \/ (exists e, scan (S (3 * String.length text)) text = Throw e)
   \/ scan (S (3 * String.length text)) text = Undefined)
  /\ (forall (n : nat) (ts : list Token),
         scan n text = Ok ts ->
         (List.length ts <= 3 * String.length text + 1)%nat).
Proof.
  intros text. destruct (potential_of_text text) as [P F]. split.
  - assert (H : scan (S (3 * String.length text)) text <> OutOfFuel).
    { apply scan_from_ends; [exact F|]. rewrite P. lia. }
    destruct (scan (S (3 * String.length text)) text) as [ts|e| |].
    + left. exists ts. reflexivity.
    + right. left. exists e. reflexivity.
    + right. right. reflexivity.
    + contradiction.
  - intros n ts H.
    pose proof (scan_from_length n _ ts F H) as L. rewrite P in L. lia.
Qed.

Lemma scanning_ends_witness :
  (List.length [token_type.Id "x"; token_type.Newline; token_type.Eof]
   <= 3 * String.length "x" + 1)%nat.
Proof.
  apply (proj2 (scanning_ends "x") 4%nat). reflexivity.
Defined.

(** ** Indentation at the start of a line *)

Lemma spaces_skipped_indent (l : Lexer) (j : nat) (c : ascii) (rest : list ascii) :
  good (input_ l) = true ->
  buf (input_ l) = repeat SPACE j ++ c :: rest ->
  c <> SPACE ->
  start_of_line_ l = true ->
  Z.of_nat j < util.size_max ->
  spaces_skipped l
  = with_line_indent (with_input l (stream (c :: rest)))
      (line_depth j mod uint32_max).
Proof.
  intros G B Hc Hs Hj. unfold spaces_skipped, util.CountSpaces.
  rewrite (good_stream _ G), B. cbn [buf stream].
  rewrite CountSpaces_loop_span by (first [lia | split; [lia | reflexivity]]).
  assert (F : forallb is_space (repeat SPACE j) = true)
    by (clear; induction j; [reflexivity | exact IHj]).
  assert (R : match c :: rest with [] => Logic.True | x :: _ => is_space x = false end)
    by (apply Ascii.eqb_neq, Hc).
  rewrite (span_app is_space _ (c :: rest) F R). cbn [fst snd stream_after].
  rewrite repeat_length, Z.add_0_l.
  rewrite (Z.mod_small (Z.of_nat j) util.size_max)
    by (split; [apply Nat2Z.is_nonneg | exact Hj]).
  cbn [with_input start_of_line_]. rewrite Hs. reflexivity.
Qed.

Lemma tokens_from_same_first_call (l l0 : Lexer) :
  ReadNextToken l = ReadNextToken l0 ->
  forall n : nat,
  tokens_from (S n) l = tokens_from (S n) l0
  /\ NextToken_times (S n) l = NextToken_times (S n) l0.
Proof.
  intros E n. cbn [tokens_from NextToken_times]. unfold NextToken.
  rewrite E. split; reflexivity.
Qed.

Lemma first_token_of_line (l : Lexer) (c : ascii) (rest : list ascii) :
  good (input_ l) = true -> buf (input_ l) = c :: rest -> significant c ->
  current_indent_ l = line_indent_ l ->
  forall l'' : Lexer,
  ReadNextToken l = (Ok tt, l'') -> structural (current_token_ l'') = false.
Proof.
  intros G B Sig E l'' R.
  rewrite (ReadNextToken_significant l c rest G B Sig) in R.
  rewrite E, Z.eqb_refl, andb_false_r in R.
  pose proof (ParseToken_spec l) as (_ & _ & _ & _ & T & _).
  destruct (ParseToken l) as [[[]|e| |] l1]; cbn [fst snd] in *; try discriminate.
  injection R as <-. exact (T eq_refl).
Qed.

Lemma indent_run (k : nat) :
  forall (l : Lexer) (c : ascii) (rest : list ascii),
  good (input_ l) = true -> buf (input_ l) = c :: rest -> significant c ->
  start_of_line_ l = true -> uint32_fields l ->
  k = Z.abs_nat (line_indent_ l - current_indent_ l) ->
  exists l' : Lexer,
    NextToken_times k l = Ok l'
    /\ current_indent_ l' = line_indent_ l
    /\ line_indent_ l' = line_indent_ l
    /\ input_ l' = input_ l
    /\ forall m : nat,
         tokens_from (k + m) l
         = repeat (if current_indent_ l <? line_indent_ l
                   then token_type.Indent else token_type.Dedent) k
           ++ tokens_from m l'.
Proof.
  induction k as [|k IH]; intros l c rest G B Sig Hs [Hc Hl] K.
  - exists l. cbn [NextToken_times repeat app Nat.add].
    repeat split; try reflexivity. lia.
  - assert (R : ReadNextToken l = (Ok tt, ParseIndent l)).
    { rewrite (ReadNextToken_significant l c rest G B Sig), Hs.
      destruct (Z.eqb_spec (current_indent_ l) (line_indent_ l)); [lia | reflexivity]. }
    assert (P : input_ (ParseIndent l) = input_ l
                /\ start_of_line_ (ParseIndent l) = start_of_line_ l
                /\ line_indent_ (ParseIndent l) = line_indent_ l
                /\ current_indent_ (ParseIndent l)
                   = (if current_indent_ l <? line_indent_ l
                      then current_indent_ l + 1 else current_indent_ l - 1)
                /\ current_token_ (ParseIndent l)
                   = (if current_indent_ l <? line_indent_ l
                      then token_type.Indent else token_type.Dedent)).
    { unfold ParseIndent.
      destruct (Z.ltb_spec (current_indent_ l) (line_indent_ l)).
      - cbn [with_current_token with_current_indent input_ start_of_line_
             line_indent_ current_indent_ current_token_].
        rewrite Z.mod_small by lia. auto.
      - destruct (Z.ltb_spec (line_indent_ l) (current_indent_ l)); [|lia].
        cbn [with_current_token with_current_indent input_ start_of_line_
             line_indent_ current_indent_ current_token_].
        rewrite Z.mod_small by lia. auto. }
    destruct P as (Pi & Ps & Pl & Pc & Pt).
    destruct (IH (ParseIndent l) c rest) as (l' & N & C' & L' & I' & T').
    + rewrite Pi. exact G.
    + rewrite Pi. exact B.
    + exact Sig.
    + rewrite Ps. exact Hs.
    + unfold uint32_fields. rewrite Pl, Pc.
      destruct (Z.ltb_spec (current_indent_ l) (line_indent_ l)); lia.
    + rewrite Pl, Pc.
      destruct (Z.ltb_spec (current_indent_ l) (line_indent_ l)); lia.
    + exists l'. rewrite Pl in C', L'. rewrite Pi in I'.
      split; [cbn [NextToken_times]; unfold NextToken; rewrite R; exact N|].
      split; [exact C'|]. split; [exact L'|]. split; [exact I'|].
      intros m. cbn [Nat.add tokens_from]. rewrite R, T', Pt, Pl, Pc.
      cbn [repeat app]. f_equal. f_equal.
      destruct k as [|k']; [reflexivity|]. f_equal.
      destruct (Z.ltb_spec (current_indent_ l) (line_indent_ l));
        match goal with
        | |- context [?a <? ?b] => destruct (Z.ltb_spec a b)
        end; try reflexivity; lia.
Qed.

(** X18. A line that starts with [j] spaces followed by a token is at the
    indentation level [j / 2].  From the start of the line the lexer first
    returns the [Indent] tokens, or the [Dedent] tokens, that take
    [current_indent_] to that level, one for each level of difference and
    never a mixture; only then does it return the first token of the line,
    which is not a structural token. *)
Theorem indentation_steps :
  forall (l : Lexer) (j : nat) (c : ascii) (rest : list ascii),
  good (input_ l) = true ->
  buf (input_ l) = repeat SPACE j ++ c :: rest ->
  significant c ->
  start_of_line_ l = true -> line_indent_ l = 0 ->
  0 <= current_indent_ l < uint32_max ->
  line_depth j < uint32_max ->
  exists l' : Lexer,
    NextToken_times
      (List.length (indentation_tokens (current_indent_ l) (line_depth j))) l = Ok l'
    /\ current_indent_ l' = line_depth j
    /\ (forall m : nat,
           tokens_from
             (List.length (indentation_tokens (current_indent_ l) (line_depth j)) + m) l
           = indentation_tokens (current_indent_ l) (line_depth j) ++ tokens_from m l')
    /\ (forall l'' : Lexer,
           ReadNextToken l' = (Ok tt, l'') ->
           structural (current_token_ l'') = false).
Proof.
  intros l j c rest G B Sig Hs Hl Hc Hd.
  unfold indentation_tokens. rewrite repeat_length.
  assert (D0 : 0 <= line_depth j)
    by (unfold line_depth; apply Z.div_pos; lia).
  destruct j as [|j].
  - cbn [repeat app] in B. change (line_depth 0) with 0 in *.
    destruct (indent_run (Z.abs_nat (0 - current_indent_ l)) l c rest G B Sig Hs)
      as (l' & N & C' & L' & I' & T').
    { unfold uint32_fields. rewrite Hl. pose proof uint32_max_pos. lia. }
    { rewrite Hl. reflexivity. }
    rewrite Hl in *. exists l'. split; [exact N|]. split; [exact C'|].
    split; [exact T'|].
    apply (first_token_of_line l' c rest); congruence.
  - assert (Hj : Z.of_nat (S j) < util.size_max).
    { pose proof (Z.mul_succ_div_gt (Z.of_nat (S j)) 2 ltac:(lia)) as H.
      unfold line_depth, uint32_max in Hd. unfold util.size_max. lia. }
    assert (HS : c <> SPACE) by apply Sig.
    pose proof (spaces_skipped_indent l (S j) c rest G B HS Hs Hj) as E0.
    rewrite Z.mod_small in E0 by lia.
    assert (E : ReadNextToken l = ReadNextToken (spaces_skipped l))
      by (apply (ReadNextToken_SPACE l (repeat SPACE j ++ c :: rest) G B)).
    set (l0 := spaces_skipped l) in *.
    assert (G0 : good (input_ l0) = true) by (rewrite E0; reflexivity).
    assert (B0 : buf (input_ l0) = c :: rest) by (rewrite E0; reflexivity).
    assert (S0 : start_of_line_ l0 = true) by (rewrite E0; exact Hs).
    assert (C0 : current_indent_ l0 = current_indent_ l) by (rewrite E0; reflexivity).
    assert (L0 : line_indent_ l0 = line_depth (S j)) by (rewrite E0; reflexivity).
    destruct (indent_run (Z.abs_nat (line_depth (S j) - current_indent_ l)) l0 c rest
                G0 B0 Sig S0) as (l' & N & C' & L' & I' & T').
    { unfold uint32_fields. rewrite C0, L0. lia. }
    { rewrite C0, L0. reflexivity. }
    rewrite C0, L0 in *.
    destruct (Z.abs_nat (line_depth (S j) - current_indent_ l)) as [|k] eqn:K.
    + exists l. split; [reflexivity|]. split; [lia|].
      split; [intros m; reflexivity|].
      intros l'' R. rewrite E in R.
      apply (first_token_of_line l0 c rest G0 B0 Sig); [lia | exact R].
    + exists l'.
      split; [rewrite (proj2 (tokens_from_same_first_call l l0 E k)); exact N|].
      split; [exact C'|].
      split.
      * intros m. change (S k + m)%nat with (S (k + m)).
        rewrite (proj1 (tokens_from_same_first_call l l0 E (k + m))). apply T'.
      * apply (first_token_of_line l' c rest); congruence.
Qed.

Lemma indentation_steps_witness :
  exists l' : Lexer,
    NextToken_times 2
      (line_start (Lexer_members (istringstream "x")) (list_ascii_of_string "    x"))
    = Ok l'
    /\ current_indent_ l' = 2.
Proof.
  destruct (indentation_steps
              (line_start (Lexer_members (istringstream "x")) (list_ascii_of_string "    x"))
              4 "x"%char [])
    as (l' & N & C & _); try reflexivity.
  - repeat split; discriminate.
  - cbn. lia.
  - exists l'. split; [exact N | exact C].
Defined.

(** ** Names and keywords *)

(** X19. A name is read whole, and is a keyword only as a whole.  Where a
    token may start, a run of name characters that does not begin with a
    digit and is followed by no further name character gives one token, and
    the stream is left right after the run: the token of the table
    [KeyWords] when the whole run is one of its twelve entries, and the
    [Id] that holds the run in every other case. *)
Theorem names_and_keywords :
  forall (l : Lexer) (c : ascii) (name rest : list ascii),
  good (input_ l) = true ->
  buf (input_ l) = (c :: name) ++ rest ->
  util.IsNum c = false ->
  forallb util.IsAlNumLL (c :: name) = true ->
  match rest with
  | [] => Logic.True
  | d :: _ => util.IsAlNumLL d = false
  end ->
  start_of_line_ l = false \/ current_indent_ l = line_indent_ l ->
  ReadNextToken l
  = (Ok tt,
     with_start_of_line
       (with_current_token (with_input l (stream_after rest))
          match util.find util.KeyWords (string_of_list_ascii (c :: name)) with
          | Some t => t
          | None => token_type.Id (string_of_list_ascii (c :: name))
          end)
       false).
Proof.
  intros l c name rest G B N A R P.
  assert (Ac : util.IsAlNumLL c = true)
    by (cbn [forallb] in A; apply andb_prop in A; apply A).
  assert (Sig : significant c).
  { destruct (IsAlNumLL_plain c Ac) as (H1 & H2 & _ & _ & H5).
    repeat split; auto. intros ->. discriminate Ac. }
  rewrite (ReadNextToken_significant l c (name ++ rest) G B Sig).
  assert (Q : start_of_line_ l && negb (current_indent_ l =? line_indent_ l) = false).
  { destruct P as [-> | ->]; [reflexivity|].
    rewrite Z.eqb_refl. apply andb_false_r. }
  rewrite Q. unfold ParseToken.
  rewrite (good_stream _ G), B. cbn [app]. rewrite peek_stream.
  cbn [with_input input_]. rewrite int_to_char_to_int_type, N, Ac.
  unfold ParseName, util.ReadName. cbn [with_input input_ buf stream].
  rewrite ReadName_loop_span by lia.
  change (c :: name ++ rest) with ((c :: name) ++ rest).
  rewrite (span_app util.IsAlNumLL (c :: name) rest A R). cbn [fst snd append].
  destruct (util.find util.KeyWords (string_of_list_ascii (c :: name)));
    reflexivity.
Qed.

Lemma names_and_keywords_witness :
  ReadNextToken (Lexer_members (istringstream "classes = 1"))
  = (Ok tt,
     mk_Lexer (stream (list_ascii_of_string " = 1")) false 0 0
       (token_type.Id "classes")).
Proof.
  apply (names_and_keywords (Lexer_members (istringstream "classes = 1"))
           "c"%char (list_ascii_of_string "lasses") (list_ascii_of_string " = 1"));
    try reflexivity.
  right. reflexivity.
Defined.

(** ** Every outcome of [ReadString] *)

Lemma ReadString_loop_dangling (first : ascii) (body : list item) :
  Forall (plain_ok first) body ->
  forall (n : nat) (c : option ascii) (line : string),
  (List.length (flat_map encode body ++ [BACKSLASH]) < n)%nat ->
  util.ReadString_loop n first c line (stream (flat_map encode body ++ [BACKSLASH]))
  = (Undefined, ended).
Proof.
  intros Hbody. induction Hbody as [|it body Hit Hbody IH]; intros n c line Hn.
  - destruct n; [simpl in Hn; lia|].
    cbn [flat_map app util.ReadString_loop]. unfold stream. rewrite get_good.
    rewrite Ascii.eqb_refl, get_end. reflexivity.
  - destruct n; [simpl in Hn; lia|].
    destruct it as [p|x]; cbn [flat_map encode app] in *.
    + destruct Hit as [Hp1 Hp2].
      cbn [util.ReadString_loop]. unfold stream at 1. rewrite get_good.
      destruct (Ascii.eqb_spec p BACKSLASH); [contradiction|].
      destruct (Ascii.eqb_spec p first); [contradiction|].
      fold (stream (flat_map encode body ++ [BACKSLASH])).
      apply IH. simpl in Hn. lia.
    + cbn [util.ReadString_loop]. unfold stream at 1. rewrite !get_good.
      rewrite Ascii.eqb_refl.
      fold (stream (flat_map encode body ++ [BACKSLASH])).
      apply IH. simpl in Hn. lia.
Qed.

(** Any text splits into plain characters and escapes up to the first
    quote that is not escaped, or up to its end, where a last backslash may
    be left over. *)
Lemma literal_shapes (first : ascii) (b : list ascii) :
  (exists (body : list item) (rest : list ascii),
      Forall (plain_ok first) body /\ b = flat_map encode body ++ first :: rest)
  \/ (exists body : list item,
         Forall (plain_ok first) body /\ b = flat_map encode body)
  \/ (exists body : list item,
         Forall (plain_ok first) body /\ b = flat_map encode body ++ [BACKSLASH]).
Proof.
  remember (List.length b) as n eqn:Hn. revert b Hn.
  induction n as [n IH] using lt_wf_ind. intros b Hn.
  destruct b as [|c b].
  { right. left. exists []. split; [constructor | reflexivity]. }
  destruct (Ascii.eqb_spec c BACKSLASH) as [->|Hc].
  - destruct b as [|x b].
    { right. right. exists []. split; [constructor | reflexivity]. }
    destruct (IH (List.length b) ltac:(subst n; simpl; lia) b eq_refl)
      as [(body & rest & F & E) | [(body & F & E) | (body & F & E)]]; subst b.
    + left. exists (Escape x :: body), rest.
      split; [constructor; [exact I | exact F] | reflexivity].
    + right. left. exists (Escape x :: body).
      split; [constructor; [exact I | exact F] | reflexivity].
    + right. right. exists (Escape x :: body).
      split; [constructor; [exact I | exact F] | reflexivity].
  - destruct (Ascii.eqb_spec c first) as [->|Hf].
    { left. exists [], b. split; [constructor | reflexivity]. }
    destruct (IH (List.length b) ltac:(subst n; simpl; lia) b eq_refl)
      as [(body & rest & F & E) | [(body & F & E) | (body & F & E)]]; subst b.
    + left. exists (Plain c :: body), rest.
      split; [constructor; [split; assumption | exact F] | reflexivity].
    + right. left. exists (Plain c :: body).
      split; [constructor; [split; assumption | exact F] | reflexivity].
    + right. right. exists (Plain c :: body).
      split; [constructor; [split; assumption | exact F] | reflexivity].
Qed.

(** X20. The four outcomes of [ReadString], for any text after the opening
    quote.  Either the text holds a closing quote that is not escaped: the
    value of the body before it is returned and the stream is left after it.
    Or the text ends first, after at least one character: [runtime_error]
    with the value read so far in its message.  Or the text is empty, or it
    ends right after a backslash that is not itself escaped: the function
    then reads a variable that was never assigned ([c] in the first case,
    [next] in the second). *)
Theorem ReadString_outcomes :
  forall (first : ascii) (b : list ascii),
  first = DQUOTE \/ first = SQUOTE ->
  (exists (body : list item) (rest : list ascii),
      Forall (plain_ok first) body
      /\ b = flat_map encode body ++ first :: rest
      /\ util.ReadString (stream (first :: b)) = (Ok (spec_value body), stream rest))
  \/ (exists body : list item,
         Forall (plain_ok first) body /\ body <> []
         /\ b = flat_map encode body
         /\ util.ReadString (stream (first :: b))
            = (Throw (runtime_error ("Failed to parse string : " ++ spec_value body)),
               ended))
  \/ (b = [] /\ util.ReadString (stream (first :: b)) = (Undefined, ended))
  \/ (exists body : list item,
         Forall (plain_ok first) body
         /\ b = flat_map encode body ++ [BACKSLASH]
         /\ util.ReadString (stream (first :: b)) = (Undefined, ended)).
Proof.
  intros first b Hq.
  assert (Hfirst : first <> BACKSLASH) by (destruct Hq; subst; discriminate).
  destruct (literal_shapes first b)
    as [(body & rest & F & E) | [(body & F & E) | (body & F & E)]]; subst b.
  - left. exists body, rest. split; [exact F|]. split; [reflexivity|].
    unfold util.ReadString, get_int, stream. rewrite get_good.
    rewrite int_to_char_to_int_type.
    fold (stream (flat_map encode body ++ first :: rest)).
    rewrite (ReadString_loop_items first rest body Hfirst F) by (simpl; lia).
    rewrite Ascii.eqb_refl. reflexivity.
  - destruct body as [|it body].
    + right. right. left. split; [reflexivity|].
      cbn [flat_map]. unfold util.ReadString, get_int, stream. rewrite get_good.
      cbn [buf List.length util.ReadString_loop]. rewrite get_end. reflexivity.
    + right. left. exists (it :: body). split; [exact F|].
      split; [discriminate|]. split; [reflexivity|].
      apply ReadString_unterminated; [exact Hq | exact F | discriminate].
  - right. right. right. exists body. split; [exact F|]. split; [reflexivity|].
    unfold util.ReadString, get_int, stream. rewrite get_good.
    rewrite int_to_char_to_int_type.
    fold (stream (flat_map encode body ++ [BACKSLASH])).
    rewrite (ReadString_loop_dangling first body F) by (simpl; lia).
    reflexivity.
Qed.

Lemma ReadString_outcomes_witness :
  fst (util.ReadString (istringstream (dq ++ "a\"))) = Undefined.
Proof.
  destruct (ReadString_outcomes DQUOTE (list_ascii_of_string "a\") (or_introl eq_refl))
    as [(body & rest & _ & _ & H) | [(body & _ & _ & _ & H) | [(_ & H) | (body & _ & _ & H)]]];
    change (stream (DQUOTE :: list_ascii_of_string "a\"))
      with (istringstream (dq ++ "a\")) in H;
    rewrite H; try reflexivity;
    vm_compute in H; discriminate H.
Defined.

(** ** The end of a line *)



(** ** The character that compares equal to [eof()] *)

(** X22. [ReadNextToken] compares the character ahead, held in a [char],
    with [eof()], and the character with code 255 compares equal to it.
    Where such a character stands at the start of a line with no indentation
    open, every call stores [Eof] and extracts nothing: the text after it is
    never read. *)
Theorem char_255_is_taken_for_the_end :
  forall (l : Lexer) (rest : list ascii),
  good (input_ l) = true ->
  buf (input_ l) = "255"%char :: rest ->
  start_of_line_ l = true -> current_indent_ l = 0 ->
  forall n : nat,
  NextToken_times (S n) l = Ok (with_current_token l token_type.Eof)
  /\ tokens_from (S n) l = repeat token_type.Eof (S n).
Proof.
  intros l rest G B S C.
  destruct l as [i sl ci li t0]. cbn [input_ start_of_line_ current_indent_] in *.
  pose proof (good_stream i G) as E. rewrite B in E. subst i sl ci.
  set (l := mk_Lexer (stream ("255"%char :: rest)) true 0 li t0).
  assert (R : forall t, ReadNextToken (with_current_token l t)
                        = (Ok tt, with_current_token l token_type.Eof)).
  { intros t. rewrite ReadNextToken_EOF; reflexivity. }
  assert (R0 : ReadNextToken l = (Ok tt, with_current_token l token_type.Eof))
    by exact (R t0).
  assert (K : forall n t,
             NextToken_times n (with_current_token l t)
             = Ok (with_current_token l (match n with O => t | _ => token_type.Eof end))
             /\ tokens_from n (with_current_token l t) = repeat token_type.Eof n).
  { induction n as [|n IH]; intros t; [split; reflexivity|].
    cbn [NextToken_times tokens_from repeat]. unfold NextToken. rewrite R.
    destruct (IH token_type.Eof) as [IH1 IH2]. rewrite IH1, IH2.
    split; [destruct n; reflexivity | reflexivity]. }
  intros n. cbn [NextToken_times tokens_from repeat]. unfold NextToken. rewrite R0.
  destruct (K n token_type.Eof) as [K1 K2]. rewrite K1, K2.
  split; [destruct n; reflexivity | reflexivity].
Qed.

Lemma char_255_is_taken_for_the_end_witness :
  tokens 3 (String "255"%char "x = 1")
  = [token_type.Eof; token_type.Eof; token_type.Eof].
Proof.
  apply (proj2 (char_255_is_taken_for_the_end
                  (Lexer_members (istringstream (String "255"%char "x = 1")))
                  (list_ascii_of_string "x = 1")
                  eq_refl eq_refl eq_refl eq_refl 2%nat)).
Defined.
